(** * react-digraph: the GraphView component (src/components/graph-view.js)

    A shallow embedding of the graph editor's view component: its
    viewport arithmetic (modifyZoom, handleZoomToFit), its edit handlers
    (delete, move, update, select, edge creation and retargeting) and its
    per-entity render timers, with the properties the specification states
    about them.  The reconciliation after an update, the pointer and
    keyboard handlers and the Node component (src/components/node.js),
    whose callbacks the edit handlers are, follow, with properties read
    off the code.

    Conventions of the embedding.
    - A JavaScript number is an IEEE-754 binary64 value: the primitive
      type [float].  The viewport arithmetic is written once, over an
      interface of number operations, and read at two instances: [float]
      (what the program computes) and [R] (exact arithmetic, where the
      algebraic identities behind the formulas can be stated).
    - Node objects are mutated in place and compared by reference, so
      they live in a store ([heap]) and the component holds references.
      Edge objects are never mutated; an edge carries its identity
      ([e_ref]) for the one place that compares edges by reference.
    - [this.setState(p)] merges [p] into the component state at once; the
      handlers read [this.state] after calling it.  Re-derivation of the
      state from new props is the separate step [getDerivedStateFromProps].
    - A handler runs in [M]: it threads the [World] (component state,
      object store, rendered elements, timers, notifications sent to the
      caller) and may throw; the world at the point of the throw is kept.
    - A function of another file (edge.js, the layout engine) is a
      parameter of the definitions that call it.  So is, for the Node
      component, what React makes of [this.state] when it processes an
      update, which differs between versions of React. *)

From stdpp Require Import gmap strings list fin_maps.
From Stdlib Require Import PrimFloat Reals Lra.
From Stdlib Require FloatOps FloatAxioms SpecFloat.

Set Warnings "-inexact-float".

(** ** Outcomes of JavaScript code *)

Inductive Exn :=
| TypeError   (* property access on null or undefined *)
| Dangling.   (* a reference outside the store: no JavaScript run reaches it *)

Inductive Result (A : Type) :=
| Ok (a : A)
| Throw (e : Exn).
Arguments Ok {A} a.
Arguments Throw {A} e.

(** ** Viewport arithmetic *)

Module Viewport.

(** The operations the zoom code applies to numbers. *)
Class JsNumber (N : Type) := {
  num_add : N → N → N;
  num_sub : N → N → N;
  num_mul : N → N → N;
  num_div : N → N → N;
  num_lt : N → N → bool;        (* a < b *)
  num_max : N → N → N;          (* Math.max(a, b) *)
  num_truthy : N → bool;        (* the number as a condition: not 0, not NaN *)
  num_0 : N;
  num_1 : N;
  num_2 : N;
  num_0_9 : N;
}.

Declare Scope js_scope.
Delimit Scope js_scope with js.
Notation "a + b" := (num_add a b) : js_scope.
Notation "a - b" := (num_sub a b) : js_scope.
Notation "a * b" := (num_mul a b) : js_scope.
Notation "a / b" := (num_div a b) : js_scope.
Notation "a <? b" := (num_lt a b) : js_scope.
Notation "a >? b" := (num_lt b a) : js_scope.

(** [Math.max] on doubles: NaN if either argument is NaN, and +0 is
    larger than -0. *)
Definition float_max (a b : float) : float :=
  if (is_nan a || is_nan b)%bool then nan
  else if ltb a b then b
  else if ltb b a then a
  else if is_zero a then add a b
  else a.

#[export] Instance float_JsNumber : JsNumber float := {|
  num_add := add;
  num_sub := sub;
  num_mul := mul;
  num_div := div;
  num_lt := ltb;
  num_max := float_max;
  num_truthy f := negb (is_zero f || is_nan f);
  num_0 := 0%float;
  num_1 := 1%float;
  num_2 := 2%float;
  num_0_9 := 0.9%float;
|}.

(** Exact arithmetic, for the algebra behind the formulas only.  It is
    not what the program computes: nothing is rounded, there is no NaN
    and no infinity, and a division by zero gives zero where a double
    gives an infinity or NaN.  A statement over [R] is read with divisors
    other than zero, and says nothing of the doubles. *)
Definition Rltb (a b : R) : bool := if Rlt_dec a b then true else false.
Definition Rtruthy (a : R) : bool := if Req_dec_T a 0%R then false else true.

#[export] Instance R_JsNumber : JsNumber R := {|
  num_add := Rplus;
  num_sub := Rminus;
  num_mul := Rmult;
  num_div := Rdiv;
  num_lt := Rltb;
  num_max := Rmax;
  num_truthy := Rtruthy;
  num_0 := 0%R;
  num_1 := 1%R;
  num_2 := 2%R;
  num_0_9 := (9 / 10)%R;
|}.

Section Zoom.
Context {N : Type} `{JsNumber N}.
Local Open Scope js_scope.

(** type IViewTransform = { k, x, y } *)
Record IViewTransform := { k : N; x : N; y : N }.

(** What [entities.getBBox()] returns. *)
Record BBox := { bb_x : N; bb_y : N; bb_width : N; bb_height : N }.

(** The arguments of a call [this.setZoom(k, x, y, dur)]: the transform
    [d3.zoomIdentity.translate(x, y).scale(k)] handed to d3, and the
    duration of the transition. *)
Record SetZoom := { to : IViewTransform; dur : N }.

(** [a || b] on an optional number prop. *)
Definition or_default (a : option N) (b : N) : N :=
  match a with
  | Some v => if num_truthy v then v else b
  | None => b
  end.

(** handleZoomToFit: [width] and [height] are the wrapper's clientWidth
    and clientHeight, [minZoom], [maxZoom] and [zoomDur] the props. *)
Definition handleZoomToFit (viewBBox : BBox) (width height : N)
    (props_minZoom props_maxZoom : option N) (zoomDur : N) : SetZoom :=
  let minZoom := or_default props_minZoom num_0 in
  let maxZoom := or_default props_maxZoom num_2 in
  let next := {| k := (minZoom + maxZoom) / num_2; x := num_0; y := num_0 |} in
  let next :=
    if ((bb_width viewBBox >? num_0) && (bb_height viewBBox >? num_0))%bool then
      let dx := bb_width viewBBox in
      let dy := bb_height viewBBox in
      let x := bb_x viewBBox + bb_width viewBBox / num_2 in
      let y := bb_y viewBBox + bb_height viewBBox / num_2 in
      let next_k := num_0_9 / num_max (dx / width) (dy / height) in
      let next_k :=
        if next_k <? minZoom then minZoom
        else if next_k >? maxZoom then maxZoom
        else next_k in
      {| k := next_k;
         x := width / num_2 - next_k * x;
         y := height / num_2 - next_k * y |}
    else next in
  {| to := next; dur := zoomDur |}.

(** modifyZoom: [extent] is [this.zoom.scaleExtent()], [viewTransform]
    is [this.state.viewTransform] (undefined until the first zoom event).
    The result is the returned boolean and the call of [setZoom], if any. *)
Definition modifyZoom (clientWidth clientHeight : N) (extent : N * N)
    (viewTransform : option IViewTransform) (modK modX modY dur : N)
    : Result (bool * option SetZoom) :=
  let center_x := clientWidth / num_2 in
  let center_y := clientHeight / num_2 in
  match viewTransform with
  | None => Throw TypeError
  | Some viewTransform =>
    let next_k := k viewTransform in
    let next_x := x viewTransform in
    let next_y := y viewTransform in
    let targetZoom := next_k * (num_1 + modK) in
    let next_k := targetZoom in
    if ((targetZoom <? fst extent) || (targetZoom >? snd extent))%bool then
      Ok (false, None)
    else
      let translate0_x := (center_x - next_x) / next_k in
      let translate0_y := (center_y - next_y) / next_k in
      let l_x := translate0_x * next_k + next_x in
      let l_y := translate0_y * next_k + next_y in
      let next_x := next_x + (center_x - l_x + modX) in
      let next_y := next_y + (center_y - l_y + modY) in
      Ok (true, Some {| to := {| k := next_k; x := next_x; y := next_y |};
                        dur := dur |})
  end.

(** The scale extent installed at mount:
    [scaleExtent([minZoom || 0, maxZoom || 0])]. *)
Definition scaleExtent (props_minZoom props_maxZoom : option N) : N * N :=
  (or_default props_minZoom num_0, or_default props_maxZoom num_0).

(** What a transform means: the screen position of a graph point, and
    the graph point drawn at a screen position. *)
Definition screen_point (t : IViewTransform) (g : N * N) : N * N :=
  (fst g * k t + x t, snd g * k t + y t).
Definition graph_point (t : IViewTransform) (s : N * N) : N * N :=
  ((fst s - x t) / k t, (snd s - y t) / k t).

End Zoom.

Arguments IViewTransform N : clear implicits.
Arguments BBox N : clear implicits.
Arguments SetZoom N : clear implicits.

(** The specification of fit-to-content, in exact arithmetic: an empty
    bounding box gives the midpoint of the zoom range and no translation;
    otherwise the scale is 0.9 / max(bboxWidth/viewportWidth,
    bboxHeight/viewportHeight) clamped to the zoom range, and the
    translation puts the centre of the box at the centre of the viewport. *)
Definition clamp (lo hi v : R) : R := Rmin hi (Rmax lo v).

Definition fitToContent (b : BBox R) (viewportWidth viewportHeight minZoom maxZoom : R)
    : IViewTransform R :=
  if Rlt_dec 0 (bb_width b) then
    if Rlt_dec 0 (bb_height b) then
      let scale :=
        clamp minZoom maxZoom
          (9 / 10 / Rmax (bb_width b / viewportWidth) (bb_height b / viewportHeight)) in
      {| k := scale;
         x := viewportWidth / 2 - scale * (bb_x b + bb_width b / 2);
         y := viewportHeight / 2 - scale * (bb_y b + bb_height b / 2) |}%R
    else {| k := (minZoom + maxZoom) / 2; x := 0; y := 0 |}%R
  else {| k := (minZoom + maxZoom) / 2; x := 0; y := 0 |}%R.

End Viewport.

(** ** The component: data *)

Module GraphView.

Local Open Scope string_scope.

(** A reference to a node object. *)
Definition loc := nat.

(** type IPoint = { x, y } *)
Record IPoint := { p_x : float; p_y : float }.

(** type INode.  [n_key] is the value of [node[nodeKey]]. *)
Record INode := {
  n_key : string;
  n_title : string;
  n_type : string;
  n_x : float;
  n_y : float;
}.

(** The identity of an edge object: one the caller supplied in [edges],
    or one a handler created. *)
Inductive EdgeRef :=
| Supplied (n : nat)
| Created (n : nat).

#[export] Instance EdgeRef_eq_dec : EqDecision EdgeRef.
Proof. solve_decision. Defined.

(** type IEdge.  [source] and [target] may be missing (undefined); a
    transient edge has a [targetPosition] instead of a [target]. *)
Record IEdge := {
  e_ref : EdgeRef;
  e_source : option string;
  e_target : option string;
  e_targetPosition : option IPoint;
}.

(** An entry of [nodesMap] (INodeMapNode). *)
Record INodeMapNode := {
  nm_node : loc;
  nm_originalArrIndex : nat;
  nm_incomingEdges : list IEdge;
  nm_outgoingEdges : list IEdge;
}.

(** An entry of [edgesMap]. *)
Record IEdgeMapEdge := {
  em_edge : IEdge;
  em_originalArrIndex : nat;
}.

(** [selectedNodeObj]: { index, node }. *)
Record SelectedNodeObj := {
  sn_index : Z;
  sn_node : option loc;
}.

(** [selectedEdgeObj]: { edge }, and the [componentUpToDate] field that
    handleEdgeSelected stores in it. *)
Record SelectedEdgeObj := {
  se_componentUpToDate : option bool;
  se_edge : option IEdge;
}.

(** What handleDelete is given: a node object or an edge object. *)
Inductive Entity :=
| ENode (l : loc)
| EEdge (e : IEdge).

(** type IGraphViewState *)
Record IGraphViewState := {
  componentUpToDate : bool;
  draggedEdge : option IEdge;
  draggingEdge : bool;
  edgeEndNode : option loc;
  edges : list IEdge;
  edgesMap : gmap string IEdgeMapEdge;
  hoveredNode : bool;
  hoveredNodeData : option loc;
  nodes : list loc;
  nodesMap : gmap string INodeMapNode;
  selectedEdgeObj : option SelectedEdgeObj;
  selectedNodeObj : option SelectedNodeObj;
  selectingNode : bool;
}.

(** The props the handlers read.  A permission predicate may be absent;
    the callbacks are recorded as [Event]s. *)
Record Props := {
  readOnly : bool;
  canCreateEdge : option (unit → bool);
  canDeleteEdge : option (Entity → bool);
  canDeleteNode : option (Entity → bool);
}.

(** Calls of the caller's callbacks, with their arguments. *)
Inductive Event :=
| onDeleteNode (selected : Entity) (index : nat) (nodes : list loc)
| onDeleteEdge (selected : IEdge) (index : nat) (edges : list IEdge)
| onSelectNode (node : option loc)
| onSelectEdge (edge : option IEdge)
| onCreateNode (x y : float)
| onCreateEdge (source target : loc)
| onUpdateNode (node : loc)
| onSwapEdge (source target : loc) (edge : IEdge).

(** A rendered React element: a [<Node>] or an [<Edge>] with the props
    the selection state decides. *)
Inductive Element :=
| NodeElement (id : string) (data : loc) (index : Z) (isSelected : bool)
| EdgeElement (data : IEdge) (sourceNode : option loc)
              (targetNode : option (loc + IPoint)) (isSelected : bool).

(** The callback of a pending [setTimeout]. *)
Inductive Task :=
| RenderNodeTask (node : loc) (i : nat)     (* () => syncRenderNode(node, i) *)
| RenderEdgeTask (edge : IEdge).            (* () => syncRenderEdge(edge) *)

(** Everything a handler can read or change. *)
Record World := {
  state : IGraphViewState;                   (* this.state *)
  heap : gmap loc INode;                     (* the node objects *)
  dom : gmap string (option Element);        (* containers by id, and what is rendered in each *)
  nodeTimeouts : gmap string nat;            (* this.nodeTimeouts *)
  edgeTimeouts : gmap string nat;            (* this.edgeTimeouts *)
  timers : gmap nat Task;                    (* pending timeouts by handle *)
  nextTimer : nat;                           (* the handle the next setTimeout returns *)
  nextRef : nat;                             (* the reference of the next edge object created *)
  notifications : list Event;                (* callbacks called so far, oldest first *)
}.

(** ** The handler monad *)

Definition M (A : Type) : Type := World → Result A * World.

Definition ret {A} (a : A) : M A := λ w, (Ok a, w).
Definition throw {A} (e : Exn) : M A := λ w, (Throw e, w).
Definition bind {A B} (m : M A) (f : A → M B) : M B :=
  λ w, match m w with
       | (Ok a, w') => f a w'
       | (Throw e, w') => (Throw e, w')
       end.

Notation "'let*' x := m 'in' f" := (bind m (λ x, f))
  (at level 10, x name, m at level 100, f at level 200).
Notation "m ;;; f" := (bind m (λ _, f))
  (at level 100, right associativity).

Definition get : M World := λ w, (Ok w, w).
Definition modify (f : World → World) : M unit := λ w, (Ok tt, f w).
Definition when (b : bool) (m : M unit) : M unit := if b then m else ret tt.

(** [l.forEach(f)] *)
Fixpoint forEach {A} (l : list A) (f : A → M unit) : M unit :=
  match l with
  | [] => ret tt
  | a :: l => f a ;;; forEach l f
  end.

(** Reading a property of a possibly missing object. *)
Definition deref {A} (o : option A) : M A :=
  match o with
  | Some a => ret a
  | None => throw TypeError
  end.


(** ** The component: state updates *)

Section SetState.

(** The fields [this.setState] and the in-place updates assign. *)
Definition set_componentUpToDate (b : bool) (s : IGraphViewState) :=
  {| componentUpToDate := b; draggedEdge := draggedEdge s;
     draggingEdge := draggingEdge s; edgeEndNode := edgeEndNode s;
     edges := edges s; edgesMap := edgesMap s; hoveredNode := hoveredNode s;
     hoveredNodeData := hoveredNodeData s; nodes := nodes s;
     nodesMap := nodesMap s; selectedEdgeObj := selectedEdgeObj s;
     selectedNodeObj := selectedNodeObj s; selectingNode := selectingNode s |}.

Definition set_draggedEdge (e : option IEdge) (s : IGraphViewState) :=
  {| componentUpToDate := componentUpToDate s; draggedEdge := e;
     draggingEdge := draggingEdge s; edgeEndNode := edgeEndNode s;
     edges := edges s; edgesMap := edgesMap s; hoveredNode := hoveredNode s;
     hoveredNodeData := hoveredNodeData s; nodes := nodes s;
     nodesMap := nodesMap s; selectedEdgeObj := selectedEdgeObj s;
     selectedNodeObj := selectedNodeObj s; selectingNode := selectingNode s |}.

Definition set_draggingEdge (b : bool) (s : IGraphViewState) :=
  {| componentUpToDate := componentUpToDate s; draggedEdge := draggedEdge s;
     draggingEdge := b; edgeEndNode := edgeEndNode s;
     edges := edges s; edgesMap := edgesMap s; hoveredNode := hoveredNode s;
     hoveredNodeData := hoveredNodeData s; nodes := nodes s;
     nodesMap := nodesMap s; selectedEdgeObj := selectedEdgeObj s;
     selectedNodeObj := selectedNodeObj s; selectingNode := selectingNode s |}.

Definition set_edgeEndNode (n : option loc) (s : IGraphViewState) :=
  {| componentUpToDate := componentUpToDate s; draggedEdge := draggedEdge s;
     draggingEdge := draggingEdge s; edgeEndNode := n;
     edges := edges s; edgesMap := edgesMap s; hoveredNode := hoveredNode s;
     hoveredNodeData := hoveredNodeData s; nodes := nodes s;
     nodesMap := nodesMap s; selectedEdgeObj := selectedEdgeObj s;
     selectedNodeObj := selectedNodeObj s; selectingNode := selectingNode s |}.

Definition set_edges (l : list IEdge) (s : IGraphViewState) :=
  {| componentUpToDate := componentUpToDate s; draggedEdge := draggedEdge s;
     draggingEdge := draggingEdge s; edgeEndNode := edgeEndNode s;
     edges := l; edgesMap := edgesMap s; hoveredNode := hoveredNode s;
     hoveredNodeData := hoveredNodeData s; nodes := nodes s;
     nodesMap := nodesMap s; selectedEdgeObj := selectedEdgeObj s;
     selectedNodeObj := selectedNodeObj s; selectingNode := selectingNode s |}.

Definition set_edgesMap (m : gmap string IEdgeMapEdge) (s : IGraphViewState) :=
  {| componentUpToDate := componentUpToDate s; draggedEdge := draggedEdge s;
     draggingEdge := draggingEdge s; edgeEndNode := edgeEndNode s;
     edges := edges s; edgesMap := m; hoveredNode := hoveredNode s;
     hoveredNodeData := hoveredNodeData s; nodes := nodes s;
     nodesMap := nodesMap s; selectedEdgeObj := selectedEdgeObj s;
     selectedNodeObj := selectedNodeObj s; selectingNode := selectingNode s |}.

Definition set_hoveredNode (b : bool) (s : IGraphViewState) :=
  {| componentUpToDate := componentUpToDate s; draggedEdge := draggedEdge s;
     draggingEdge := draggingEdge s; edgeEndNode := edgeEndNode s;
     edges := edges s; edgesMap := edgesMap s; hoveredNode := b;
     hoveredNodeData := hoveredNodeData s; nodes := nodes s;
     nodesMap := nodesMap s; selectedEdgeObj := selectedEdgeObj s;
     selectedNodeObj := selectedNodeObj s; selectingNode := selectingNode s |}.

Definition set_hoveredNodeData (n : option loc) (s : IGraphViewState) :=
  {| componentUpToDate := componentUpToDate s; draggedEdge := draggedEdge s;
     draggingEdge := draggingEdge s; edgeEndNode := edgeEndNode s;
     edges := edges s; edgesMap := edgesMap s; hoveredNode := hoveredNode s;
     hoveredNodeData := n; nodes := nodes s;
     nodesMap := nodesMap s; selectedEdgeObj := selectedEdgeObj s;
     selectedNodeObj := selectedNodeObj s; selectingNode := selectingNode s |}.

Definition set_nodes (l : list loc) (s : IGraphViewState) :=
  {| componentUpToDate := componentUpToDate s; draggedEdge := draggedEdge s;
     draggingEdge := draggingEdge s; edgeEndNode := edgeEndNode s;
     edges := edges s; edgesMap := edgesMap s; hoveredNode := hoveredNode s;
     hoveredNodeData := hoveredNodeData s; nodes := l;
     nodesMap := nodesMap s; selectedEdgeObj := selectedEdgeObj s;
     selectedNodeObj := selectedNodeObj s; selectingNode := selectingNode s |}.

Definition set_nodesMap (m : gmap string INodeMapNode) (s : IGraphViewState) :=
  {| componentUpToDate := componentUpToDate s; draggedEdge := draggedEdge s;
     draggingEdge := draggingEdge s; edgeEndNode := edgeEndNode s;
     edges := edges s; edgesMap := edgesMap s; hoveredNode := hoveredNode s;
     hoveredNodeData := hoveredNodeData s; nodes := nodes s;
     nodesMap := m; selectedEdgeObj := selectedEdgeObj s;
     selectedNodeObj := selectedNodeObj s; selectingNode := selectingNode s |}.

Definition set_selectedEdgeObj (o : option SelectedEdgeObj) (s : IGraphViewState) :=
  {| componentUpToDate := componentUpToDate s; draggedEdge := draggedEdge s;
     draggingEdge := draggingEdge s; edgeEndNode := edgeEndNode s;
     edges := edges s; edgesMap := edgesMap s; hoveredNode := hoveredNode s;
     hoveredNodeData := hoveredNodeData s; nodes := nodes s;
     nodesMap := nodesMap s; selectedEdgeObj := o;
     selectedNodeObj := selectedNodeObj s; selectingNode := selectingNode s |}.

Definition set_selectedNodeObj (o : option SelectedNodeObj) (s : IGraphViewState) :=
  {| componentUpToDate := componentUpToDate s; draggedEdge := draggedEdge s;
     draggingEdge := draggingEdge s; edgeEndNode := edgeEndNode s;
     edges := edges s; edgesMap := edgesMap s; hoveredNode := hoveredNode s;
     hoveredNodeData := hoveredNodeData s; nodes := nodes s;
     nodesMap := nodesMap s; selectedEdgeObj := selectedEdgeObj s;
     selectedNodeObj := o; selectingNode := selectingNode s |}.

Definition set_selectingNode (b : bool) (s : IGraphViewState) :=
  {| componentUpToDate := componentUpToDate s; draggedEdge := draggedEdge s;
     draggingEdge := draggingEdge s; edgeEndNode := edgeEndNode s;
     edges := edges s; edgesMap := edgesMap s; hoveredNode := hoveredNode s;
     hoveredNodeData := hoveredNodeData s; nodes := nodes s;
     nodesMap := nodesMap s; selectedEdgeObj := selectedEdgeObj s;
     selectedNodeObj := selectedNodeObj s; selectingNode := b |}.

(** The parts of the world. *)
Definition with_state (f : IGraphViewState → IGraphViewState) (w : World) :=
  {| state := f (state w); heap := heap w; dom := dom w;
     nodeTimeouts := nodeTimeouts w; edgeTimeouts := edgeTimeouts w;
     timers := timers w; nextTimer := nextTimer w; nextRef := nextRef w;
     notifications := notifications w |}.

Definition with_heap (f : gmap loc INode → gmap loc INode) (w : World) :=
  {| state := state w; heap := f (heap w); dom := dom w;
     nodeTimeouts := nodeTimeouts w; edgeTimeouts := edgeTimeouts w;
     timers := timers w; nextTimer := nextTimer w; nextRef := nextRef w;
     notifications := notifications w |}.

Definition with_dom (f : gmap string (option Element) → gmap string (option Element))
    (w : World) :=
  {| state := state w; heap := heap w; dom := f (dom w);
     nodeTimeouts := nodeTimeouts w; edgeTimeouts := edgeTimeouts w;
     timers := timers w; nextTimer := nextTimer w; nextRef := nextRef w;
     notifications := notifications w |}.

Definition with_notifications (f : list Event → list Event) (w : World) :=
  {| state := state w; heap := heap w; dom := dom w;
     nodeTimeouts := nodeTimeouts w; edgeTimeouts := edgeTimeouts w;
     timers := timers w; nextTimer := nextTimer w; nextRef := nextRef w;
     notifications := f (notifications w) |}.

End SetState.

(** [this.setState(p)]: [p] is given as the composition of the setters
    of its fields.  This is the merge alone, as the code of the handlers
    has it.  What React does between the merge and the next read of
    [this.state] is not in it: from React 16.4 on, every update passes
    the merged state to getDerivedStateFromProps, which rebuilds the
    collections, the indexes and both selection records from the props.
    What is stated of the selection records is stated of the merge; the
    heap, the rendered elements, the timers and the notifications do not
    depend on it where no handler reads a selection record back. *)
Definition setState (p : IGraphViewState → IGraphViewState) : M unit :=
  modify (with_state p).

(** Calling a callback prop. *)
Definition notify (e : Event) : M unit :=
  modify (with_notifications (λ l, (l ++ [e])%list)).

(** Reading the node object behind a reference. *)
Definition load (l : loc) : M INode :=
  λ w, match heap w !! l with
       | Some n => (Ok n, w)
       | None => (Throw Dangling, w)
       end.

(** A new edge object literal: its fields, at a fresh reference. *)
Definition newEdge (source target : option string) (targetPosition : option IPoint)
    : M IEdge :=
  λ w, (Ok {| e_ref := Created (nextRef w); e_source := source; e_target := target;
              e_targetPosition := targetPosition |},
        {| state := state w; heap := heap w; dom := dom w;
           nodeTimeouts := nodeTimeouts w; edgeTimeouts := edgeTimeouts w;
           timers := timers w; nextTimer := nextTimer w; nextRef := S (nextRef w);
           notifications := notifications w |}).


(** ** The component: index, rendered elements, timers *)

(** A string or undefined used as a condition. *)
Definition truthy (s : option string) : bool :=
  match s with
  | Some s => if decide (s = "") then false else true
  | None => false
  end.

(** [id || ''] *)
Definition or_empty (s : option string) : string :=
  match s with
  | Some s => s
  | None => ""
  end.

(** A string or undefined inside a template literal. *)
Definition template (s : option string) : string :=
  match s with
  | Some s => s
  | None => "undefined"
  end.

Definition getNodeById (id : option string) (s : IGraphViewState) : option INodeMapNode :=
  nodesMap s !! ("key-" ++ or_empty id).

Definition getEdgeBySourceTarget (source target : string) (s : IGraphViewState)
    : option IEdgeMapEdge :=
  edgesMap s !! (source ++ "_" ++ target).

Definition deleteNodeById (id : option string) : M unit :=
  modify (with_state (λ s, set_nodesMap (delete ("key-" ++ template id) (nodesMap s)) s)).

Definition deleteEdgeBySourceTarget (source target : string) : M unit :=
  modify (with_state (λ s, set_edgesMap (delete (source ++ "_" ++ target) (edgesMap s)) s)).

(** Modelled from the spec: GraphUtils.removeElementFromDom (graph-util.js
    is not among the sources) removes the rendered element with the given
    id, if there is one. *)
Definition removeElementFromDom (id : string) : M unit :=
  modify (with_dom (delete id)).

Definition removeEdgeElement (source target : option string) : M unit :=
  let id := template source ++ "-" ++ template target in
  removeElementFromDom ("edge-" ++ id ++ "-container").

Definition isEdgeSelected (edge : IEdge) (s : IGraphViewState) : bool :=
  match selectedEdgeObj s with
  | Some sel =>
    match se_edge sel with
    | Some selected =>
      bool_decide (e_source selected = e_source edge)
      && bool_decide (e_target selected = e_target edge)
    | None => false
    end
  | None => false
  end.

(** getNodeComponent: the [<Node>] element; only the props that depend on
    the arguments and the state are kept. *)
Definition getNodeComponent (id : string) (node : loc) (index : Z) : M Element :=
  let* w := get in
  let* sel := deref (selectedNodeObj (state w)) in
  ret (NodeElement id node index (bool_decide (sn_node sel = Some node))).

(** renderNode: the container is created if there is none, and the
    element rendered into it. *)
Definition renderNode (id : string) (element : Element) : M unit :=
  let containerId := id ++ "-container" in
  modify (with_dom (<[containerId := Some element]>)).

Definition getEdgeComponent (edge : IEdge) (s : IGraphViewState) : Element :=
  let sourceNodeMapNode := getNodeById (e_source edge) s in
  let sourceNode :=
    match sourceNodeMapNode with
    | Some m => nodes s !! nm_originalArrIndex m
    | None => None
    end in
  let targetNodeMapNode := getNodeById (e_target edge) s in
  let targetNode :=
    match targetNodeMapNode with
    | Some m => nodes s !! nm_originalArrIndex m
    | None => None
    end in
  let targetPosition := e_targetPosition edge in
  EdgeElement edge sourceNode
    (match targetNode with
     | Some n => Some (inl n)
     | None => inr <$> targetPosition
     end)
    (isEdgeSelected edge s).

(** [edge !== draggedEdge] *)
Definition edge_differs (edge : IEdge) (draggedEdge : option IEdge) : bool :=
  match draggedEdge with
  | Some d => negb (bool_decide (e_ref edge = e_ref d))
  | None => true
  end.

(** renderEdge: a missing container is created (unless the edge is the
    dragged one) but the element is rendered only into a container that
    was there already. *)
Definition renderEdge (id : string) (element : Element) (edge : IEdge) : M unit :=
  let containerId := id ++ "-container" in
  let* w := get in
  let draggedEdge := draggedEdge (state w) in
  let edgeContainer := dom w !! containerId in
  when (negb (bool_decide (is_Some edgeContainer)) && edge_differs edge draggedEdge)
    (modify (with_dom (<[containerId := None]>))) ;;;
  when (bool_decide (is_Some edgeContainer))
    (modify (with_dom (<[containerId := Some element]>))).

Definition syncRenderEdge (edge : IEdge) : M unit :=
  if negb (truthy (e_source edge)) then ret tt
  else
    let idVar :=
      if truthy (e_target edge)
      then template (e_source edge) ++ "-" ++ template (e_target edge)
      else "custom" in
    let id := "edge-" ++ idVar in
    let* w := get in
    let element := getEdgeComponent edge (state w) in
    renderEdge id element edge.

Definition syncRenderConnectedEdgesFromNode (node : INodeMapNode) : M unit :=
  let* w := get in
  if draggingEdge (state w) then ret tt
  else
    forEach (nm_incomingEdges node) syncRenderEdge ;;;
    forEach (nm_outgoingEdges node) syncRenderEdge.

Definition syncRenderNode (node : loc) (i : Z) : M unit :=
  let* n := load node in
  let id := "node-" ++ n_key n in
  let* element := getNodeComponent id node i in
  let* w := get in
  let nodesMapNode := getNodeById (Some (n_key n)) (state w) in
  renderNode id element ;;;
  match nodesMapNode with
  | Some m => syncRenderConnectedEdgesFromNode m
  | None => ret tt
  end.

(** [setTimeout(callback)]: a fresh handle, the callback pending. *)
Definition setTimeout (t : Task) : M nat :=
  λ w, (Ok (nextTimer w),
        {| state := state w; heap := heap w; dom := dom w;
           nodeTimeouts := nodeTimeouts w; edgeTimeouts := edgeTimeouts w;
           timers := <[nextTimer w := t]> (timers w);
           nextTimer := S (nextTimer w); nextRef := nextRef w;
           notifications := notifications w |}).

(** [clearTimeout(h)]: nothing happens for undefined or for a handle
    that is not pending. *)
Definition clearTimeout (h : option nat) : M unit :=
  λ w, (Ok tt,
        match h with
        | Some h =>
          {| state := state w; heap := heap w; dom := dom w;
             nodeTimeouts := nodeTimeouts w; edgeTimeouts := edgeTimeouts w;
             timers := delete h (timers w);
             nextTimer := nextTimer w; nextRef := nextRef w;
             notifications := notifications w |}
        | None => w
        end).

Definition set_nodeTimeout (timeoutId : string) (h : nat) : M unit :=
  λ w, (Ok tt,
        {| state := state w; heap := heap w; dom := dom w;
           nodeTimeouts := <[timeoutId := h]> (nodeTimeouts w);
           edgeTimeouts := edgeTimeouts w; timers := timers w;
           nextTimer := nextTimer w; nextRef := nextRef w;
           notifications := notifications w |}).

Definition set_edgeTimeout (timeoutId : string) (h : nat) : M unit :=
  λ w, (Ok tt,
        {| state := state w; heap := heap w; dom := dom w;
           nodeTimeouts := nodeTimeouts w;
           edgeTimeouts := <[timeoutId := h]> (edgeTimeouts w); timers := timers w;
           nextTimer := nextTimer w; nextRef := nextRef w;
           notifications := notifications w |}).

Definition asyncRenderNode (node : loc) (i : nat) : M unit :=
  let* n := load node in
  let timeoutId := "nodes-" ++ n_key n in
  let* w := get in
  clearTimeout (nodeTimeouts w !! timeoutId) ;;;
  let* h := setTimeout (RenderNodeTask node i) in
  set_nodeTimeout timeoutId h.

Definition asyncRenderEdge (edge : IEdge) : M unit :=
  if negb (truthy (e_source edge)) || negb (truthy (e_target edge)) then ret tt
  else
    let timeoutId :=
      "edges-" ++ template (e_source edge) ++ "-" ++ template (e_target edge) in
    let* w := get in
    clearTimeout (edgeTimeouts w !! timeoutId) ;;;
    let* h := setTimeout (RenderEdgeTask edge) in
    set_edgeTimeout timeoutId h.

(** A pending timeout fires: it is pending no more, and its callback
    runs. *)
Definition fire (h : nat) : M unit :=
  let* w := get in
  match timers w !! h with
  | None => ret tt
  | Some t =>
    clearTimeout (Some h) ;;;
    match t with
    | RenderNodeTask node i => syncRenderNode node (Z.of_nat i)
    | RenderEdgeTask edge => syncRenderEdge edge
    end
  end.


(** ** The component: handlers *)

(** What the click handler reads from [d3.event]. *)
Record ClickEvent := {
  ev_partOfEdge : bool;                  (* isPartOfEdge(d3.event.target) *)
  ev_source : option string;             (* d3.event.target.dataset.source *)
  ev_target : option string;             (* d3.event.target.dataset.target *)
  ev_shiftKey : bool;                    (* d3.event.shiftKey *)
  ev_mouse : float * float;              (* d3.mouse(d3.event.target) *)
}.

(** [Object.assign(node, position)], and the two assignments of
    handleNodeMove. *)
Definition assign_position (position : IPoint) (n : INode) : INode :=
  {| n_key := n_key n; n_title := n_title n; n_type := n_type n;
     n_x := p_x position; n_y := p_y position |}.

(** A permission predicate prop: [can && can(arg)]. *)
Definition permitted {A} (can : option (A → bool)) (arg : A) : bool :=
  match can with
  | Some f => f arg
  | None => false
  end.

Section Handlers.

Variable props : Props.

Definition deleteNode (selectedNode : Entity) : M unit :=
  let* nodeId :=
    match selectedNode with
    | ENode l => let* n := load l in ret (Some (n_key n))
    | EEdge _ => ret None
    end in
  let* w := get in
  let* entry := deref (getNodeById nodeId (state w)) in
  let originalArrIndex := nm_originalArrIndex entry in
  deleteNodeById nodeId ;;;
  modify (with_state (λ s, set_nodes (delete originalArrIndex (nodes s)) s)) ;;;
  setState (λ s, set_componentUpToDate false (set_hoveredNode false s)) ;;;
  removeElementFromDom ("node-" ++ template nodeId ++ "-container") ;;;
  let* w := get in
  notify (onDeleteNode selectedNode originalArrIndex (nodes (state w))) ;;;
  notify (onSelectNode None).

Definition deleteEdge (selectedEdge : IEdge) : M unit :=
  let source := e_source selectedEdge in
  let target := e_target selectedEdge in
  if negb (truthy source) || negb (truthy target) then ret tt
  else
    let* w := get in
    let* entry :=
      deref (getEdgeBySourceTarget (template source) (template target) (state w)) in
    let originalArrIndex := em_originalArrIndex entry in
    modify (with_state (λ s, set_edges (delete originalArrIndex (edges s)) s)) ;;;
    when (truthy source && truthy target)
      (deleteEdgeBySourceTarget (template source) (template target)) ;;;
    setState (set_componentUpToDate false) ;;;
    when (truthy source && truthy target)
      (removeElementFromDom
         ("edge-" ++ template source ++ "-" ++ template target ++ "-container")) ;;;
    let* w := get in
    notify (onDeleteEdge selectedEdge originalArrIndex (edges (state w))).

(** [selected.source] for a node or an edge object. *)
Definition entity_source (selected : Entity) : option string :=
  match selected with
  | ENode _ => None
  | EEdge e => e_source e
  end.

Definition handleDelete (selected : option Entity) : M unit :=
  match selected with
  | None => ret tt
  | Some selected =>
    if readOnly props then ret tt
    else if negb (truthy (entity_source selected))
            && permitted (canDeleteNode props) selected
    then deleteNode selected
    else if truthy (entity_source selected)
            && permitted (canDeleteEdge props) selected
    then match selected with
         | EEdge e => deleteEdge e
         | ENode _ => ret tt
         end
    else ret tt
  end.

Definition handleEdgeSelected (source target : option string) : M unit :=
  if truthy source && truthy target then
    let* w := get in
    let* entry :=
      deref (getEdgeBySourceTarget (template source) (template target) (state w)) in
    let originalArrIndex := em_originalArrIndex entry in
    let previousSelection :=
      match selectedEdgeObj (state w) with
      | Some sel => se_edge sel
      | None => None
      end in
    setState (set_selectedEdgeObj
                (Some {| se_componentUpToDate := Some false;
                         se_edge := edges (state w) !! originalArrIndex |})) ;;;
    let* w := get in
    let* edge := deref (edges (state w) !! originalArrIndex) in
    syncRenderEdge edge ;;;
    match previousSelection with
    | Some previous => syncRenderEdge previous
    | None => ret tt
    end ;;;
    let* w := get in
    notify (onSelectEdge (edges (state w) !! originalArrIndex))
  else ret tt.

Definition handleSvgClicked (ev : ClickEvent) : M unit :=
  if ev_partOfEdge ev then handleEdgeSelected (ev_source ev) (ev_target ev)
  else
    let* w := get in
    if selectingNode (state w) then setState (set_selectingNode false)
    else
      let previousSelection :=
        match selectedNodeObj (state w) with
        | Some sel => sn_node sel
        | None => None
        end in
      let previousSelectionIndex :=
        match selectedNodeObj (state w) with
        | Some sel => if (sn_index sel =? 0)%Z then (-1)%Z else sn_index sel
        | None => (-1)%Z
        end in
      setState (set_selectedNodeObj None) ;;;
      notify (onSelectNode None) ;;;
      match previousSelection with
      | Some previous => syncRenderNode previous previousSelectionIndex
      | None => ret tt
      end ;;;
      when (negb (readOnly props) && ev_shiftKey ev)
        (notify (onCreateNode (fst (ev_mouse ev)) (snd (ev_mouse ev)))).

Definition handleNodeMove (position : IPoint) (index : nat) (shiftKey : bool) : M unit :=
  let* w := get in
  let node := nodes (state w) !! index in
  if readOnly props then ret tt
  else if negb shiftKey then
    let* node := deref node in
    let* n := load node in
    modify (with_heap (<[node := assign_position position n]>)) ;;;
    let* w := get in
    match getNodeById (Some (n_key n)) (state w) with
    | None => ret tt
    | Some nodeMapNode =>
      forEach (nm_incomingEdges nodeMapNode) syncRenderEdge ;;;
      forEach (nm_outgoingEdges nodeMapNode) syncRenderEdge
    end
  else if permitted (canCreateEdge props) tt then
    let* node := deref node in
    let* n := load node in
    let* edge := newEdge (Some (n_key n)) None (Some position) in
    syncRenderEdge edge ;;;
    setState (set_draggingEdge true)
  else ret tt.

Definition createNewEdge : M unit :=
  let* w := get in
  let edgesMap := edgesMap (state w) in
  let edgeEndNode := edgeEndNode (state w) in
  let hoveredNodeData := hoveredNodeData (state w) in
  removeElementFromDom "edge-custom-container" ;;;
  match edgeEndNode with
  | None => ret tt
  | Some edgeEndNode =>
    let* hoveredNodeData := deref hoveredNodeData in
    let* hovered := load hoveredNodeData in
    let* ending := load edgeEndNode in
    let mapId1 := n_key hovered ++ "_" ++ n_key ending in
    let mapId2 := n_key ending ++ "_" ++ n_key hovered in
    if negb (hoveredNodeData =? edgeEndNode)%nat
       && permitted (canCreateEdge props) tt
       && negb (bool_decide (is_Some (edgesMap !! mapId1)))
       && negb (bool_decide (is_Some (edgesMap !! mapId2)))
    then
      let* edge := newEdge (Some (n_key hovered)) (Some (n_key ending)) None in
      setState (λ s, set_componentUpToDate false
                       (set_draggedEdge None (set_draggingEdge false s))) ;;;
      syncRenderEdge edge ;;;
      notify (onCreateEdge hoveredNodeData edgeEndNode)
    else ret tt
  end.

Definition handleNodeUpdate (position : IPoint) (index : nat) (shiftKey : bool) : M unit :=
  (if shiftKey then createNewEdge
   else
     let* w := get in
     match nodes (state w) !! index with
     | Some node =>
       let* n := load node in
       modify (with_heap (<[node := assign_position position n]>)) ;;;
       notify (onUpdateNode node)
     | None => ret tt
     end) ;;;
  setState (λ s, set_componentUpToDate false (set_hoveredNode false s)).

(** handleNodeMouseEnter: [hovered] is false while a mouse button is
    down, as it is while an edge is drawn. *)
Definition handleNodeMouseEnter (data : loc) (hovered : bool) : M unit :=
  let* w := get in
  if hovered && negb (hoveredNode (state w)) then
    setState (λ s, set_hoveredNode true (set_hoveredNodeData (Some data) s))
  else if negb hovered && hoveredNode (state w) && draggingEdge (state w) then
    setState (set_edgeEndNode (Some data))
  else
    setState (λ s, set_hoveredNode true (set_hoveredNodeData (Some data) s)).

Definition handleNodeSelected (node : loc) (index : nat) (creatingEdge : bool) : M unit :=
  let* w := get in
  let previousSelection :=
    match selectedNodeObj (state w) with
    | Some sel => sn_node sel
    | None => None
    end in
  let previousSelectionIndex :=
    match selectedNodeObj (state w), previousSelection with
    | Some sel, Some _ => sn_index sel
    | _, _ => (-1)%Z
    end in
  setState (λ s, set_componentUpToDate false
                   (set_selectedNodeObj
                      (Some {| sn_index := Z.of_nat index; sn_node := Some node |}) s)) ;;;
  syncRenderNode node (Z.of_nat index) ;;;
  match previousSelection with
  | Some previous => syncRenderNode previous previousSelectionIndex
  | None => ret tt
  end ;;;
  when (negb creatingEdge) (notify (onSelectNode (Some node))).

Definition canSwap (sourceNode : loc) (hoveredNode : option loc) (swapEdge : IEdge)
    : M bool :=
  match hoveredNode with
  | None => ret false
  | Some hoveredNode =>
    let* source := load sourceNode in
    if negb (bool_decide (e_source swapEdge = Some (n_key source))) then ret true
    else
      let* hovered := load hoveredNode in
      ret (negb (bool_decide (e_target swapEdge = Some (n_key hovered))))
  end.

(** [draggedEdgeCopy.target = edgeEndNode[nodeKey]] *)
Definition set_target (target : option string) (e : IEdge) : IEdge :=
  {| e_ref := e_ref e; e_source := e_source e; e_target := target;
     e_targetPosition := e_targetPosition e |}.

Definition handleZoomEnd : M unit :=
  let* w := get in
  let edgeEndNode := edgeEndNode (state w) in
  match draggingEdge (state w), draggedEdge (state w) with
  | true, Some draggedEdge =>
    let* draggedEdgeCopy :=
      newEdge (e_source draggedEdge) (e_target draggedEdge)
              (e_targetPosition draggedEdge) in
    removeElementFromDom "edge-custom-container" ;;;
    setState (λ s, set_draggedEdge None (set_draggingEdge false s)) ;;;
    let* w := get in
    let* sourceEntry := deref (getNodeById (e_source draggedEdge) (state w)) in
    let sourceNode := nm_node sourceEntry in
    let* swap := canSwap sourceNode edgeEndNode draggedEdge in
    let* draggedEdgeCopy :=
      if swap then
        let* edgeEndNode := deref edgeEndNode in
        let* ending := load edgeEndNode in
        ret (set_target (Some (n_key ending)) draggedEdgeCopy)
      else ret draggedEdgeCopy in
    syncRenderEdge draggedEdgeCopy ;;;
    let* w := get in
    let* source := deref (getNodeById (e_source draggedEdgeCopy) (state w)) in
    let* target := deref (getNodeById (e_target draggedEdgeCopy) (state w)) in
    notify (onSwapEdge (nm_node source) (nm_node target) draggedEdge)
  | _, _ => ret tt
  end.

(** removeOldNodes: the rendered elements of the nodes that left the
    index, and of their edges, are removed. *)
Definition removeOldNodes (prevNodeMap nodesMap : gmap string INodeMapNode) : M unit :=
  forEach (map_to_list prevNodeMap) (λ '(nodeId, prevNode),
    if bool_decide (is_Some (nodesMap !! nodeId)) then ret tt
    else
      forEach (nm_outgoingEdges prevNode)
        (λ edge, removeEdgeElement (e_source edge) (e_target edge)) ;;;
      forEach (nm_incomingEdges prevNode)
        (λ edge, removeEdgeElement (e_source edge) (e_target edge)) ;;;
      let* n := load (nm_node prevNode) in
      removeElementFromDom ("node-" ++ n_key n ++ "-container")).

End Handlers.

(** ** The component: construction and props *)

(** The state the constructor installs. *)
Definition initial_state : IGraphViewState :=
  {| componentUpToDate := false; draggedEdge := None; draggingEdge := false;
     edgeEndNode := None; edges := []; edgesMap := ∅; hoveredNode := false;
     hoveredNodeData := None; nodes := []; nodesMap := ∅;
     selectedEdgeObj := None; selectedNodeObj := None; selectingNode := false |}.

(** The world after the constructor, over a store of node objects. *)
Definition initial_world (h : gmap loc INode) : World :=
  {| state := initial_state; heap := h; dom := ∅; nodeTimeouts := ∅;
     edgeTimeouts := ∅; timers := ∅; nextTimer := 1; nextRef := 0;
     notifications := [] |}.

(** Modelled from the spec: GraphUtils.getNodesMap (graph-util.js is not
    among the sources).  One index entry per node, keyed by "key-" and the
    node key, with the node, its position in the collection and empty
    adjacency lists; [keyed] pairs each node with its key. *)
Definition getNodesMap (keyed : list (loc * string)) : gmap string INodeMapNode :=
  foldl (λ m '(i, (l, key)),
           <["key-" ++ key :=
               {| nm_node := l; nm_originalArrIndex := i;
                  nm_incomingEdges := []; nm_outgoingEdges := [] |}]> m)
        ∅ (imap (λ i x, (i, x)) keyed).

(** Modelled from the spec: GraphUtils.getEdgesMap.  One index entry per
    edge, keyed by "source_target", with the edge and its position. *)
Definition getEdgesMap (edges : list IEdge) : gmap string IEdgeMapEdge :=
  foldl (λ m '(i, e),
           <[template (e_source e) ++ "_" ++ template (e_target e) :=
               {| em_edge := e; em_originalArrIndex := i |}]> m)
        ∅ (imap (λ i x, (i, x)) edges).

Definition push_outgoing (e : IEdge) (n : INodeMapNode) : INodeMapNode :=
  {| nm_node := nm_node n; nm_originalArrIndex := nm_originalArrIndex n;
     nm_incomingEdges := nm_incomingEdges n;
     nm_outgoingEdges := (nm_outgoingEdges n ++ [e])%list |}.

Definition push_incoming (e : IEdge) (n : INodeMapNode) : INodeMapNode :=
  {| nm_node := nm_node n; nm_originalArrIndex := nm_originalArrIndex n;
     nm_incomingEdges := (nm_incomingEdges n ++ [e])%list;
     nm_outgoingEdges := nm_outgoingEdges n |}.

(** Modelled from the spec: GraphUtils.linkNodesAndEdges.  Each edge is
    added to the outgoing list of its source entry and to the incoming
    list of its target entry; an edge with an endpoint absent from the
    index is skipped. *)
Definition linkNodesAndEdges (nodesMap : gmap string INodeMapNode) (edges : list IEdge)
    : gmap string INodeMapNode :=
  foldl (λ m e,
           let source := "key-" ++ template (e_source e) in
           let target := "key-" ++ template (e_target e) in
           if bool_decide (is_Some (m !! source)) && bool_decide (is_Some (m !! target))
           then alter (push_incoming e) target (alter (push_outgoing e) source m)
           else m)
        nodesMap edges.

(** The props getDerivedStateFromProps reads. *)
Record DataProps := {
  props_nodes : list loc;
  props_edges : list IEdge;
  props_selected : option Entity;
}.

(** getDerivedStateFromProps, for the layout engine type 'None' (the
    default), which leaves the nodes where they are. *)
Definition getDerivedStateFromProps (nextProps : DataProps) : M unit :=
  let edges := props_edges nextProps in
  let nodes := props_nodes nextProps in
  let* keyed :=
    foldr (λ l acc, let* n := load l in let* rest := acc in ret ((l, n_key n) :: rest))
          (ret []) nodes in
  let nodesMap := linkNodesAndEdges (getNodesMap keyed) edges in
  let edgesMap := getEdgesMap edges in
  let* selectedNodeMap :=
    match props_selected nextProps with
    | Some (ENode l) => let* n := load l in ret (nodesMap !! ("key-" ++ n_key n))
    | Some (EEdge _) => ret (nodesMap !! "key-undefined")
    | None => ret None
    end in
  let selectedEdgeMap :=
    match props_selected nextProps with
    | Some selected =>
      edgesMap !! (template (entity_source selected) ++ "_"
                   ++ template (match selected with
                                | ENode _ => None
                                | EEdge e => e_target e
                                end))
    | None => None
    end in
  setState (λ s,
    set_componentUpToDate true
      (set_edges edges
         (set_edgesMap edgesMap
            (set_nodes nodes
               (set_nodesMap nodesMap
                  (set_selectedEdgeObj
                     (Some {| se_componentUpToDate := None;
                              se_edge :=
                                match selectedEdgeMap with
                                | Some m => edges !! em_originalArrIndex m
                                | None => None
                                end |})
                     (set_selectedNodeObj
                        (Some {| sn_index :=
                                   match selectedNodeMap with
                                   | Some m => Z.of_nat (nm_originalArrIndex m)
                                   | None => (-1)%Z
                                   end;
                                 sn_node :=
                                   match selectedNodeMap with
                                   | Some m => nodes !! nm_originalArrIndex m
                                   | None => None
                                   end |})
                        s))))))).

(** ** Notions used in the statements *)

(** Only rendered elements differ between two worlds. *)
Definition dom_frame (w w' : World) : Prop := w' = with_dom (λ _, dom w') w.

(** The ids of edge containers start with "edge-". *)
Definition edge_id (k : string) : Prop := ∃ s, k = "edge-" ++ s.

(** The node and edge collections, the indices and the node objects are
    the same in two worlds. *)
Definition graph_unchanged (w w' : World) : Prop :=
  nodes (state w') = nodes (state w) ∧ edges (state w') = edges (state w) ∧
  nodesMap (state w') = nodesMap (state w) ∧ edgesMap (state w') = edgesMap (state w) ∧
  heap w' = heap w.

Definition selection_event (e : Event) : Prop :=
  match e with
  | onSelectNode _ | onSelectEdge _ => True
  | _ => False
  end.

(** The caller was told about selections only. *)
Definition only_selection_events (w w' : World) : Prop :=
  ∃ l, notifications w' = (notifications w ++ l)%list ∧ Forall selection_event l.

(** The id of the container syncRenderEdge draws an edge into. *)
Definition edge_container (e : IEdge) : string :=
  "edge-"
  ++ (if truthy (e_target e)
      then template (e_source e) ++ "-" ++ template (e_target e)
      else "custom")
  ++ "-container".

(** The timeout id a pending render is filed under. *)
Definition timeoutId (h : gmap loc INode) (t : Task) : option string :=
  match t with
  | RenderNodeTask node _ => (λ n, "nodes-" ++ n_key n) <$> h !! node
  | RenderEdgeTask edge =>
    Some ("edges-" ++ template (e_source edge) ++ "-" ++ template (e_target edge))
  end.

(** The handle recorded for a pending render in [nodeTimeouts] or
    [edgeTimeouts]. *)
Definition recorded (w : World) (t : Task) : option nat :=
  match t with
  | RenderNodeTask _ _ => timeoutId (heap w) t ≫= λ id, nodeTimeouts w !! id
  | RenderEdgeTask _ => timeoutId (heap w) t ≫= λ id, edgeTimeouts w !! id
  end.

(** Every pending render is the one recorded for its timeout id, and no
    handle in use is one [setTimeout] has yet to return. *)
Definition timers_recorded (w : World) : Prop :=
  (∀ h t, timers w !! h = Some t → recorded w t = Some h) ∧
  (∀ id h, nodeTimeouts w !! id = Some h → h < nextTimer w) ∧
  (∀ id h, edgeTimeouts w !! id = Some h → h < nextTimer w) ∧
  (∀ h t, timers w !! h = Some t → h < nextTimer w).

(** The target an edge has after a retargeting gesture, from the key of
    its source node and the key of the node the gesture ended on. *)
Definition retargeted (draggedEdge : IEdge) (sourceKey : string)
    (endKey : option string) : option string :=
  match endKey with
  | Some key =>
    if bool_decide (e_source draggedEdge ≠ Some sourceKey)
       || bool_decide (e_target draggedEdge ≠ Some key)
    then Some key
    else e_target draggedEdge
  | None => e_target draggedEdge
  end.

(** The edges of a collection between two node keys, in either direction. *)
Definition between (a b : string) (e : IEdge) : bool :=
  (bool_decide (e_source e = Some a) && bool_decide (e_target e = Some b))
  || (bool_decide (e_source e = Some b) && bool_decide (e_target e = Some a)).

(** ** A sample graph *)

Definition node_a : INode :=
  {| n_key := "a"; n_title := "A"; n_type := "empty"; n_x := 0; n_y := 0 |}.
Definition node_b : INode :=
  {| n_key := "b"; n_title := "B"; n_type := "empty"; n_x := 100; n_y := 0 |}.
Definition node_c : INode :=
  {| n_key := "c"; n_title := "C"; n_type := "empty"; n_x := 0; n_y := 100 |}.

(** The node objects a, b and c, at references 0, 1 and 2. *)
Definition sample_heap : gmap loc INode := {[ 0 := node_a; 1 := node_b; 2 := node_c ]}.

Definition edge_ab : IEdge :=
  {| e_ref := Supplied 0; e_source := Some "a"; e_target := Some "b";
     e_targetPosition := None |}.
Definition edge_ac : IEdge :=
  {| e_ref := Supplied 1; e_source := Some "a"; e_target := Some "c";
     e_targetPosition := None |}.

Definition sample_data : DataProps :=
  {| props_nodes := [0; 1; 2]; props_edges := [edge_ab; edge_ac];
     props_selected := None |}.

(** The component after it received the sample graph. *)
Definition sample_world : World :=
  snd (getDerivedStateFromProps sample_data (initial_world sample_heap)).

(** The default props, and the default props in read-only mode. *)
Definition default_props : Props :=
  {| readOnly := false; canCreateEdge := Some (λ _, true);
     canDeleteEdge := Some (λ _, true); canDeleteNode := Some (λ _, true) |}.
Definition readOnly_props : Props :=
  {| readOnly := true; canCreateEdge := Some (λ _, true);
     canDeleteEdge := Some (λ _, true); canDeleteNode := Some (λ _, true) |}.

(** The sample graph with node a selected. *)
Definition selected_world : World :=
  snd (handleNodeSelected 0 0 false sample_world).

(** The sample graph after an edge was drawn from node b to over node c:
    the pointer entered b, was dragged with the modifier key held, and
    entered c with the button down. *)
Definition drawing_world : World :=
  snd ((handleNodeMouseEnter 1 true ;;;
        handleNodeMove default_props {| p_x := 10; p_y := 90 |} 1 true ;;;
        handleNodeMouseEnter 2 false) sample_world).

(** The same gesture from node b to over node a, against the edge from
    a to b. *)
Definition reverse_drawing_world : World :=
  snd ((handleNodeMouseEnter 1 true ;;;
        handleNodeMove default_props {| p_x := 10; p_y := 90 |} 1 true ;;;
        handleNodeMouseEnter 0 false) sample_world).

(** The sample graph with every node and edge drawn. *)
Definition rendered_world : World :=
  snd (forEach [(0, 0%Z); (1, 1%Z); (2, 2%Z)] (λ r, syncRenderNode r.1 r.2)
         sample_world).

(** The sample graph while the arrow of an edge is dragged, over the node
    [over] (the state handleZoomStart and handleNodeMouseEnter leave). *)
Definition retargeting_world (edge : IEdge) (over : option loc) : World :=
  with_state (λ s, set_draggingEdge true
                     (set_draggedEdge (Some edge) (set_edgeEndNode over s)))
             sample_world.

(** The sample graph with the index entry of node a gone. *)
Definition stale_world : World :=
  with_state (λ s, set_nodesMap (delete "key-a" (nodesMap s)) s) sample_world.

(** ** The component: reconciliation after an update *)

(** addNewNodes: both branches of the test on the old index request the
    same render. *)
Definition addNewNodes (nodes : list loc) (oldNodesMap : gmap string INodeMapNode)
    : M unit :=
  let* w := get in
  if draggingEdge (state w) then ret tt
  else
    forEach (imap (λ i node, (node, i)) nodes) (λ '(node, i),
      let* n := load node in
      let prevNode := oldNodesMap !! ("key-" ++ n_key n) in
      if match prevNode with
         | Some prev => negb (bool_decide (node = nm_node prev))
         | None => false
         end
      then asyncRenderNode node i
      else asyncRenderNode node i).

Definition addNewEdges (edges : list IEdge) (oldEdgesMap : gmap string IEdgeMapEdge)
    : M unit :=
  let* w := get in
  if negb (draggingEdge (state w)) then
    forEach edges (λ edge,
      if negb (truthy (e_source edge)) || negb (truthy (e_target edge)) then ret tt
      else
        let prevEdge :=
          oldEdgesMap !! (template (e_source edge) ++ "_" ++ template (e_target edge)) in
        if negb (bool_decide (is_Some prevEdge)) then asyncRenderEdge edge
        else ret tt)
  else ret tt.

Definition removeOldEdges (prevEdges : list IEdge) (edgesMap : gmap string IEdgeMapEdge)
    : M unit :=
  forEach prevEdges (λ edge,
    if negb (truthy (e_source edge)) || negb (truthy (e_target edge)) then ret tt
    else if negb (bool_decide
                    (is_Some (edgesMap !! (template (e_source edge) ++ "_"
                                           ++ template (e_target edge)))))
    then removeEdgeElement (e_source edge) (e_target edge)
    else ret tt).

(** renderNodes and renderEdges: [entities] says whether [this.entities],
    the group the containers are appended to, is there. *)
Definition renderNodes (entities : bool) : M unit :=
  if negb entities then ret tt
  else
    let* w := get in
    forEach (imap (λ i node, (node, i)) (nodes (state w)))
      (λ '(node, i), asyncRenderNode node i).

Definition renderEdges (entities : bool) : M unit :=
  let* w := get in
  if negb entities || draggingEdge (state w) then ret tt
  else forEach (edges (state w)) asyncRenderEdge.

(** ** The component: pointer and keyboard events *)

(** What handleNodeMouseLeave reads from an event: its [buttons], and of
    the element the pointer went to ([toElement] of d3.event,
    [relatedTarget] of the event passed in) whether it lies within a node
    (GraphUtils.findParent(element, '.node')) and whether it is the overlay
    path of an edge. *)
Record RelatedElement := {
  re_withinNode : bool;
  re_overlay : bool;
}.

Record MouseEvent := {
  me_related : option RelatedElement;
  me_buttons : Z;
}.

Definition handleNodeMouseLeave (d3_event event : option MouseEvent) : M unit :=
  let within (e : option MouseEvent) :=
    match e with
    | Some e =>
      match me_related e with
      | Some el => re_withinNode el
      | None => false
      end
    | None => false
    end in
  let pressed (e : option MouseEvent) :=
    match e with
    | Some e => (me_buttons e =? 1)%Z
    | None => false
    end in
  if within d3_event || within event || pressed d3_event || pressed event then ret tt
  else
    match event with
    | Some e =>
      match me_related e with
      | Some el =>
        if re_overlay el then ret tt
        else setState (λ s, set_hoveredNode false (set_edgeEndNode None s))
      | None => ret tt
      end
    | None => ret tt
    end.

(** What handleWrapperKeydown reads from the keyboard event. *)
Record KeyboardEvent := {
  ke_key : string;
  ke_metaKey : bool;
  ke_ctrlKey : bool;
}.

(** The props handleWrapperKeydown reads besides [Props]: the selected
    entity, and whether each shortcut callback is there. *)
Record ShortcutProps := {
  sp_selected : option Entity;
  sp_onUndo : bool;
  sp_onCopySelected : bool;
  sp_onPasteSelected : bool;
}.

(** The shortcut callbacks; none of them has an argument. *)
Inductive Shortcut :=
| onUndo
| onCopySelected
| onPasteSelected.

(** What handleZoomStart and arrowClicked read from
    [d3.event.sourceEvent]: of its target whether it is the overlay path of
    an edge, its id and its tag name, and the position of the pointer
    relative to it ([d3.mouse(target)]). *)
Record SourceEvent := {
  src_overlay : bool;
  src_id : string;
  src_tagName : string;
  src_mouse : float * float;
}.

(** [n || 0] on an optional number prop. *)
Definition or_zero (n : option float) : float :=
  @Viewport.or_default float Viewport.float_JsNumber n 0%float.

(** The outcome of a call of a function of another file. *)
Definition call {A} (r : Result A) : M A :=
  λ w, (r, w).

Section Events.

Variable props : Props.
Variable shortcuts : ShortcutProps.
Variables nodeSize edgeArrowSize : option float.

(** The functions of edge.js the handlers call.  [getDistance] is given
    the position of the pointer and the position of the target node, or
    nothing where [this.state.nodes] has no such node. *)
Variable getDistance : IPoint → option IPoint → Result float.
Variable calculateOffset : option float → INode → IPoint → Result (float * float).

(** handleWrapperKeydown: the result is the shortcut callback called, if
    any. *)
Definition handleWrapperKeydown (d : KeyboardEvent) : M (option Shortcut) :=
  let* w := get in
  if bool_decide (ke_key d = "Delete") || bool_decide (ke_key d = "Backspace") then
    match selectedNodeObj (state w) with
    | Some sel =>
      handleDelete props
        (match sn_node sel with
         | Some node => Some (ENode node)
         | None => sp_selected shortcuts
         end) ;;;
      ret None
    | None => ret None
    end
  else if bool_decide (ke_key d = "z") then
    if (ke_metaKey d || ke_ctrlKey d) && sp_onUndo shortcuts then ret (Some onUndo)
    else ret None
  else if bool_decide (ke_key d = "c") then
    if ke_metaKey d || ke_ctrlKey d then
      let* sel := deref (selectedNodeObj (state w)) in
      if bool_decide (is_Some (sn_node sel)) && sp_onCopySelected shortcuts
      then ret (Some onCopySelected)
      else ret None
    else ret None
  else if bool_decide (ke_key d = "v") then
    if ke_metaKey d || ke_ctrlKey d then
      let* sel := deref (selectedNodeObj (state w)) in
      if bool_decide (is_Some (sn_node sel)) && sp_onPasteSelected shortcuts
      then ret (Some onPasteSelected)
      else ret None
    else ret None
  else ret None.

Definition arrowClicked (edge : option IEdge) (sourceEvent : SourceEvent) : M bool :=
  match edge with
  | None => ret false
  | Some edge =>
    if negb (bool_decide (src_tagName sourceEvent = "path")) then ret false
    else
      let xycoords := src_mouse sourceEvent in
      if negb (truthy (e_target edge)) then ret false
      else
        let* w := get in
        let targetNodeMapNode := getNodeById (e_target edge) (state w) in
        let source := {| p_x := fst xycoords; p_y := snd xycoords |} in
        let* target :=
          match targetNodeMapNode with
          | Some m =>
            match nodes (state w) !! nm_originalArrIndex m with
            | Some node => let* n := load node in ret (Some {| p_x := n_x n; p_y := n_y n |})
            | None => ret None
            end
          | None => ret (Some source)
          end in
        let* dist := call (getDistance source target) in
        ret (ltb dist (or_zero nodeSize / 2 + or_zero edgeArrowSize + 10)%float)
  end.

(** dragEdge: [mouse] is the position of the pointer in the view
    ([d3.mouse(this.selectedView.node())]). *)
Definition dragEdge (dragged : option IEdge) (mouse : float * float) : M unit :=
  let* w := get in
  let draggedEdge :=
    match dragged with
    | Some edge => Some edge
    | None => draggedEdge (state w)
    end in
  match draggedEdge with
  | None => ret tt
  | Some draggedEdge =>
    let targetPosition := {| p_x := fst mouse; p_y := snd mouse |} in
    let* entry := deref (getNodeById (e_source draggedEdge) (state w)) in
    let* sourceNode := load (nm_node entry) in
    let* off := call (calculateOffset nodeSize sourceNode targetPosition) in
    let targetPosition :=
      {| p_x := (p_x targetPosition + fst off)%float;
         p_y := (p_y targetPosition + snd off)%float |} in
    let* edge := newEdge (e_source draggedEdge) None (Some targetPosition) in
    syncRenderEdge edge ;;;
    setState (set_draggedEdge (Some draggedEdge))
  end.

Definition handleZoomStart (sourceEvent : option SourceEvent) (mouse : float * float)
    : M unit :=
  match sourceEvent with
  | None => ret tt
  | Some sourceEvent =>
    if readOnly props || negb (src_overlay sourceEvent) then ret tt
    else
      let edgeId := src_id sourceEvent in
      let* w := get in
      let edge := em_edge <$> edgesMap (state w) !! edgeId in
      let* clicked := arrowClicked edge sourceEvent in
      match edge with
      | Some edge =>
        if negb clicked then ret tt
        else
          removeEdgeElement (e_source edge) (e_target edge) ;;;
          setState (λ s, set_draggingEdge true (set_draggedEdge (Some edge) s)) ;;;
          dragEdge (Some edge) mouse
      | None => ret tt
      end
  end.

(** handleZoom: the result says whether the view takes the transform of
    the event (which then becomes [this.state.viewTransform]). *)
Definition handleZoom (mouse : float * float) : M bool :=
  let* w := get in
  if negb (hoveredNode (state w)) && negb (draggingEdge (state w)) then ret true
  else if draggingEdge (state w) then dragEdge None mouse ;;; ret false
  else ret false.

End Events.

(** ** Notions used in the statements about reconciliation and gestures *)

(** An edge with a source and a target: the edges the reconciliation code
    looks at. *)
Definition complete (edge : IEdge) : bool :=
  truthy (e_source edge) && truthy (e_target edge).

(** The key of an edge in the edge index. *)
Definition edge_key (edge : IEdge) : string :=
  template (e_source edge) ++ "_" ++ template (e_target edge).

(** The timeout id asyncRenderEdge files the render of an edge under. *)
Definition edge_timeoutId (edge : IEdge) : string :=
  "edges-" ++ template (e_source edge) ++ "-" ++ template (e_target edge).

(** A complete edge that an edge index does not hold. *)
Definition unindexed (index : gmap string IEdgeMapEdge) (edge : IEdge) : bool :=
  complete edge && negb (bool_decide (is_Some (index !! edge_key edge))).

(** The id of the container removeEdgeElement removes for an edge. *)
Definition edge_element_id (edge : IEdge) : string :=
  "edge-" ++ (template (e_source edge) ++ "-" ++ template (e_target edge)) ++ "-container".

Definition hyphen : Ascii.ascii :=
  match "-" with
  | String c _ => c
  | EmptyString => Ascii.zero
  end.

(** A string without the separator of the element ids. *)
Fixpoint hyphen_free (s : string) : bool :=
  match s with
  | EmptyString => true
  | String a s => negb (Ascii.eqb a hyphen) && hyphen_free s
  end.

(** The ids of the elements removeOldNodes removes for a node that left the
    graph: the containers of its edges and its own. *)
Definition departed_ids (n : INode) (entry : INodeMapNode) : list string :=
  (edge_element_id <$> nm_outgoingEdges entry)
  ++ (edge_element_id <$> nm_incomingEdges entry)
  ++ ["node-" ++ n_key n ++ "-container"].

(** The render of [node] at index [i] is pending under the timeout id of
    [key], and under no other id. *)
Definition node_render_pending (w : World) (key : string) (node : loc) (i : nat) : Prop :=
  ∃ h, nodeTimeouts w !! ("nodes-" ++ key) = Some h ∧
       timers w !! h = Some (RenderNodeTask node i) ∧
       ∀ id, nodeTimeouts w !! id = Some h → id = "nodes-" ++ key.

(** The render of [edge] is pending under its timeout id, and under no
    other id. *)
Definition edge_render_pending (w : World) (edge : IEdge) : Prop :=
  ∃ h, edgeTimeouts w !! edge_timeoutId edge = Some h ∧
       timers w !! h = Some (RenderEdgeTask edge) ∧
       ∀ id, edgeTimeouts w !! id = Some h → id = edge_timeoutId edge.

(** Two worlds that differ in their timers at most. *)
Definition same_but_timers (w w' : World) : Prop :=
  state w' = state w ∧ heap w' = heap w ∧ dom w' = dom w ∧
  notifications w' = notifications w.

(** The world while the arrow of [edge] is dragged, [w] being the world
    when the drag started: the edge is the dragged edge, and its element
    is gone. *)
Definition arrow_dragged (w : World) (edge : IEdge) (w' : World) : Prop :=
  state w' = set_draggingEdge true (set_draggedEdge (Some edge) (state w)) ∧
  heap w' = heap w ∧
  notifications w' = notifications w ∧
  dom w' !! edge_container edge = None.

(** Every handle is recorded under one timeout id: [setTimeout] never
    returns the same handle twice. *)
Definition handles_apart (w : World) : Prop :=
  (∀ id id' h, nodeTimeouts w !! id = Some h → nodeTimeouts w !! id' = Some h → id = id') ∧
  (∀ id id' h, edgeTimeouts w !! id = Some h → edgeTimeouts w !! id' = Some h → id = id') ∧
  (∀ id id' h, nodeTimeouts w !! id = Some h → edgeTimeouts w !! id' ≠ Some h).

(** The node objects have keys of their own. *)
Definition keys_distinct (h : gmap loc INode) : Prop :=
  ∀ l l' n n', h !! l = Some n → h !! l' = Some n' → n_key n = n_key n' → l = l'.

(** The node of the selection record, if any, is a node object; and a node
    that is drawn as selected in a node container is that node, in its own
    container. *)
Definition selected_node_drawn (w : World) : Prop :=
  (∀ sel p, selectedNodeObj (state w) = Some sel → sn_node sel = Some p →
            is_Some (heap w !! p)) ∧
  ∀ key id node i,
    dom w !! ("node-" ++ key ++ "-container") = Some (Some (NodeElement id node i true)) →
    ∃ sel n, selectedNodeObj (state w) = Some sel ∧ sn_node sel = Some node ∧
             heap w !! node = Some n ∧ n_key n = key.


(** The sample graph after an edge was drawn out of node b and the pointer
    entered no other node. *)
Definition drawing_from_b : World :=
  snd ((handleNodeMouseEnter 1 true ;;;
        handleNodeMove default_props {| p_x := 10; p_y := 90 |} 1 true) sample_world).

End GraphView.

(** * The Node component (src/components/node.js) *)

Module Node.
Import GraphView.
Local Open Scope string_scope.

(** type INodeState *)
Record INodeState := {
  ns_hovered : bool;
  ns_x : float;
  ns_y : float;
  ns_selected : bool;
  ns_mouseDown : bool;
}.

(** A mounted component: the props its handlers and
    getDerivedStateFromProps read, whether [nodeRef.current] is set,
    [this.oldSibling] (the id of a container) and [this.state]. *)
Record Component := {
  c_data : loc;
  c_index : nat;
  c_id : string;
  c_isSelected : bool;
  c_current : bool;
  c_oldSibling : option string;
  c_state : INodeState;
}.

(** What the drag handlers read from [d3.event]: [sourceEvent.buttons],
    [sourceEvent.shiftKey], [x] and [y]. *)
Record DragEvent := {
  de_buttons : Z;
  de_shiftKey : bool;
  de_x : float;
  de_y : float;
}.

(** The updates the handlers pass to setState, as merges into the state. *)
Definition merge_position (p : IPoint) (s : INodeState) : INodeState :=
  {| ns_hovered := ns_hovered s; ns_x := p_x p; ns_y := p_y p;
     ns_selected := ns_selected s; ns_mouseDown := ns_mouseDown s |}.

Definition merge_hovered (b : bool) (s : INodeState) : INodeState :=
  {| ns_hovered := b; ns_x := ns_x s; ns_y := ns_y s;
     ns_selected := ns_selected s; ns_mouseDown := ns_mouseDown s |}.

Definition merge_mouseDown (b : bool) (s : INodeState) : INodeState :=
  {| ns_hovered := ns_hovered s; ns_x := ns_x s; ns_y := ns_y s;
     ns_selected := ns_selected s; ns_mouseDown := b |}.

Definition set_state (s : INodeState) (c : Component) : Component :=
  {| c_data := c_data c; c_index := c_index c; c_id := c_id c;
     c_isSelected := c_isSelected c; c_current := c_current c;
     c_oldSibling := c_oldSibling c; c_state := s |}.

Definition set_oldSibling (s : option string) (c : Component) : Component :=
  {| c_data := c_data c; c_index := c_index c; c_id := c_id c;
     c_isSelected := c_isSelected c; c_current := c_current c;
     c_oldSibling := s; c_state := c_state c |}.

(** The position getDerivedStateFromProps and the constructor read from
    the node object: [data.x || 0] and [data.y || 0]. *)
Definition derived_position (data : INode) : IPoint :=
  {| p_x := or_zero (Some (n_x data)); p_y := or_zero (Some (n_y data)) |}.

(** The state the constructor installs; [data] is the node object as it
    is then. *)
Definition initial_state (data : INode) : INodeState :=
  {| ns_hovered := false; ns_mouseDown := false; ns_selected := false;
     ns_x := p_x (derived_position data); ns_y := p_y (derived_position data) |}.

(** getDerivedStateFromProps, merged into the previous state as React
    does with what it returns. *)
Definition getDerivedStateFromProps (isSelected : bool) (data : INode)
    (prevState : INodeState) : INodeState :=
  {| ns_hovered := ns_hovered prevState; ns_mouseDown := ns_mouseDown prevState;
     ns_selected := isSelected;
     ns_x := p_x (derived_position data); ns_y := p_y (derived_position data) |}.

(** The children of an element, in document order, by id.
    [nextSibling]; [parent.appendChild(x)], which moves a child to the
    end; [parent.insertBefore(x, ref)] for a child [ref]. *)
Fixpoint nextSibling (x : string) (children : list string) : option string :=
  match children with
  | [] => None
  | c :: children => if decide (c = x) then head children else nextSibling x children
  end.

Definition appendChild (x : string) (children : list string) : list string :=
  (filter (λ c, c ≠ x) children ++ [x])%list.

Fixpoint insert_before (x ref : string) (children : list string) : list string :=
  match children with
  | [] => [x]
  | c :: rest =>
    if decide (c = ref) then x :: c :: rest else c :: insert_before x ref rest
  end.

Definition insertBefore (x ref : string) (children : list string) : list string :=
  if decide (x = ref) then children
  else insert_before x ref (filter (λ c, c ≠ x) children).

Section Handlers.

(** What lies outside the component: the page and the parent component.
    [entities] are the children of the element that holds the container
    of this node ([nodeRef.current.parentElement.parentElement]). *)
Context {E : Type}.
Variable entities : E → list string.
Variable set_entities : list string → E → E.

(** What React makes of the state when it processes an update: the merged
    state as it is (React 16.3), or getDerivedStateFromProps applied to it
    with the props of the last render (React 16.4 and later). *)
Variable rederive : Component → E → INodeState → INodeState.

(** The props that are functions or options, and the function of edge.js
    that handleMouseMove calls on the node object. *)
Variable nodeSize : option float.
Variable layoutEngine : option (IPoint → IPoint).
Variable calculateOffset : option float → loc → IPoint → E → Result (float * float).
Variable onNodeMouseEnter : option MouseEvent → loc → bool → E → Result unit * E.
Variable onNodeMouseLeave : option MouseEvent → loc → E → Result unit * E.
Variables onNodeMove onNodeUpdate : IPoint → nat → bool → E → Result unit * E.
Variable onNodeSelected : loc → nat → bool → E → Result unit * E.

(** [this.setState(partial)], processed at the call, as it is for the
    listeners d3 installs.  (For a handler React dispatches, the update is
    processed when the handler returns; no handler reads [this.state]
    after its setState but handleDragEnd, a d3 listener.) *)
Definition setState (partial : INodeState → INodeState) (c : Component) (e : E)
    : Component :=
  set_state (rederive c e (partial (c_state c))) c.

(** The container the node is rendered into
    ([nodeRef.current.parentElement]). *)
Definition container (c : Component) : string := c_id c ++ "-container".

Definition handleMouseMove (ev : DragEvent) (c : Component) (e : E)
    : Result unit * (Component * E) :=
  let mouseButtonDown := (de_buttons ev =? 1)%Z in
  let shiftKey := de_shiftKey ev in
  if negb mouseButtonDown then (Ok tt, (c, e))
  else
    let newState := {| p_x := de_x ev; p_y := de_y ev |} in
    if shiftKey then
      match calculateOffset nodeSize (c_data c) newState e with
      | Ok off =>
        let newState := {| p_x := (p_x newState + fst off)%float;
                           p_y := (p_y newState + snd off)%float |} in
        let '(r, e) := onNodeMove newState (c_index c) shiftKey e in
        (r, (c, e))
      | Throw ex => (Throw ex, (c, e))
      end
    else
      let newState :=
        match layoutEngine with
        | Some getPositionForNode => getPositionForNode newState
        | None => newState
        end in
      let c := setState (merge_position newState) c e in
      let '(r, e) := onNodeMove newState (c_index c) shiftKey e in
      (r, (c, e)).

Definition handleDragStart (c : Component) (e : E) : Component * E :=
  if negb (c_current c) then (c, e)
  else
    let c :=
      match c_oldSibling c with
      | Some _ => c
      | None => set_oldSibling (nextSibling (container c) (entities e)) c
      end in
    (c, set_entities (appendChild (container c) (entities e)) e).

Definition handleDragEnd (ev : DragEvent) (c : Component) (e : E)
    : Result unit * (Component * E) :=
  if negb (c_current c) then (Ok tt, (c, e))
  else
    let e :=
      match c_oldSibling c with
      | Some oldSibling =>
        if bool_decide (oldSibling ∈ entities e)
        then set_entities (insertBefore (container c) oldSibling (entities e)) e
        else e
      | None => e
      end in
    let c := setState (merge_mouseDown false) c e in
    let x := ns_x (c_state c) in
    let y := ns_y (c_state c) in
    let shiftKey := de_shiftKey ev in
    match onNodeUpdate {| p_x := x; p_y := y |} (c_index c) shiftKey e with
    | (Ok _, e) =>
      let '(r, e) := onNodeSelected (c_data c) (c_index c) shiftKey e in
      (r, (c, e))
    | (Throw ex, e) => (Throw ex, (c, e))
    end.

(** handleMouseOver and handleMouseOut: [d3_event] is [d3.event], [event]
    the event the handler is given. *)
Definition handleMouseOver (d3_event event : option MouseEvent) (c : Component) (e : E)
    : Result unit * (Component * E) :=
  let released (m : option MouseEvent) :=
    match m with
    | Some m => negb (me_buttons m =? 1)%Z
    | None => false
    end in
  let hovered := released d3_event || released event in
  let c := if hovered then setState (merge_hovered true) c e else c in
  let '(r, e) := onNodeMouseEnter event (c_data c) hovered e in
  (r, (c, e)).

Definition handleMouseOut (event : option MouseEvent) (c : Component) (e : E)
    : Result unit * (Component * E) :=
  let c := setState (merge_hovered false) c e in
  let '(r, e) := onNodeMouseLeave event (c_data c) e in
  (r, (c, e)).

(** A run of drag events. *)
Fixpoint handleMouseMoves (evs : list DragEvent) (c : Component) (e : E)
    : Result unit * (Component * E) :=
  match evs with
  | [] => (Ok tt, (c, e))
  | ev :: evs =>
    match handleMouseMove ev c e with
    | (Ok _, (c, e)) => handleMouseMoves evs c e
    | (Throw ex, ce) => (Throw ex, ce)
    end
  end.

End Handlers.

(** The component as GraphView mounts it (getNodeComponent): the
    callbacks are the handlers of the GraphView, and [data] is a node
    object of its store.  The world of the GraphView does not record the
    order of the containers. *)
Section Mounted.

Variable props : Props.
Variable nodeSize : option float.
Variable layoutEngine : option (IPoint → IPoint).
Variable calculateOffset : option float → INode → IPoint → Result (float * float).

(** Whether React applies getDerivedStateFromProps when it processes a
    setState (16.4 and later) or not (16.3). *)
Variable derives : bool.

Definition processed (c : Component) (w : World) (s : INodeState) : INodeState :=
  if derives then
    match heap w !! c_data c with
    | Some data => getDerivedStateFromProps (c_isSelected c) data s
    | None => s
    end
  else s.

Definition offset_of (size : option float) (node : loc) (position : IPoint) (w : World)
    : Result (float * float) :=
  match heap w !! node with
  | Some n => calculateOffset size n position
  | None => Throw Dangling
  end.

Definition mounted_handleMouseMove : DragEvent → Component → World
    → Result unit * (Component * World) :=
  handleMouseMove processed nodeSize layoutEngine offset_of (handleNodeMove props).

Definition mounted_handleDragEnd : DragEvent → Component → World
    → Result unit * (Component * World) :=
  handleDragEnd (λ _, []) (λ _ w, w) processed (handleNodeUpdate props) handleNodeSelected.

Definition mounted_handleMouseOver : option MouseEvent → option MouseEvent → Component
    → World → Result unit * (Component * World) :=
  handleMouseOver processed (λ _ data hovered, handleNodeMouseEnter data hovered).

(** [d3_event] is [d3.event], which handleNodeMouseLeave reads. *)
Definition mounted_handleMouseOut (d3_event event : option MouseEvent) : Component → World
    → Result unit * (Component * World) :=
  handleMouseOut processed (λ event _, handleNodeMouseLeave d3_event event) event.

(** A drag of a node: a run of drag events, then the end of the drag. *)
Definition mounted_drag (evs : list DragEvent) (ev_end : DragEvent)
    (c : Component) (w : World) : Result unit * (Component * World) :=
  match handleMouseMoves processed nodeSize layoutEngine offset_of
          (handleNodeMove props) evs c w with
  | (Ok _, (c, w)) => mounted_handleDragEnd ev_end c w
  | (Throw ex, cw) => (Throw ex, cw)
  end.

(** Where a drag event puts the node. *)
Definition place (ev : DragEvent) : IPoint :=
  match layoutEngine with
  | Some getPositionForNode => getPositionForNode {| p_x := de_x ev; p_y := de_y ev |}
  | None => {| p_x := de_x ev; p_y := de_y ev |}
  end.

(** An edge drawn from the node of [source] to the node of [target]: the
    pointer comes over [source], is dragged from it, comes over [target]
    and leaves it, and the drag ends. *)
Definition mounted_draw_edge (over : option MouseEvent) (move : DragEvent)
    (over_target out_target : option MouseEvent) (ev_end : DragEvent)
    (source target : Component) (w : World)
    : Result unit * (Component * Component * World) :=
  match mounted_handleMouseOver None over source w with
  | (Throw ex, (source, w)) => (Throw ex, (source, target, w))
  | (Ok _, (source, w)) =>
    match mounted_handleMouseMove move source w with
    | (Throw ex, (source, w)) => (Throw ex, (source, target, w))
    | (Ok _, (source, w)) =>
      match mounted_handleMouseOver None over_target target w with
      | (Throw ex, (target, w)) => (Throw ex, (source, target, w))
      | (Ok _, (target, w)) =>
        match mounted_handleMouseOut None out_target target w with
        | (Throw ex, (target, w)) => (Throw ex, (source, target, w))
        | (Ok _, (target, w)) =>
          let '(r, (source, w)) := mounted_handleDragEnd ev_end source w in
          (r, (source, target, w))
        end
      end
    end
  end.

End Mounted.

End Node.

(** * Properties of the viewport arithmetic *)

Module ViewportFacts.
Import Viewport.

Lemma Rltb_true a b : Rltb a b = true ↔ (a < b)%R.
Proof. unfold Rltb. destruct (Rlt_dec a b); split; intros; try done. Qed.

Lemma Rltb_false a b : Rltb a b = false ↔ (b <= a)%R.
Proof. unfold Rltb. destruct (Rlt_dec a b); split; intros; try done; lra. Qed.

(** The two comparisons of handleZoomToFit clamp to the zoom range. *)
Lemma clamp_code lo hi v :
  (lo <= hi)%R →
  (if Rltb v lo then lo else if Rltb hi v then hi else v) = clamp lo hi v.
Proof.
  intros Hle. unfold clamp, Rmin, Rmax.
  destruct (Rltb v lo) eqn:E1.
  - apply Rltb_true in E1. destruct (Rle_dec lo v); [lra|]. destruct (Rle_dec hi lo); lra.
  - apply Rltb_false in E1. destruct (Rle_dec lo v); [|lra].
    destruct (Rltb hi v) eqn:E2.
    + apply Rltb_true in E2. destruct (Rle_dec hi v); lra.
    + apply Rltb_false in E2. destruct (Rle_dec hi v); lra.
Qed.

Lemma clamp_bounds lo hi v : (lo <= hi)%R → (lo <= clamp lo hi v <= hi)%R.
Proof.
  intros Hle. unfold clamp, Rmin, Rmax.
  destruct (Rle_dec lo v); destruct (Rle_dec hi _); lra.
Qed.

Lemma handleZoomToFit_exact (b : BBox R) (vw vh zoomDur : R) (mn mx : option R) :
  (or_default mn 0 <= or_default mx 2)%R →
  handleZoomToFit b vw vh mn mx zoomDur =
  {| to := fitToContent b vw vh (or_default mn 0%R) (or_default mx 2%R);
     dur := zoomDur |}.
Proof.
  intros Hle. unfold handleZoomToFit, fitToContent.
  cbn [num_lt num_0 num_2 R_JsNumber num_add num_div num_sub num_mul num_max num_0_9].
  unfold Rltb at 1 2.
  destruct (Rlt_dec 0 (bb_width b)); [|done].
  destruct (Rlt_dec 0 (bb_height b)); [|done].
  cbn [andb]. by rewrite clamp_code.
Qed.

(** The fitted transform draws the centre of a non-empty bounding box at
    the centre of the viewport. *)
Lemma fitToContent_centres (b : BBox R) (vw vh lo hi : R) :
  (0 < bb_width b)%R → (0 < bb_height b)%R →
  screen_point (fitToContent b vw vh lo hi)
    (bb_x b + bb_width b / 2, bb_y b + bb_height b / 2)%R = (vw / 2, vh / 2)%R.
Proof.
  intros Hw Hh. unfold fitToContent, screen_point.
  destruct (Rlt_dec 0 (bb_width b)); [|lra].
  destruct (Rlt_dec 0 (bb_height b)); [|lra].
  cbn. f_equal; ring.
Qed.

(** handleZoomToFit in exact arithmetic (the real numbers, with a division
    by zero giving zero): the transform is the one of fitToContent, and
    for a box that is not empty the scale lies in [minZoom, maxZoom] and
    the centre of the box is drawn at the centre of the viewport (minZoom
    and maxZoom being the props, or 0 and 2 where a prop is missing or
    zero).  On doubles, a viewport of 800 by 600, the zoom range
    [0.15, 1.5] and a box of 100 by 100 centred at the origin give the
    scale 1.5 and the translation (400, 300). *)
Lemma handleZoomToFit_fits_content (b : BBox R) (vw vh zoomDur : R) (mn mx : option R) :
  (or_default mn 0 <= or_default mx 2)%R →
  handleZoomToFit b vw vh mn mx zoomDur =
    {| to := fitToContent b vw vh (or_default mn 0%R) (or_default mx 2%R);
       dur := zoomDur |} ∧
  ((0 < bb_width b)%R → (0 < bb_height b)%R →
   (or_default mn 0 <= k (to (handleZoomToFit b vw vh mn mx zoomDur)) <= or_default mx 2)%R ∧
   screen_point (to (handleZoomToFit b vw vh mn mx zoomDur))
     (bb_x b + bb_width b / 2, bb_y b + bb_height b / 2)%R = (vw / 2, vh / 2)%R) ∧
  handleZoomToFit (N := float)
    {| bb_x := (-50)%float; bb_y := (-50)%float;
       bb_width := 100%float; bb_height := 100%float |}
    800%float 600%float (Some 0.15%float) (Some 1.5%float) 750%float =
    {| to := {| k := 1.5%float; x := 400%float; y := 300%float |}; dur := 750%float |}.
Proof.
  intros Hle. split; [by apply handleZoomToFit_exact|]. split; [|by vm_compute].
  intros Hw Hh. rewrite handleZoomToFit_exact by done. cbn [to]. split.
  - unfold fitToContent.
    destruct (Rlt_dec 0 (bb_width b)); [|lra].
    destruct (Rlt_dec 0 (bb_height b)); [|lra].
    cbn [k]. by apply clamp_bounds.
  - by apply fitToContent_centres.
Qed.

(** modifyZoom rejects a scale outside the extent: it returns false and
    does not call setZoom.  (Any number type.) *)
Lemma modifyZoom_rejects {N} `{JsNumber N} (cw ch : N) (extent : N * N)
    (t : IViewTransform N) (modK modX modY d : N) :
  let targetZoom := num_mul (k t) (num_add num_1 modK) in
  (num_lt targetZoom (fst extent) || num_lt (snd extent) targetZoom)%bool = true →
  modifyZoom cw ch extent (Some t) modK modX modY d = Ok (false, None).
Proof. intros targetZoom Hout. unfold modifyZoom. fold targetZoom. by rewrite Hout. Qed.

(** In exact arithmetic: the scale modifyZoom asks for is k * (1 + modK),
    it lies within the extent, and the translation is moved by (modX,
    modY) only, wherever the centre of the viewport is. *)
Lemma modifyZoom_accepts (cw ch e0 e1 : R) (t : IViewTransform R) (modK modX modY d : R) :
  (e0 <= k t * (1 + modK) <= e1)%R →
  (k t * (1 + modK) ≠ 0)%R →
  modifyZoom cw ch (e0, e1) (Some t) modK modX modY d =
    Ok (true, Some {| to := {| k := k t * (1 + modK);
                              x := x t + modX; y := y t + modY |}%R;
                      dur := d |}).
Proof.
  intros [Hlo Hhi] Hnz. unfold modifyZoom.
  cbn [num_lt num_0 num_1 num_2 R_JsNumber num_add num_div num_sub num_mul fst snd].
  destruct (Rltb (k t * (1 + modK)) e0) eqn:E1; [apply Rltb_true in E1; lra|].
  destruct (Rltb e1 (k t * (1 + modK))) eqn:E2; [apply Rltb_true in E2; lra|].
  cbn [orb]. clear E1 E2 Hlo Hhi. set (s := (k t * (1 + modK))%R) in *.
  do 4 f_equal. f_equal; field; exact Hnz.
Qed.

Lemma modifyZoom_within_extent (cw ch e0 e1 : R) (t : IViewTransform R)
    (modK modX modY d : R) (b : bool) (z : SetZoom R) :
  modifyZoom cw ch (e0, e1) (Some t) modK modX modY d = Ok (b, Some z) →
  b = true ∧ (e0 <= k (to z) <= e1)%R ∧ k (to z) = (k t * (1 + modK))%R.
Proof.
  unfold modifyZoom.
  cbn [num_lt num_0 num_1 num_2 R_JsNumber num_add num_div num_sub num_mul fst snd].
  destruct (Rltb (k t * (1 + modK)) e0) eqn:E1; [done|].
  destruct (Rltb e1 (k t * (1 + modK))) eqn:E2; [done|].
  apply Rltb_false in E1, E2. cbn [orb]. intros [= <- <-]. cbn. repeat split; lra.
Qed.

Section Doubles.
Local Open Scope float_scope.

(** C5. modifyZoom at the view transform (k 1, x 100, y 50) of a viewport
    of 800 by 600, asked to zoom by 0.25 within the extent [0.15, 1.5] of
    the default props:
    the call returns true and asks for the scale 1.25, within the extent,
    but with the translation as it was.  The graph point (300, 250) that
    was drawn at the centre of the viewport (400, 300) is then drawn at
    (475, 362.5): the change is not anchored at the centre of the
    viewport. *)
Theorem modifyZoom_not_anchored_at_center :
  let before := {| k := 1; x := 100; y := 50 |} in
  let after := {| k := 1.25; x := 100; y := 50 |} in
  modifyZoom (N := float) 800 600 (scaleExtent (Some 0.15) (Some 1.5))
    (Some before) 0.25 0 0 0 =
    Ok (true, Some {| to := after; dur := 0 |}) ∧
  graph_point before (400, 300) = (300, 250) ∧
  screen_point after (300, 250) = (475, 362.5).
Proof. by vm_compute. Qed.

(** C10, as stated, fails on doubles: with all deltas zero, at the view
    transform (k 0.7, x 0.1, y 0) of a viewport of 800 by 600, modifyZoom
    asks for a translation that is not the current one. *)
Lemma modifyZoom_zero_deltas_rounds :
  let current := {| k := 0.7; x := 0.1; y := 0 |} in
  (∃ z, modifyZoom (N := float) 800 600 (0.15, 1.5) (Some current) 0 0 0 0 =
          Ok (true, Some z) ∧
        k (to z) = k current ∧
        ltb (x (to z)) (x current) = true) ∧
  modifyZoom (N := float) 800 600 (0.15, 1.5) (Some current) 0 0 0 0 ≠
    Ok (true, Some {| to := current; dur := 0 |}).
Proof.
  split.
  - eexists. split; [by vm_compute|]. by vm_compute.
  - intros Heq.
    apply (f_equal (λ r, match r with
                         | Ok (_, Some z) => eqb (x (to z)) 0.1
                         | _ => true
                         end)) in Heq.
    vm_compute in Heq. discriminate.
Qed.

End Doubles.

(** C10, amended.  In exact arithmetic, for a view transform whose scale
    is not zero and lies within the extent, modifyZoom with all deltas
    zero returns true and asks for exactly the current scale and
    translation. *)
Theorem modifyZoom_zero_deltas_exact (cw ch e0 e1 d : R) (t : IViewTransform R) :
  (e0 <= k t <= e1)%R →
  k t ≠ 0%R →
  modifyZoom cw ch (e0, e1) (Some t) 0%R 0%R 0%R d =
    Ok (true, Some {| to := t; dur := d |}).
Proof.
  intros Hin Hnz. rewrite modifyZoom_accepts.
  - destruct t as [tk tx ty]. cbn. do 5 f_equal; ring.
  - lra.
  - replace (k t * (1 + 0))%R with (k t) by ring. done.
Qed.

(** Zero deltas at the view transform (k 1, x 100, y 50). *)
Lemma modifyZoom_zero_deltas_exact_witness :
  modifyZoom 800%R 600%R ((15 / 100)%R, (3 / 2)%R)
    (Some {| k := 1%R; x := 100%R; y := 50%R |}) 0%R 0%R 0%R 0%R =
    Ok (true, Some {| to := {| k := 1%R; x := 100%R; y := 50%R |}; dur := 0%R |}).
Proof.
  apply (modifyZoom_zero_deltas_exact 800 600 (15 / 100) (3 / 2) 0
           {| k := 1; x := 100; y := 50 |}%R); cbn; lra.
Defined.

End ViewportFacts.

(** * Properties of the component *)

Module GraphViewFacts.
Import GraphView.
Local Open Scope string_scope.

(** ** Rendering changes rendered elements only *)


Lemma dom_frame_refl w : dom_frame w w.
Proof. by destruct w. Qed.

Lemma dom_frame_trans w1 w2 w3 : dom_frame w1 w2 → dom_frame w2 w3 → dom_frame w1 w3.
Proof. unfold dom_frame. intros -> ->. by destruct w1. Qed.

Lemma dom_frame_with_dom f w : dom_frame w (with_dom f w).
Proof. by destruct w. Qed.


Lemma renderEdge_ok id element edge w :
  ∃ w', renderEdge id element edge w = (Ok tt, w') ∧ dom_frame w w' ∧
        ∀ k, k ≠ id ++ "-container" → dom w' !! k = dom w !! k.
Proof.
  unfold renderEdge, bind, get, when, modify, ret.
  destruct (bool_decide (is_Some (dom w !! (id ++ "-container")))); simpl.
  - eexists; split; [done|]. split; [apply dom_frame_with_dom|].
    intros k Hk. simpl. by rewrite lookup_insert_ne.
  - destruct (edge_differs edge (draggedEdge (state w))); simpl.
    + eexists; split; [done|]. split; [apply dom_frame_with_dom|].
      intros k Hk. simpl. by rewrite lookup_insert_ne.
    + eexists; split; [done|]. split; [apply dom_frame_refl|done].
Qed.

Lemma syncRenderEdge_ok edge w :
  ∃ w', syncRenderEdge edge w = (Ok tt, w') ∧ dom_frame w w' ∧
        ∀ k, ¬ edge_id k → dom w' !! k = dom w !! k.
Proof.
  unfold syncRenderEdge.
  destruct (negb (truthy (e_source edge))).
  { exists w. split; [done|]. split; [apply dom_frame_refl|done]. }
  unfold bind at 1, get.
  match goal with |- context [renderEdge ?i ?e ?d w] =>
    destruct (renderEdge_ok i e d w) as (w' & -> & Hf & Hk) end.
  exists w'. split; [done|]. split; [done|].
  intros k Hne. apply Hk. intros ->. apply Hne.
  eexists. simpl. reflexivity.
Qed.

Lemma forEach_syncRenderEdge_ok es w :
  ∃ w', forEach es syncRenderEdge w = (Ok tt, w') ∧ dom_frame w w' ∧
        ∀ k, ¬ edge_id k → dom w' !! k = dom w !! k.
Proof.
  revert w. induction es as [|e es IH]; intros w; simpl.
  { exists w. split; [done|]. split; [apply dom_frame_refl|done]. }
  unfold bind.
  destruct (syncRenderEdge_ok e w) as (w1 & -> & Hf1 & Hk1).
  destruct (IH w1) as (w2 & -> & Hf2 & Hk2).
  exists w2. split; [done|]. split; [by eapply dom_frame_trans|].
  intros k Hk. rewrite Hk2, Hk1; done.
Qed.

Lemma syncRenderConnectedEdgesFromNode_ok m w :
  ∃ w', syncRenderConnectedEdgesFromNode m w = (Ok tt, w') ∧ dom_frame w w' ∧
        ∀ k, ¬ edge_id k → dom w' !! k = dom w !! k.
Proof.
  unfold syncRenderConnectedEdgesFromNode, bind at 1, get.
  destruct (draggingEdge (state w)).
  { exists w. split; [done|]. split; [apply dom_frame_refl|done]. }
  unfold bind.
  destruct (forEach_syncRenderEdge_ok (nm_incomingEdges m) w) as (w1 & -> & Hf1 & Hk1).
  destruct (forEach_syncRenderEdge_ok (nm_outgoingEdges m) w1) as (w2 & -> & Hf2 & Hk2).
  exists w2. split; [done|]. split; [by eapply dom_frame_trans|].
  intros k Hk. rewrite Hk2, Hk1; done.
Qed.

Lemma node_id_not_edge_id s : ¬ edge_id ("node-" ++ s).
Proof. intros [t Ht]. simpl in Ht. discriminate. Qed.

(** A node is drawn: its container holds the element, with the selection
    flag read from the state. *)
Lemma syncRenderNode_ok l i n sel w :
  heap w !! l = Some n →
  selectedNodeObj (state w) = Some sel →
  ∃ w', syncRenderNode l i w = (Ok tt, w') ∧ dom_frame w w' ∧
        dom w' !! ("node-" ++ n_key n ++ "-container") =
          Some (Some (NodeElement ("node-" ++ n_key n) l i
                        (bool_decide (sn_node sel = Some l)))) ∧
        ∀ k, ¬ edge_id k → k ≠ "node-" ++ n_key n ++ "-container" →
             dom w' !! k = dom w !! k.
Proof.
  intros Hl Hsel.
  unfold syncRenderNode, bind at 1, load. rewrite Hl.
  unfold bind at 1, getNodeComponent, bind at 1, get, bind at 1, deref. rewrite Hsel.
  unfold ret, bind at 1, bind at 1, renderNode, modify.
  set (w1 := with_dom _ w).
  assert (Hw1 : dom_frame w w1) by apply dom_frame_with_dom.
  assert (Hd1 : ∀ k, k ≠ "node-" ++ n_key n ++ "-container" → dom w1 !! k = dom w !! k).
  { intros k Hk. subst w1. simpl. rewrite lookup_insert_ne; [done|]. simpl. done. }
  assert (Hd2 : dom w1 !! ("node-" ++ n_key n ++ "-container") =
     Some (Some (NodeElement ("node-" ++ n_key n) l i (bool_decide (sn_node sel = Some l))))).
  { subst w1. simpl. apply lookup_insert_eq. }
  destruct (getNodeById (Some (n_key n)) (state w)) as [m|].
  - destruct (syncRenderConnectedEdgesFromNode_ok m w1) as (w2 & -> & Hf2 & Hk2).
    exists w2. split; [done|]. split; [by eapply dom_frame_trans|]. split.
    + rewrite Hk2; [done|]. apply (node_id_not_edge_id (n_key n ++ "-container")).
    + intros k Hk Hne. rewrite Hk2 by done. by apply Hd1.
  - exists w1. split; [done|]. split; [done|]. split; [done|].
    intros k _ Hne. by apply Hd1.
Qed.

(** Whatever its outcome, drawing a node changes rendered elements only. *)
Lemma syncRenderNode_frame l i w r w' :
  syncRenderNode l i w = (r, w') → dom_frame w w'.
Proof.
  unfold syncRenderNode, bind at 1, load.
  destruct (heap w !! l) as [n|] eqn:Hl; [|intros [= <- <-]; apply dom_frame_refl].
  destruct (selectedNodeObj (state w)) as [sel|] eqn:Hsel.
  - destruct (syncRenderNode_ok l i n sel w Hl Hsel) as (w2 & Heq & Hf & _).
    unfold syncRenderNode, bind at 1, load in Heq. rewrite Hl in Heq. rewrite Heq.
    by intros [= <- <-].
  - unfold bind at 1, getNodeComponent, bind at 1, get, bind at 1, deref. rewrite Hsel.
    unfold throw. intros [= <- <-]. apply dom_frame_refl.
Qed.


Lemma graph_unchanged_refl w : graph_unchanged w w.
Proof. by repeat split. Qed.

Lemma dom_frame_graph_unchanged w w' : dom_frame w w' → graph_unchanged w w'.
Proof. intros ->. by repeat split. Qed.

Lemma dom_frame_notifications w w' : dom_frame w w' → notifications w' = notifications w.
Proof. by intros ->. Qed.

Lemma dom_frame_state w w' : dom_frame w w' → state w' = state w.
Proof. by intros ->. Qed.

Lemma only_selection_events_refl w : only_selection_events w w.
Proof. exists []. by rewrite app_nil_r. Qed.

Section ReadOnly.
Variable props : Props.
Hypothesis HreadOnly : readOnly props = true.

Lemma handleDelete_readOnly selected w : handleDelete props selected w = (Ok tt, w).
Proof. unfold handleDelete. destruct selected; [|done]. by rewrite HreadOnly. Qed.

Lemma handleNodeMove_readOnly position index shiftKey w :
  handleNodeMove props position index shiftKey w = (Ok tt, w).
Proof. unfold handleNodeMove, bind, get. by rewrite HreadOnly. Qed.

End ReadOnly.

(** Selecting an edge changes the edge selection and rendered elements,
    and tells the caller about the selection only. *)
Lemma handleEdgeSelected_frame source target w r w' :
  handleEdgeSelected source target w = (r, w') →
  graph_unchanged w w' ∧ only_selection_events w w'.
Proof.
  unfold handleEdgeSelected.
  destruct (truthy source && truthy target).
  2:{ intros [= <- <-]. split; [apply graph_unchanged_refl|apply only_selection_events_refl]. }
  unfold bind at 1, get, bind at 1, deref.
  destruct (getEdgeBySourceTarget _ _ _) as [entry|].
  2:{ intros [= <- <-]. split; [apply graph_unchanged_refl|apply only_selection_events_refl]. }
  unfold ret, bind at 1, setState, modify, bind at 1, bind at 1.
  set (w1 := with_state _ w).
  assert (H1 : graph_unchanged w w1) by (by repeat split).
  assert (N1 : notifications w1 = notifications w) by done.
  change (state w1) with (set_selectedEdgeObj
     (Some {| se_componentUpToDate := Some false;
              se_edge := edges (state w) !! em_originalArrIndex entry |}) (state w)).
  cbn [edges set_selectedEdgeObj].
  destruct (edges (state w) !! em_originalArrIndex entry) as [edge|]; cbn [deref].
  2:{ intros [= <- <-]. split; [done|]. exists []. by rewrite app_nil_r. }
  unfold bind at 1.
  destruct (syncRenderEdge_ok edge w1) as (w2 & -> & Hf2 & _).
  unfold bind at 1.
  assert (∃ w3, match match selectedEdgeObj (state w) with
       | Some sel => se_edge sel
       | None => None
       end with
     | Some previous => syncRenderEdge previous
     | None => λ w, (Ok (), w)
     end w2 = (Ok tt, w3) ∧ dom_frame w2 w3) as (w3 & -> & Hf3).
  { destruct (match selectedEdgeObj (state w) with Some sel => se_edge sel | None => None end).
    - destruct (syncRenderEdge_ok i w2) as (w3 & -> & Hf3 & _). by exists w3.
    - exists w2. split; [done|apply dom_frame_refl]. }
  unfold bind, get, notify, modify. intros [= <- <-].
  pose proof (dom_frame_trans _ _ _ Hf2 Hf3) as Hf.
  split.
  - apply dom_frame_graph_unchanged in Hf. destruct Hf as (?&?&?&?&?), H1 as (?&?&?&?&?).
    repeat split; simpl; congruence.
  - eexists. split.
    + simpl. rewrite (dom_frame_notifications _ _ Hf), N1. reflexivity.
    + by constructor.
Qed.

Lemma handleSvgClicked_readOnly props ev w r w' :
  readOnly props = true →
  handleSvgClicked props ev w = (r, w') →
  graph_unchanged w w' ∧ only_selection_events w w'.
Proof.
  intros Hro. unfold handleSvgClicked.
  destruct (ev_partOfEdge ev); [apply handleEdgeSelected_frame|].
  unfold bind at 1, get.
  destruct (selectingNode (state w)).
  { unfold setState, modify. intros [= <- <-].
    split; [by repeat split|]. exists []. simpl. by rewrite app_nil_r. }
  unfold bind at 1, setState, modify, bind at 1, notify, modify, bind at 1.
  rewrite Hro. cbn [negb andb when].
  set (w1 := with_notifications _ _).
  assert (H1 : graph_unchanged w w1) by (by repeat split).
  assert (N1 : notifications w1 = (notifications w ++ [onSelectNode None])%list) by done.
  unfold bind.
  destruct (match match selectedNodeObj (state w) with
        | Some sel => sn_node sel | None => None end with
      | Some previous => syncRenderNode previous _
      | None => ret ()
      end w1) as [r2 w2] eqn:E.
  assert (Hf : dom_frame w1 w2).
  { destruct (match selectedNodeObj (state w) with Some sel => sn_node sel | None => None end).
    - by eapply syncRenderNode_frame.
    - injection E as <- <-. apply dom_frame_refl. }
  intros Hres.
  assert (w' = w2) as -> by (destruct r2; by injection Hres).
  split.
  - apply dom_frame_graph_unchanged in Hf. destruct Hf as (?&?&?&?&?), H1 as (?&?&?&?&?).
    repeat split; congruence.
  - eexists. split.
    + rewrite (dom_frame_notifications _ _ Hf), N1. reflexivity.
    + by constructor.
Qed.

(** ** Read-only mode *)

(** C1, amended.  In read-only mode, handleDelete and handleNodeMove
    leave everything as it is and call nothing; handleSvgClicked leaves
    the node and edge collections, the indices and the node objects as
    they are and calls no callback other than the selection callbacks (so
    it asks for no node to be created); it still clears or changes the
    selection. *)
Theorem readOnly_blocks_edits (props : Props) (w : World) :
  readOnly props = true →
  (∀ selected, handleDelete props selected w = (Ok tt, w)) ∧
  (∀ position index shiftKey,
     handleNodeMove props position index shiftKey w = (Ok tt, w)) ∧
  (∀ ev r w', handleSvgClicked props ev w = (r, w') →
     graph_unchanged w w' ∧ only_selection_events w w').
Proof.
  intros Hro. split; [|split].
  - intros. by apply handleDelete_readOnly.
  - intros. by apply handleNodeMove_readOnly.
  - intros ev r w'. by apply handleSvgClicked_readOnly.
Qed.

(** Read-only mode at the sample graph with node a selected: deleting a,
    moving a, and a click on the canvas with the modifier key held. *)
Lemma readOnly_blocks_edits_witness :
  let click := {| ev_partOfEdge := false; ev_source := None; ev_target := None;
                  ev_shiftKey := true; ev_mouse := (10, 10)%float |} in
  handleDelete readOnly_props (Some (ENode 0)) selected_world = (Ok tt, selected_world) ∧
  handleNodeMove readOnly_props {| p_x := 30; p_y := 40 |} 0 false selected_world =
    (Ok tt, selected_world) ∧
  graph_unchanged selected_world (handleSvgClicked readOnly_props click selected_world).2 ∧
  only_selection_events selected_world
    (handleSvgClicked readOnly_props click selected_world).2.
Proof.
  destruct (readOnly_blocks_edits readOnly_props selected_world eq_refl) as (Hd & Hm & Hc).
  split; [apply Hd|]. split; [apply Hm|]. eapply Hc, surjective_pairing.
Defined.

(** handleNodeUpdate does not look at readOnly: whatever the props, the
    node at the index gets the position and the caller is told. *)
Lemma handleNodeUpdate_any_props (props : Props) (w : World) (position : IPoint)
    (index : nat) (node : loc) (n : INode) :
  nodes (state w) !! index = Some node →
  heap w !! node = Some n →
  ∃ w', handleNodeUpdate props position index false w = (Ok tt, w') ∧
        heap w' = <[node := assign_position position n]> (heap w) ∧
        notifications w' = (notifications w ++ [onUpdateNode node])%list.
Proof.
  intros Hnode Hn. unfold handleNodeUpdate, bind at 1, bind at 1, get.
  rewrite Hnode. unfold bind at 1, load. rewrite Hn.
  by eexists.
Qed.

(** C1, as stated, fails.  In read-only mode handleNodeUpdate still moves
    node a of the sample graph and calls onUpdateNode; and a click on the
    canvas still clears the selection. *)
Lemma readOnly_handleNodeUpdate_edits :
  readOnly readOnly_props = true ∧
  (let r := handleNodeUpdate readOnly_props {| p_x := 30; p_y := 40 |} 0 false
              sample_world in
   r.1 = Ok tt ∧
   notifications sample_world = [] ∧
   notifications r.2 = [onUpdateNode 0] ∧
   heap sample_world !! 0 = Some node_a ∧
   heap r.2 !! 0 = Some (assign_position {| p_x := 30; p_y := 40 |} node_a)) ∧
  (let click := {| ev_partOfEdge := false; ev_source := None; ev_target := None;
                   ev_shiftKey := true; ev_mouse := (10, 10)%float |} in
   let r := handleSvgClicked readOnly_props click selected_world in
   selectedNodeObj (state selected_world) = Some {| sn_index := 0; sn_node := Some 0 |} ∧
   selectedNodeObj (state r.2) = None).
Proof. by vm_compute. Qed.

(** ** Index entries that are missing *)

(** C9, amended.  When the node that is moved has no index entry,
    handleNodeMove records the new position on the node object, redraws no
    edge and does not fail. *)
Theorem handleNodeMove_missing_entry (props : Props) (w : World)
    (position : IPoint) (index : nat) (node : loc) (n : INode) :
  readOnly props = false →
  nodes (state w) !! index = Some node →
  heap w !! node = Some n →
  getNodeById (Some (n_key n)) (state w) = None →
  handleNodeMove props position index false w =
    (Ok tt, with_heap (<[node := assign_position position n]>) w).
Proof.
  intros Hro Hnode Hn Hentry.
  unfold handleNodeMove, bind at 1, get. rewrite Hro. cbn [negb].
  rewrite Hnode. unfold bind at 1, deref, ret, bind at 1, load. rewrite Hn.
  unfold bind at 1, modify, bind at 1, get.
  change (state (with_heap _ w)) with (state w). by rewrite Hentry.
Qed.

(** Moving node a of the sample graph when its index entry is gone. *)
Lemma handleNodeMove_missing_entry_witness :
  handleNodeMove default_props {| p_x := 30; p_y := 40 |} 0 false stale_world =
    (Ok tt, with_heap (<[0 := assign_position {| p_x := 30; p_y := 40 |} node_a]>)
              stale_world).
Proof.
  by apply (handleNodeMove_missing_entry default_props stale_world
              {| p_x := 30; p_y := 40 |} 0 0 node_a).
Defined.

(** The other lookups are not guarded: deleteNode, deleteEdge and
    handleZoomEnd read a property of the entry they looked up. *)
Lemma deleteNode_missing_entry (w : World) (node : loc) (n : INode) :
  heap w !! node = Some n →
  getNodeById (Some (n_key n)) (state w) = None →
  deleteNode (ENode node) w = (Throw TypeError, w).
Proof.
  intros Hn Hentry. unfold deleteNode, bind at 1, bind at 1, load. rewrite Hn.
  unfold ret, bind at 1, get, bind at 1, deref. by rewrite Hentry.
Qed.

Lemma deleteEdge_missing_entry (w : World) (edge : IEdge) :
  truthy (e_source edge) = true →
  truthy (e_target edge) = true →
  getEdgeBySourceTarget (template (e_source edge)) (template (e_target edge)) (state w)
    = None →
  deleteEdge edge w = (Throw TypeError, w).
Proof.
  intros Hs Ht Hentry. unfold deleteEdge. rewrite Hs, Ht. cbn [negb orb].
  unfold bind at 1, get, bind at 1, deref. by rewrite Hentry.
Qed.

Lemma handleZoomEnd_missing_entry (w : World) (dragged : IEdge) :
  draggingEdge (state w) = true →
  draggedEdge (state w) = Some dragged →
  getNodeById (e_source dragged) (state w) = None →
  (handleZoomEnd w).1 = Throw TypeError.
Proof.
  intros Hdragging Hdragged Hentry.
  unfold handleZoomEnd, bind at 1, get. rewrite Hdragging, Hdragged.
  unfold bind at 1, newEdge, bind at 1, removeElementFromDom, modify.
  unfold bind at 1, setState, modify, bind at 1, get, bind at 1, deref.
  set (w1 := with_state _ _).
  change (getNodeById (e_source dragged) (state w1))
    with (getNodeById (e_source dragged) (state w)).
  by rewrite Hentry.
Qed.

(** C9, as stated, fails.  With the index entry of node a gone,
    handleNodeMove still changes the position of a; deleteNode and
    handleZoomEnd read a property of the missing entry, and so does
    deleteEdge for an edge that has no entry. *)
Lemma missing_entry_not_skipped :
  getNodeById (Some "a") (state stale_world) = None ∧
  (let r := handleNodeMove default_props {| p_x := 30; p_y := 40 |} 0 false stale_world in
   r.1 = Ok tt ∧
   heap stale_world !! 0 = Some node_a ∧
   heap r.2 !! 0 = Some (assign_position {| p_x := 30; p_y := 40 |} node_a)) ∧
  (deleteNode (ENode 0) stale_world).1 = Throw TypeError ∧
  (handleZoomEnd
     (with_state (λ s, set_draggingEdge true (set_draggedEdge (Some edge_ab) s))
        stale_world)).1 = Throw TypeError ∧
  getEdgeBySourceTarget "b" "c" (state sample_world) = None ∧
  (deleteEdge {| e_ref := Supplied 2; e_source := Some "b"; e_target := Some "c";
                 e_targetPosition := None |} sample_world).1 = Throw TypeError.
Proof. by vm_compute. Qed.

(** ** Deleting a node *)

Lemma delete_NoDup_not_elem {A} (l : list A) (i : nat) (a : A) :
  NoDup l → l !! i = Some a → a ∉ delete i l.
Proof.
  intros Hnd. revert i. induction Hnd as [|b l Hb Hnd IH]; intros i Hi; [done|].
  destruct i as [|i]; cbn in *.
  - by injection Hi as ->.
  - apply not_elem_of_cons. split; [|by apply IH].
    intros ->. apply Hb. by eapply list_elem_of_lookup_2.
Qed.

(** C2, amended.  deleteNode of a node that has an index entry removes
    the element at the recorded position from the node collection (the
    node itself, when the index is up to date), removes the index entry
    and the rendered node, and tells the caller; the edge collection and
    the edge index are left as they were. *)
Theorem deleteNode_keeps_edges (w : World) (node : loc) (n : INode)
    (entry : INodeMapNode) :
  heap w !! node = Some n →
  getNodeById (Some (n_key n)) (state w) = Some entry →
  ∃ w', deleteNode (ENode node) w = (Ok tt, w') ∧
    nodes (state w') = delete (nm_originalArrIndex entry) (nodes (state w)) ∧
    nodesMap (state w') = delete ("key-" ++ n_key n) (nodesMap (state w)) ∧
    edges (state w') = edges (state w) ∧
    edgesMap (state w') = edgesMap (state w) ∧
    dom w' = delete ("node-" ++ n_key n ++ "-container") (dom w) ∧
    notifications w' =
      (notifications w ++
       [onDeleteNode (ENode node) (nm_originalArrIndex entry) (nodes (state w'));
        onSelectNode None])%list ∧
    (NoDup (nodes (state w)) →
     nodes (state w) !! nm_originalArrIndex entry = Some node →
     node ∉ nodes (state w')).
Proof.
  intros Hn Hentry. eexists. split.
  - unfold deleteNode, bind at 1, bind at 1, load. rewrite Hn.
    unfold ret, bind at 1, get, bind at 1, deref. rewrite Hentry.
    reflexivity.
  - cbn. split_and!; try done.
    + by rewrite <- (assoc_L (++)%list).
    + intros Hnd Hi. by apply delete_NoDup_not_elem.
Qed.

(** Deleting node a of the sample graph. *)
Lemma deleteNode_keeps_edges_witness :
  ∃ w', deleteNode (ENode 0) sample_world = (Ok tt, w') ∧
        nodes (state w') = [1; 2] ∧
        edges (state w') = [edge_ab; edge_ac].
Proof.
  destruct (deleteNode_keeps_edges sample_world 0 node_a
              {| nm_node := 0; nm_originalArrIndex := 0; nm_incomingEdges := [];
                 nm_outgoingEdges := [edge_ab; edge_ac] |} eq_refl eq_refl)
    as (w' & Hrun & Hnodes & _ & Hedges & _).
  exists w'. split; [exact Hrun|]. split; [by rewrite Hnodes|by rewrite Hedges].
Defined.

(** C2, as stated, fails.  After deleteNode of node a of the sample
    graph the edge collection and the edge index still hold the edges
    from a to b and from a to c. *)
Lemma deleteNode_leaves_incident_edges :
  let r := deleteNode (ENode 0) sample_world in
  r.1 = Ok tt ∧
  nodes (state r.2) = [1; 2] ∧
  edges (state r.2) = [edge_ab; edge_ac] ∧
  e_source edge_ab = Some (n_key node_a) ∧
  em_edge <$> edgesMap (state r.2) !! "a_b" = Some edge_ab.
Proof. by vm_compute. Qed.

(** When the caller then supplies the node collection without a, the
    reconciliation by removeOldNodes removes what was drawn for a and for
    its edges. *)
Lemma removeOldNodes_sample :
  let supplied :=
    snd (getDerivedStateFromProps
           {| props_nodes := [1; 2]; props_edges := [edge_ab; edge_ac];
              props_selected := None |} rendered_world) in
  let r := removeOldNodes (nodesMap (state rendered_world)) (nodesMap (state supplied))
             supplied in
  dom rendered_world =
    {[ "node-a-container" := Some (NodeElement "node-a" 0 0 false);
       "node-b-container" := Some (NodeElement "node-b" 1 1 false);
       "node-c-container" := Some (NodeElement "node-c" 2 2 false);
       "edge-a-b-container" :=
         Some (EdgeElement edge_ab (Some 0) (Some (inl 1)) false);
       "edge-a-c-container" :=
         Some (EdgeElement edge_ac (Some 0) (Some (inl 2)) false) ]} ∧
  r.1 = Ok tt ∧
  dom r.2 =
    {[ "node-b-container" := Some (NodeElement "node-b" 1 1 false);
       "node-c-container" := Some (NodeElement "node-c" 2 2 false) ]}.
Proof. by vm_compute. Qed.

(** ** Creating an edge *)

(** What createNewEdge does: nothing to the graph, and at most one call
    of onCreateEdge, under the conditions of its guard. *)
Lemma createNewEdge_outcome (props : Props) (w : World) (r : Result unit) (w' : World) :
  createNewEdge props w = (r, w') →
  graph_unchanged w w' ∧
  (notifications w' = notifications w ∨
   ∃ source target hovered ending,
     notifications w' = (notifications w ++ [onCreateEdge source target])%list ∧
     hoveredNodeData (state w) = Some source ∧
     edgeEndNode (state w) = Some target ∧
     source ≠ target ∧
     permitted (canCreateEdge props) tt = true ∧
     heap w !! source = Some hovered ∧
     heap w !! target = Some ending ∧
     edgesMap (state w) !! (n_key hovered ++ "_" ++ n_key ending) = None ∧
     edgesMap (state w) !! (n_key ending ++ "_" ++ n_key hovered) = None).
Proof.
  unfold createNewEdge, bind at 1, get, bind at 1, removeElementFromDom, modify.
  unfold ret, throw, deref. set (w1 := with_dom _ w).
  destruct (edgeEndNode (state w)) as [target|] eqn:Hend.
  2:{ intros [= <- <-]. split; [by repeat split|by left]. }
  unfold bind at 1.
  destruct (hoveredNodeData (state w)) as [source|] eqn:Hhov; unfold ret, throw.
  2:{ intros [= <- <-]. split; [by repeat split|by left]. }
  unfold bind at 1, load. change (heap w1) with (heap w).
  destruct (heap w !! source) as [hovered|] eqn:Hs.
  2:{ intros [= <- <-]. split; [by repeat split|by left]. }
  unfold bind at 1. change (heap w1) with (heap w).
  destruct (heap w !! target) as [ending|] eqn:Ht.
  2:{ intros [= <- <-]. split; [by repeat split|by left]. }
  destruct (negb (source =? target)%nat) eqn:Hne; cbn [andb].
  2:{ intros [= <- <-]. split; [by repeat split|by left]. }
  destruct (permitted (canCreateEdge props) tt) eqn:Hcan; cbn [andb].
  2:{ intros [= <- <-]. split; [by repeat split|by left]. }
  destruct (bool_decide (is_Some (edgesMap (state w) !! (n_key hovered ++ "_" ++ n_key ending))))
    eqn:H1; cbn [negb andb].
  { intros [= <- <-]. split; [by repeat split|by left]. }
  destruct (bool_decide (is_Some (edgesMap (state w) !! (n_key ending ++ "_" ++ n_key hovered))))
    eqn:H2; cbn [negb andb].
  { intros [= <- <-]. split; [by repeat split|by left]. }
  unfold bind at 1, newEdge, bind at 1, setState, modify, bind at 1.
  match goal with |- context [syncRenderEdge ?e ?w0] =>
    destruct (syncRenderEdge_ok e w0) as (w2 & -> & Hf & _) end.
  unfold notify, modify. intros [= <- <-].
  apply bool_decide_eq_false in H1, H2.
  rewrite <- eq_None_not_Some in H1. rewrite <- eq_None_not_Some in H2.
  apply negb_true_iff, Nat.eqb_neq in Hne.
  split.
  - pose proof (dom_frame_graph_unchanged _ _ Hf) as (E1 & E2 & E3 & E4 & E5).
    cbn in E1, E2, E3, E4, E5. by repeat split.
  - right. exists source, target, hovered, ending.
    split_and!; try done.
    cbn. by rewrite (dom_frame_notifications _ _ Hf).
Qed.

(** An attempt between two nodes the index connects, in either order,
    calls nothing. *)
Lemma createNewEdge_rejects_indexed (props : Props) (w : World) (r : Result unit)
    (w' : World) (source target : loc) (hovered ending : INode) :
  hoveredNodeData (state w) = Some source →
  edgeEndNode (state w) = Some target →
  heap w !! source = Some hovered →
  heap w !! target = Some ending →
  is_Some (edgesMap (state w) !! (n_key hovered ++ "_" ++ n_key ending)) ∨
  is_Some (edgesMap (state w) !! (n_key ending ++ "_" ++ n_key hovered)) →
  createNewEdge props w = (r, w') →
  notifications w' = notifications w.
Proof.
  intros Hh He Hs Ht Hidx Hrun.
  destruct (createNewEdge_outcome _ _ _ _ Hrun) as [_ [Hn|Hfired]]; [done|].
  destruct Hfired as (s & t & h & e & _ & Hh' & He' & _ & _ & Hs' & Ht' & H1 & H2).
  rewrite Hh in Hh'. rewrite He in He'. injection Hh' as <-. injection He' as <-.
  rewrite Hs in Hs'. rewrite Ht in Ht'. injection Hs' as <-. injection Ht' as <-.
  rewrite H1, H2 in Hidx. destruct Hidx as [[? ?]|[? ?]]; done.
Qed.

(** The index built from an edge collection has an entry under the keys
    of each of its edges. *)
Lemma getEdgesMap_has_edge (es : list IEdge) (e : IEdge) :
  e ∈ es →
  is_Some (getEdgesMap es !! (template (e_source e) ++ "_" ++ template (e_target e))).
Proof.
  intros He. unfold getEdgesMap.
  set (key := λ e : IEdge, template (e_source e) ++ "_" ++ template (e_target e)).
  set (f := λ (m : gmap string IEdgeMapEdge) '(i, e),
              <[key e := {| em_edge := e; em_originalArrIndex := i |}]> m).
  assert (Hgen : ∀ (l : list (nat * IEdge)) m,
            is_Some (m !! key e) ∨ (∃ i, (i, e) ∈ l) → is_Some (foldl f m l !! key e)).
  { induction l as [|[j e'] l IH]; intros m [Hm|[i Hi]]; cbn; try done.
    - by apply elem_of_nil in Hi.
    - apply IH. left. destruct (decide (key e' = key e)) as [->|Hne].
      + rewrite lookup_insert_eq. by eexists.
      + by rewrite lookup_insert_ne.
    - apply elem_of_cons in Hi as [[= <- <-]|Hi].
      + apply IH. left. rewrite lookup_insert_eq. by eexists.
      + apply IH. right. by exists i. }
  apply Hgen. right.
  apply list_elem_of_lookup in He as [i Hi]. exists i.
  apply list_elem_of_lookup. exists i. by rewrite list_lookup_imap, Hi.
Qed.

(** C3, amended.  createNewEdge calls onCreateEdge only when the gesture
    started on a node and ended on another node object, canCreateEdge()
    holds and the edge index has no entry for the two keys in either
    order.  It never changes the edge collection or the index itself: the
    caller adds the edge.  So an attempt between two nodes is rejected, in
    either order, while the index has an entry for their keys, as the
    index built from a collection that holds the edge has. *)
Theorem createNewEdge_guard (props : Props) (w : World) (r : Result unit) (w' : World) :
  createNewEdge props w = (r, w') →
  graph_unchanged w w' ∧
  (notifications w' = notifications w ∨
   ∃ source target hovered ending,
     notifications w' = (notifications w ++ [onCreateEdge source target])%list ∧
     hoveredNodeData (state w) = Some source ∧
     edgeEndNode (state w) = Some target ∧
     source ≠ target ∧
     permitted (canCreateEdge props) tt = true ∧
     heap w !! source = Some hovered ∧
     heap w !! target = Some ending ∧
     edgesMap (state w) !! (n_key hovered ++ "_" ++ n_key ending) = None ∧
     edgesMap (state w) !! (n_key ending ++ "_" ++ n_key hovered) = None) ∧
  (∀ source target hovered ending,
     hoveredNodeData (state w) = Some source →
     edgeEndNode (state w) = Some target →
     heap w !! source = Some hovered →
     heap w !! target = Some ending →
     (∃ e, e ∈ edges (state w) ∧ between (n_key hovered) (n_key ending) e = true) →
     edgesMap (state w) = getEdgesMap (edges (state w)) →
     notifications w' = notifications w).
Proof.
  intros Hrun.
  destruct (createNewEdge_outcome _ _ _ _ Hrun) as [Hgraph Hcalls].
  split; [exact Hgraph|]. split; [exact Hcalls|].
  intros source target hovered ending Hh He Hs Ht (e & Hin & Hbetween) Hindex.
  apply (createNewEdge_rejects_indexed props w r w' source target hovered ending);
    try done.
  rewrite Hindex. apply getEdgesMap_has_edge in Hin.
  unfold between in Hbetween.
  apply orb_true_iff in Hbetween as [Hb|Hb];
    apply andb_true_iff in Hb as [Hb1 Hb2];
    apply bool_decide_eq_true in Hb1, Hb2;
    rewrite Hb1, Hb2 in Hin; cbn [template] in Hin; [by left|by right].
Qed.

(** The guard at the sample gesture from b to c, and at the gesture from
    b to a, against the edge from a to b. *)
Lemma createNewEdge_guard_witness :
  graph_unchanged drawing_world (createNewEdge default_props drawing_world).2 ∧
  notifications (createNewEdge default_props reverse_drawing_world).2 =
    notifications reverse_drawing_world.
Proof.
  split.
  - exact (proj1 (createNewEdge_guard default_props drawing_world _ _
                    (surjective_pairing _))).
  - apply (proj2 (proj2 (createNewEdge_guard default_props reverse_drawing_world _ _
                           (surjective_pairing _)))
             1 0 node_b node_a); try reflexivity.
    exists edge_ab. split; [by left|reflexivity].
Defined.

(** The sample gesture, from b to c, with the caller's part: after the
    first attempt the caller adds the edge and supplies the new
    collection; a second attempt, in either order, calls nothing, and the
    collection holds one edge between b and c. *)
Lemma second_attempt_rejected :
  let edge_bc := {| e_ref := Supplied 2; e_source := Some "b"; e_target := Some "c";
                    e_targetPosition := None |} in
  let first := createNewEdge default_props drawing_world in
  let supplied :=
    getDerivedStateFromProps
      {| props_nodes := [0; 1; 2]; props_edges := [edge_ab; edge_ac; edge_bc];
         props_selected := None |} first.2 in
  let same_order := createNewEdge default_props supplied.2 in
  let other_order :=
    createNewEdge default_props
      (with_state (λ s, set_hoveredNodeData (Some 2) (set_edgeEndNode (Some 1) s))
         supplied.2) in
  notifications first.2 = [onCreateEdge 1 2] ∧
  notifications same_order.2 = [onCreateEdge 1 2] ∧
  notifications other_order.2 = [onCreateEdge 1 2] ∧
  filter (λ e, between "b" "c" e = true) (edges (state same_order.2)) = [edge_bc] ∧
  filter (λ e, between "b" "c" e = true) (edges (state other_order.2)) = [edge_bc].
Proof. by vm_compute. Qed.

(** In the sample graph, which has the edge from a to b, an attempt from
    b to a calls nothing and leaves the edge collection as it is. *)
Lemma createNewEdge_against_existing_edge :
  let r := createNewEdge default_props reverse_drawing_world in
  hoveredNodeData (state reverse_drawing_world) = Some 1 ∧
  edgeEndNode (state reverse_drawing_world) = Some 0 ∧
  r.1 = Ok tt ∧
  notifications r.2 = [] ∧
  edges (state r.2) = [edge_ab; edge_ac].
Proof. by vm_compute. Qed.

(** C3, as stated, fails.  The second of two successive attempts of the
    sample gesture, from b to c, calls onCreateEdge again, and the edge
    collection holds no edge between b and c after either. *)
Lemma createNewEdge_twice_notifies_twice :
  let r := (createNewEdge default_props ;;; createNewEdge default_props) drawing_world in
  r.1 = Ok tt ∧
  notifications drawing_world = [] ∧
  notifications r.2 = [onCreateEdge 1 2; onCreateEdge 1 2] ∧
  edges (state r.2) = [edge_ab; edge_ac] ∧
  filter (λ e, between "b" "c" e = true) (edges (state r.2)) = [].
Proof. by vm_compute. Qed.

(** ** Retargeting an edge *)

Lemma canSwap_retargeted (w : World) (sourceNode : loc) (source : INode)
    (ending : option (loc * INode)) (dragged : IEdge) :
  heap w !! sourceNode = Some source →
  (∀ l n, ending = Some (l, n) → heap w !! l = Some n) →
  ∃ b, canSwap sourceNode (fst <$> ending) dragged w = (Ok b, w) ∧
       (b = true → is_Some ending) ∧
       (if b then (n_key ∘ snd) <$> ending else e_target dragged) =
         retargeted dragged (n_key source) ((n_key ∘ snd) <$> ending).
Proof.
  intros Hs He. unfold canSwap, retargeted.
  destruct ending as [[l n]|]; cbn; [|by eexists].
  unfold bind at 1, load. rewrite Hs.
  destruct (decide (e_source dragged = Some (n_key source))) as [Heq|Hne].
  - rewrite (bool_decide_eq_true_2 _ Heq). cbn [negb].
    unfold bind, load. rewrite (He l n eq_refl). unfold ret. eexists. split; [done|].
    rewrite (bool_decide_eq_false_2 (e_source dragged ≠ _)) by (by intros ?).
    cbn [orb]. destruct (decide (e_target dragged = Some (n_key n))) as [Ht|Ht].
    + rewrite (bool_decide_eq_true_2 _ Ht).
      by rewrite (bool_decide_eq_false_2 (e_target dragged ≠ _)) by (by intros ?).
    + rewrite (bool_decide_eq_false_2 _ Ht).
      by rewrite (bool_decide_eq_true_2 (e_target dragged ≠ _)).
  - rewrite (bool_decide_eq_false_2 _ Hne). cbn [negb]. unfold ret. eexists. split; [done|].
    by rewrite (bool_decide_eq_true_2 (e_source dragged ≠ _)).
Qed.

(** What handleZoomEnd does with the test canSwap makes.  When a
    retargeting gesture ends, the target of the edge becomes the key of the
    node the gesture ended on whenever there is such a node and the edge
    would not stay the same edge (its source is not the key of its source
    node, or its target is not the key of that node); otherwise the edge
    keeps its target.  The caller is told with onSwapEdge in both cases. *)
Theorem handleZoomEnd_retargets (w : World) (dragged : IEdge)
    (sourceEntry targetEntry : INodeMapNode) (source : INode)
    (ending : option (loc * INode)) :
  draggingEdge (state w) = true →
  draggedEdge (state w) = Some dragged →
  edgeEndNode (state w) = fst <$> ending →
  (∀ l n, ending = Some (l, n) → heap w !! l = Some n) →
  getNodeById (e_source dragged) (state w) = Some sourceEntry →
  heap w !! nm_node sourceEntry = Some source →
  getNodeById (retargeted dragged (n_key source) ((n_key ∘ snd) <$> ending)) (state w)
    = Some targetEntry →
  ∃ w', handleZoomEnd w = (Ok tt, w') ∧
        notifications w' =
          (notifications w ++
           [onSwapEdge (nm_node sourceEntry) (nm_node targetEntry) dragged])%list ∧
        graph_unchanged w w'.
Proof.
  intros Hdragging Hdragged Hend Hheap Hsource Hs Htarget.
  unfold handleZoomEnd, bind at 1, get. rewrite Hdragging, Hdragged, Hend.
  unfold bind at 1, newEdge, bind at 1, removeElementFromDom, modify.
  unfold bind at 1, setState, modify, bind at 1, get, bind at 1, deref.
  set (w1 := with_state _ _).
  change (getNodeById (e_source dragged) (state w1))
    with (getNodeById (e_source dragged) (state w)).
  rewrite Hsource. unfold ret at 1, bind at 1.
  assert (Hs1 : heap w1 !! nm_node sourceEntry = Some source) by done.
  assert (Hheap1 : ∀ l n, ending = Some (l, n) → heap w1 !! l = Some n) by done.
  destruct (canSwap_retargeted w1 (nm_node sourceEntry) source ending dragged Hs1 Hheap1)
    as (b & -> & Hsome & Hb).
  set (copy := {| e_ref := Created (nextRef w); e_source := e_source dragged;
                  e_target := e_target dragged;
                  e_targetPosition := e_targetPosition dragged |}).
  set (final := set_target
                  (retargeted dragged (n_key source) ((n_key ∘ snd) <$> ending)) copy).
  unfold bind at 1.
  assert (Hcopy : (if b
                   then let* edgeEndNode := deref (fst <$> ending) in
                        let* ending0 := load edgeEndNode in
                        ret (set_target (Some (n_key ending0)) copy)
                   else ret copy) w1 = (Ok final, w1)).
  { destruct b.
    - destruct ending as [[l n]|]; [|by destruct (Hsome eq_refl)].
      cbn [fmap option_fmap option_map fst deref]. unfold ret at 1, bind at 1, bind at 1, load.
      rewrite (Hheap1 l n eq_refl). unfold ret. subst final. by rewrite <- Hb.
    - unfold ret. subst final. rewrite <- Hb. by destruct dragged. }
  unfold deref in Hcopy. rewrite Hcopy. unfold bind at 1.
  destruct (syncRenderEdge_ok final w1) as (w2 & -> & Hf & _).
  unfold bind at 1, get, bind at 1.
  rewrite (dom_frame_state _ _ Hf).
  change (getNodeById (e_source final) (state w1))
    with (getNodeById (e_source dragged) (state w)).
  rewrite Hsource. unfold ret at 1, bind at 1.
  change (getNodeById (e_target final) (state w1))
    with (getNodeById (retargeted dragged (n_key source) ((n_key ∘ snd) <$> ending))
            (state w)).
  rewrite Htarget. unfold ret, notify, modify.
  eexists. split; [done|]. split.
  - cbn. by rewrite (dom_frame_notifications _ _ Hf).
  - pose proof (dom_frame_graph_unchanged _ _ Hf) as (E1 & E2 & E3 & E4 & E5).
    cbn in E1, E2, E3, E4, E5. by repeat split.
Qed.

(** The edge from a to b of the sample graph, retargeted to c. *)
Lemma handleZoomEnd_retargets_witness :
  ∃ w', handleZoomEnd (retargeting_world edge_ab (Some 2)) = (Ok tt, w') ∧
        notifications w' = [onSwapEdge 0 2 edge_ab].
Proof.
  destruct (handleZoomEnd_retargets (retargeting_world edge_ab (Some 2)) edge_ab
              {| nm_node := 0; nm_originalArrIndex := 0; nm_incomingEdges := [];
                 nm_outgoingEdges := [edge_ab; edge_ac] |}
              {| nm_node := 2; nm_originalArrIndex := 2; nm_incomingEdges := [edge_ac];
                 nm_outgoingEdges := [] |}
              node_a (Some (2, node_c)) eq_refl eq_refl eq_refl)
    as (w' & Hrun & Hn & _).
  - intros l n [= <- <-]. reflexivity.
  - reflexivity.
  - reflexivity.
  - reflexivity.
  - exists w'. split; [exact Hrun|exact Hn].
Defined.

(** C6.  The claim is what createNewEdge tests before it lets an edge be
    drawn (the two nodes differ, and no edge joins them in either
    direction); canSwap misses both tests, and compares the source of the
    edge with the key of the node found under that source.  In the sample
    graph, whose edges are a-b and a-c, the edge from a to b is retargeted
    to c although the edge from a to c exists, and to a, its own source:
    the caller is sent onSwapEdge for it and the edge is drawn under the
    new target. *)
Lemma retarget_onto_connected_or_source :
  edges (state sample_world) = [edge_ab; edge_ac] ∧
  (let r := handleZoomEnd (retargeting_world edge_ab (Some 2)) in
   r.1 = Ok tt ∧ notifications r.2 = [onSwapEdge 0 2 edge_ab] ∧
   is_Some (dom r.2 !! "edge-a-c-container")) ∧
  (let r := handleZoomEnd (retargeting_world edge_ab (Some 0)) in
   r.1 = Ok tt ∧ notifications r.2 = [onSwapEdge 0 0 edge_ab] ∧
   is_Some (dom r.2 !! "edge-a-a-container")).
Proof. cbv zeta. split_and!; try (by vm_compute); vm_compute; by eexists. Qed.

(** ** Selection *)

Lemma string_length_app (s t : string) :
  String.length (s ++ t) = String.length s + String.length t.
Proof.
  induction s as [|a s IH]; [done|].
  change (S (String.length (s ++ t)) = S (String.length s + String.length t)).
  by rewrite IH.
Qed.

Lemma string_app_inj_r (s1 s2 t : string) : s1 ++ t = s2 ++ t → s1 = s2.
Proof.
  revert s2. induction s1 as [|a s1 IH]; intros [|b s2] Heq.
  - done.
  - apply (f_equal String.length) in Heq.
    rewrite !string_length_app in Heq. cbn in Heq. lia.
  - apply (f_equal String.length) in Heq.
    rewrite !string_length_app in Heq. cbn in Heq. lia.
  - change (String a (s1 ++ t) = String b (s2 ++ t)) in Heq.
    injection Heq as -> Heq. f_equal. by apply IH.
Qed.

Lemma node_container_inj (k1 k2 : string) :
  "node-" ++ k1 ++ "-container" = "node-" ++ k2 ++ "-container" → k1 = k2.
Proof. intros Heq. apply (inj (String.append "node-")) in Heq. by apply string_app_inj_r in Heq. Qed.

(** An edge with a source is drawn into its container when there is one,
    and no container is ever removed. *)
Lemma syncRenderEdge_existing (edge : IEdge) (w : World) :
  truthy (e_source edge) = true →
  is_Some (dom w !! edge_container edge) →
  ∃ w', syncRenderEdge edge w = (Ok tt, w') ∧ dom_frame w w' ∧
        dom w' !! edge_container edge = Some (Some (getEdgeComponent edge (state w))).
Proof.
  intros Hsrc Hc. unfold syncRenderEdge. rewrite Hsrc. cbn [negb].
  unfold bind at 1, get, renderEdge, bind at 1, get.
  fold (edge_container edge).
  rewrite (bool_decide_eq_true_2 _ Hc). cbn [negb andb when].
  unfold bind, ret, modify. eexists. split; [done|].
  split; [apply dom_frame_with_dom|]. cbn. apply lookup_insert_eq.
Qed.





(** ** Pending renders *)

Lemma forEach_snoc {A} (l : list A) (a : A) (f : A → M unit) (w : World) :
  forEach (l ++ [a])%list f w = (forEach l f ;;; f a) w.
Proof.
  revert w. induction l as [|b l IH]; intros w; cbn.
  - unfold bind, ret. by destruct (f a w) as [[[]|e] w'].
  - specialize (IH (f b w).2). unfold bind in *.
    destruct (f b w) as [[[]|e] w1]; [exact IH|done].
Qed.

(** Two pending renders filed under one timeout id have one handle. *)
Lemma recorded_unique (w : World) (h1 h2 : nat) (t1 t2 : Task) :
  timers_recorded w →
  timers w !! h1 = Some t1 →
  timers w !! h2 = Some t2 →
  timeoutId (heap w) t1 = timeoutId (heap w) t2 →
  is_Some (timeoutId (heap w) t1) →
  (match t1, t2 with
   | RenderNodeTask _ _, RenderNodeTask _ _ | RenderEdgeTask _, RenderEdgeTask _ => True
   | _, _ => False
   end) →
  h1 = h2.
Proof.
  intros (Hrec & _) H1 H2 Hid [id Hsome] Hkind.
  apply Hrec in H1, H2. rewrite Hsome in Hid. symmetry in Hid.
  destruct t1, t2; try done; unfold recorded in H1, H2;
    rewrite Hsome in H1; rewrite Hid in H2; cbn in H1, H2; congruence.
Qed.

(** The pending timeouts after [clearTimeout(h)]. *)
Lemma clearTimeout_timers (o : option nat) (w : World) :
  ∃ w', clearTimeout o w = (Ok tt, w') ∧
        state w' = state w ∧ heap w' = heap w ∧ dom w' = dom w ∧
        nodeTimeouts w' = nodeTimeouts w ∧ edgeTimeouts w' = edgeTimeouts w ∧
        nextTimer w' = nextTimer w ∧ nextRef w' = nextRef w ∧
        notifications w' = notifications w ∧
        ∀ h t, timers w' !! h = Some t ↔ timers w !! h = Some t ∧ o ≠ Some h.
Proof.
  unfold clearTimeout. eexists. split; [done|]. destruct o as [h0|]; cbn.
  - split_and!; try done. intros h t. rewrite lookup_delete_Some.
    split; intros [? ?]; split; try done; congruence.
  - split_and!; try done. intros h t. split; [by intros ?|by intros [? _]].
Qed.

Lemma asyncRenderNode_recorded (w : World) (node : loc) (i : nat) (n : INode) :
  timers_recorded w →
  heap w !! node = Some n →
  ∃ w', asyncRenderNode node i w = (Ok tt, w') ∧
        timers_recorded w' ∧
        heap w' = heap w ∧
        nodeTimeouts w' !! ("nodes-" ++ n_key n) = Some (nextTimer w) ∧
        timers w' !! nextTimer w = Some (RenderNodeTask node i).
Proof.
  intros (Hrec & Hnt & Het & Hlt) Hn.
  unfold asyncRenderNode, bind at 1, load. rewrite Hn.
  unfold bind at 1, get, bind at 1.
  set (id := "nodes-" ++ n_key n).
  destruct (clearTimeout_timers (nodeTimeouts w !! id) w)
    as (w1 & -> & Hs1 & Hh1 & Hd1 & Hn1 & He1 & Hx1 & Hr1 & Hno1 & Ht1).
  unfold bind at 1, setTimeout, set_nodeTimeout.
  eexists. split; [reflexivity|]. unfold timers_recorded. cbn.
  rewrite Hh1, Hn1, He1, Hx1.
  split_and!; [| | | |done|by rewrite lookup_insert_eq|by rewrite lookup_insert_eq].
  - intros h t. destruct (decide (nextTimer w = h)) as [<-|Hne].
    + rewrite lookup_insert_eq. intros [= <-]. unfold recorded. cbn.
      rewrite Hn. cbn. by rewrite lookup_insert_eq.
    + rewrite lookup_insert_ne by done. intros [Ht Hnot]%Ht1.
      pose proof (Hrec h t Ht) as Hr.
      destruct t as [node' i'|edge']; unfold recorded in *; cbn in *.
      * destruct (heap w !! node') as [n'|]; cbn in *; [|done].
        destruct (decide (id = "nodes-" ++ n_key n')) as [Heq|Hneq].
        -- rewrite <- Heq in Hr. by rewrite Hr in Hnot.
        -- by rewrite lookup_insert_ne.
      * done.
  - intros id' h. destruct (decide (id = id')) as [<-|?].
    + rewrite lookup_insert_eq. intros [= <-]. lia.
    + rewrite lookup_insert_ne by done. intros ?%Hnt. lia.
  - intros id' h ?%Het. lia.
  - intros h t. destruct (decide (nextTimer w = h)) as [<-|?].
    + intros _. lia.
    + rewrite lookup_insert_ne by done. intros [Ht _]%Ht1. apply Hlt in Ht. lia.
Qed.

Lemma asyncRenderEdge_recorded (w : World) (edge : IEdge) :
  timers_recorded w →
  truthy (e_source edge) = true →
  truthy (e_target edge) = true →
  ∃ w', asyncRenderEdge edge w = (Ok tt, w') ∧
        timers_recorded w' ∧
        heap w' = heap w ∧
        edgeTimeouts w' !! ("edges-" ++ template (e_source edge) ++ "-"
                            ++ template (e_target edge)) = Some (nextTimer w) ∧
        timers w' !! nextTimer w = Some (RenderEdgeTask edge).
Proof.
  intros (Hrec & Hnt & Het & Hlt) Hs Htg.
  unfold asyncRenderEdge. rewrite Hs, Htg. cbn [negb orb].
  unfold bind at 1, get, bind at 1.
  set (id := "edges-" ++ template (e_source edge) ++ "-" ++ template (e_target edge)).
  destruct (clearTimeout_timers (edgeTimeouts w !! id) w)
    as (w1 & -> & Hs1 & Hh1 & Hd1 & Hn1 & He1 & Hx1 & Hr1 & Hno1 & Ht1).
  unfold bind at 1, setTimeout, set_edgeTimeout.
  eexists. split; [reflexivity|]. unfold timers_recorded. cbn.
  rewrite Hh1, Hn1, He1, Hx1.
  split_and!; [| | | |done|by rewrite lookup_insert_eq|by rewrite lookup_insert_eq].
  - intros h t. destruct (decide (nextTimer w = h)) as [<-|Hne].
    + rewrite lookup_insert_eq. intros [= <-]. unfold recorded. cbn.
      by rewrite lookup_insert_eq.
    + rewrite lookup_insert_ne by done. intros [Ht Hnot]%Ht1.
      pose proof (Hrec h t Ht) as Hr.
      destruct t as [node' i'|edge']; unfold recorded in *; cbn in *.
      * done.
      * fold id.
        destruct (decide (id = "edges-" ++ template (e_source edge') ++ "-"
                               ++ template (e_target edge'))) as [Heq|Hneq].
        -- rewrite <- Heq in Hr. by rewrite Hr in Hnot.
        -- by rewrite lookup_insert_ne.
  - intros id' h ?%Hnt. lia.
  - intros id' h. destruct (decide (id = id')) as [<-|?].
    + rewrite lookup_insert_eq. intros [= <-]. lia.
    + rewrite lookup_insert_ne by done. intros ?%Het. lia.
  - intros h t. destruct (decide (nextTimer w = h)) as [<-|?].
    + intros _. lia.
    + rewrite lookup_insert_ne by done. intros [Ht _]%Ht1. apply Hlt in Ht. lia.
Qed.

Lemma forEach_asyncRenderNode_recorded (requests : list (loc * nat)) (w : World) :
  timers_recorded w →
  Forall (λ r, is_Some (heap w !! r.1)) requests →
  ∃ w', forEach requests (λ r, asyncRenderNode r.1 r.2) w = (Ok tt, w') ∧
        timers_recorded w' ∧ heap w' = heap w.
Proof.
  revert w. induction requests as [|[node i] requests IH]; intros w Hrec Hall.
  - by exists w.
  - apply Forall_cons in Hall as [[n Hn] Hall]. cbn in Hn.
    destruct (asyncRenderNode_recorded w node i n Hrec Hn) as (w1 & Hrun & Hrec1 & Hh1 & _).
    destruct (IH w1 Hrec1) as (w2 & Hrun2 & Hrec2 & Hh2).
    { by rewrite Hh1. }
    exists w2. cbn. unfold bind. rewrite Hrun, Hrun2. split_and!; [done|done|congruence].
Qed.

Lemma asyncRenderEdge_any (edge : IEdge) (w : World) :
  timers_recorded w →
  ∃ w', asyncRenderEdge edge w = (Ok tt, w') ∧ timers_recorded w' ∧ heap w' = heap w.
Proof.
  intros Hrec.
  destruct (truthy (e_source edge)) eqn:Hs; [destruct (truthy (e_target edge)) eqn:Ht|].
  - destruct (asyncRenderEdge_recorded w edge Hrec Hs Ht) as (w' & ? & ? & ? & _).
    by exists w'.
  - exists w. unfold asyncRenderEdge. by rewrite Hs, Ht.
  - exists w. unfold asyncRenderEdge. by rewrite Hs.
Qed.

Lemma forEach_asyncRenderEdge_recorded (requests : list IEdge) (w : World) :
  timers_recorded w →
  ∃ w', forEach requests asyncRenderEdge w = (Ok tt, w') ∧
        timers_recorded w' ∧ heap w' = heap w.
Proof.
  revert w. induction requests as [|edge requests IH]; intros w Hrec.
  - by exists w.
  - destruct (asyncRenderEdge_any edge w Hrec) as (w1 & Hrun & Hrec1 & Hh1).
    destruct (IH w1 Hrec1) as (w2 & Hrun2 & Hrec2 & Hh2).
    exists w2. cbn. unfold bind. rewrite Hrun, Hrun2. split_and!; [done|done|congruence].
Qed.

(** A timeout that fires leaves the record of the pending renders right. *)
Lemma fire_recorded (h : nat) (w w' : World) (r : Result unit) :
  timers_recorded w →
  fire h w = (r, w') →
  timers_recorded w'.
Proof.
  intros Hrec. unfold fire, bind at 1, get.
  destruct (timers w !! h) as [t|] eqn:Ht; [|by intros [= <- <-]].
  unfold bind.
  destruct (clearTimeout_timers (Some h) w)
    as (w1 & -> & Hs1 & Hh1 & Hd1 & Hn1 & He1 & Hx1 & Hr1 & Hno1 & Ht1).
  assert (Hrec1 : timers_recorded w1).
  { destruct Hrec as (Hrec & Hnt & Het & Hlt). unfold timers_recorded, recorded.
    rewrite Hh1, Hn1, He1, Hx1. split_and!; try done.
    - intros h' t' [Ht' _]%Ht1. by apply Hrec.
    - intros h' t' [Ht' _]%Ht1. by eapply Hlt. }
  intros Hrun.
  assert (Hf : dom_frame w1 w').
  { destruct t as [node i|edge].
    - by eapply syncRenderNode_frame.
    - destruct (syncRenderEdge_ok edge w1) as (w2 & Hrun2 & Hf & _).
      rewrite Hrun2 in Hrun. by injection Hrun as <- <-. }
  rewrite Hf. by destruct w1.
Qed.

(** Whatever renders were requested before, after a request to draw a
    node there is exactly one pending render for the key of that node,
    and it is the one of this last request; and the same for an edge and
    its pair of source and target. *)
Lemma redraws_coalesced (w : World) :
  timers_recorded w →
  (∀ (requests : list (loc * nat)) (node : loc) (i : nat) (n : INode),
     Forall (λ r, is_Some (heap w !! r.1)) requests →
     heap w !! node = Some n →
     ∃ w' h,
       forEach (requests ++ [(node, i)])%list (λ r, asyncRenderNode r.1 r.2) w
         = (Ok tt, w') ∧
       timers w' !! h = Some (RenderNodeTask node i) ∧
       ∀ h' node' i',
         timers w' !! h' = Some (RenderNodeTask node' i') →
         n_key <$> heap w' !! node' = Some (n_key n) →
         h' = h ∧ node' = node ∧ i' = i) ∧
  (∀ (requests : list IEdge) (edge : IEdge),
     truthy (e_source edge) = true →
     truthy (e_target edge) = true →
     ∃ w' h,
       forEach (requests ++ [edge])%list asyncRenderEdge w = (Ok tt, w') ∧
       timers w' !! h = Some (RenderEdgeTask edge) ∧
       ∀ h' edge',
         timers w' !! h' = Some (RenderEdgeTask edge') →
         e_source edge' = e_source edge →
         e_target edge' = e_target edge →
         h' = h ∧ edge' = edge).
Proof.
  intros Hrec. split.
  - intros requests node i n Hall Hn.
    destruct (forEach_asyncRenderNode_recorded requests w Hrec Hall)
      as (w1 & Hrun1 & Hrec1 & Hh1).
    assert (Hn1 : heap w1 !! node = Some n) by (by rewrite Hh1).
    destruct (asyncRenderNode_recorded w1 node i n Hrec1 Hn1)
      as (w2 & Hrun2 & Hrec2 & Hh2 & Hid & Ht).
    exists w2, (nextTimer w1). rewrite forEach_snoc. unfold bind. rewrite Hrun1.
    split_and!; [done|done|].
    intros h' node' i' Ht' Hkey.
    destruct Hrec2 as (Hrec2 & _). apply Hrec2 in Ht' as Hr. unfold recorded in Hr.
    cbn in Hr. destruct (heap w2 !! node') as [n'|]; [|done].
    cbn in Hkey, Hr. injection Hkey as Hkey. rewrite Hkey, Hid in Hr.
    injection Hr as <-. rewrite Ht in Ht'. by injection Ht' as <- <-.
  - intros requests edge Hs Htg.
    destruct (forEach_asyncRenderEdge_recorded requests w Hrec) as (w1 & Hrun1 & Hrec1 & Hh1).
    destruct (asyncRenderEdge_recorded w1 edge Hrec1 Hs Htg)
      as (w2 & Hrun2 & Hrec2 & Hh2 & Hid & Ht).
    exists w2, (nextTimer w1). rewrite forEach_snoc. unfold bind. rewrite Hrun1.
    split_and!; [done|done|].
    intros h' edge' Ht' Hs' Htg'.
    destruct Hrec2 as (Hrec2 & _). apply Hrec2 in Ht' as Hr. unfold recorded in Hr.
    cbn in Hr. rewrite Hs', Htg', Hid in Hr.
    injection Hr as <-. rewrite Ht in Ht'. by injection Ht' as <-.
Qed.

(** Nothing is pending after construction. *)
Lemma initial_timers_recorded (h : gmap loc INode) : timers_recorded (initial_world h).
Proof. by split_and!. Qed.

End GraphViewFacts.

(** * Properties of the rendering of entities *)

Module RenderFacts.
Import GraphView GraphViewFacts.
Local Open Scope string_scope.

Lemma dom_frame_heap w w' : dom_frame w w' → heap w' = heap w.
Proof. by intros ->. Qed.

Lemma forEach_ext {A} (l : list A) (f g : A → M unit) (w : World) :
  (∀ a w, f a w = g a w) → forEach l f w = forEach l g w.
Proof.
  intros Hfg. revert w. induction l as [|a l IH]; intros w; [done|].
  cbn. unfold bind. rewrite Hfg. destruct (g a w) as [[[]|e] w1]; [apply IH|done].
Qed.

Lemma string_app_assoc (s t u : string) : s ++ (t ++ u) = (s ++ t) ++ u.
Proof.
  induction s as [|a s IH]; [done|].
  change (String a (s ++ (t ++ u)) = String a ((s ++ t) ++ u)). by rewrite IH.
Qed.

(** ** The ids of edge elements *)

Lemma hyphen_inside (s t : string) : hyphen_free (s ++ "-" ++ t) = false.
Proof.
  induction s as [|a s IH].
  - change (hyphen_free (String hyphen t) = false). cbn.
    try rewrite Ascii.eqb_refl. done.
  - change (hyphen_free (String a (s ++ "-" ++ t)) = false). cbn.
    rewrite IH. apply andb_false_r.
Qed.

Lemma hyphen_split (s s' t t' : string) :
  hyphen_free s = true → hyphen_free s' = true →
  s ++ "-" ++ t = s' ++ "-" ++ t' → s = s' ∧ t = t'.
Proof.
  revert s'. induction s as [|a s IH]; intros [|a' s'] Hs Hs' Heq.
  - change (String hyphen t = String hyphen t') in Heq. by injection Heq as ->.
  - change (String hyphen t = String a' (s' ++ "-" ++ t')) in Heq. injection Heq as <- _.
    cbn in Hs'. try rewrite Ascii.eqb_refl in Hs'. done.
  - change (String a (s ++ "-" ++ t) = String hyphen t') in Heq. injection Heq as -> _.
    cbn in Hs. try rewrite Ascii.eqb_refl in Hs. done.
  - change (String a (s ++ "-" ++ t) = String a' (s' ++ "-" ++ t')) in Heq.
    injection Heq as -> Heq. cbn in Hs, Hs'.
    apply andb_true_iff in Hs as [_ Hs]. apply andb_true_iff in Hs' as [_ Hs'].
    destruct (IH s' Hs Hs' Heq) as [-> ->]. done.
Qed.

Lemma edge_element_id_inj (e1 e2 : IEdge) :
  hyphen_free (template (e_source e1)) = true →
  hyphen_free (template (e_source e2)) = true →
  edge_element_id e1 = edge_element_id e2 → edge_key e1 = edge_key e2.
Proof.
  intros H1 H2 Heq. unfold edge_element_id in Heq.
  apply (inj (String.append "edge-")) in Heq. apply string_app_inj_r in Heq.
  destruct (hyphen_split _ _ _ _ H1 H2 Heq) as [Hs Ht]. unfold edge_key. by rewrite Hs, Ht.
Qed.

Lemma edge_container_not_custom (edge : IEdge) :
  truthy (e_target edge) = true → edge_container edge ≠ "edge-custom-container".
Proof.
  intros Ht Heq. unfold edge_container in Heq. rewrite Ht in Heq.
  apply (inj (String.append "edge-")) in Heq.
  apply (string_app_inj_r _ "custom" "-container") in Heq.
  pose proof (hyphen_inside (template (e_source edge)) (template (e_target edge))) as Hh.
  rewrite Heq in Hh. by vm_compute in Hh.
Qed.

(** ** syncRenderEdge where the edge has no container yet *)

Lemma syncRenderEdge_other (edge : IEdge) (w : World) :
  ∃ w', syncRenderEdge edge w = (Ok tt, w') ∧ dom_frame w w' ∧
        ∀ k, k ≠ edge_container edge → dom w' !! k = dom w !! k.
Proof.
  unfold syncRenderEdge.
  destruct (negb (truthy (e_source edge))).
  { exists w. split; [done|]. split; [apply dom_frame_refl|done]. }
  unfold bind at 1, get.
  match goal with |- context [renderEdge ?i ?e ?d w] =>
    destruct (renderEdge_ok i e d w) as (w' & -> & Hf & Hk) end.
  exists w'. split; [done|]. split; [done|].
  intros k Hne. apply Hk. exact Hne.
Qed.

Lemma syncRenderEdge_absent (edge : IEdge) (w : World) :
  truthy (e_source edge) = true →
  dom w !! edge_container edge = None →
  syncRenderEdge edge w =
    (Ok tt, if edge_differs edge (draggedEdge (state w))
            then with_dom (<[edge_container edge := None]>) w else w).
Proof.
  intros Hs Hc.
  assert (Hno : ¬ is_Some (dom w !! edge_container edge)).
  { rewrite Hc. by intros [? ?]. }
  unfold syncRenderEdge. rewrite Hs. cbn [negb].
  unfold bind at 1, get, renderEdge, bind at 1, get. fold (edge_container edge).
  rewrite (bool_decide_eq_false_2 _ Hno). cbn [negb andb when].
  by destruct (edge_differs edge (draggedEdge (state w))).
Qed.

(** X5.  The first render of an edge that has no container only creates
    the container, and leaves it empty: the edge is drawn into it by the
    next render of the same edge.  For the edge that is being dragged the
    first render does nothing at all. *)
Theorem syncRenderEdge_fills_on_second_call (edge : IEdge) (w : World) :
  truthy (e_source edge) = true →
  dom w !! edge_container edge = None →
  (edge_differs edge (draggedEdge (state w)) = false →
   syncRenderEdge edge w = (Ok tt, w)) ∧
  (edge_differs edge (draggedEdge (state w)) = true →
   syncRenderEdge edge w = (Ok tt, with_dom (<[edge_container edge := None]>) w) ∧
   (syncRenderEdge edge ;;; syncRenderEdge edge) w =
     (Ok tt, with_dom (λ _, <[edge_container edge :=
                                Some (getEdgeComponent edge (state w))]> (dom w)) w)).
Proof.
  intros Hs Hc. pose proof (syncRenderEdge_absent edge w Hs Hc) as Hfirst.
  split; intros Hd; rewrite Hd in Hfirst; [done|]. split; [done|].
  unfold bind at 1. rewrite Hfirst.
  set (w1 := with_dom _ w).
  assert (Hyes : is_Some (dom w1 !! edge_container edge)).
  { subst w1. cbn. rewrite lookup_insert_eq. by eexists. }
  unfold syncRenderEdge. rewrite Hs. cbn [negb].
  unfold bind at 1, get, renderEdge, bind at 1, get. fold (edge_container edge).
  rewrite (bool_decide_eq_true_2 _ Hyes).
  cbn [negb andb when]. unfold bind, ret, modify. subst w1. unfold with_dom. cbn.
  by rewrite insert_insert_eq.
Qed.

(** Edge a-b of the sample graph, of which nothing is rendered yet. *)
Lemma syncRenderEdge_fills_on_second_call_witness :
  syncRenderEdge edge_ab sample_world =
    (Ok tt, with_dom (<[edge_container edge_ab := None]>) sample_world) ∧
  (syncRenderEdge edge_ab ;;; syncRenderEdge edge_ab) sample_world =
    (Ok tt, with_dom (λ _, <[edge_container edge_ab :=
                               Some (getEdgeComponent edge_ab (state sample_world))]>
                             (dom sample_world)) sample_world).
Proof.
  apply (syncRenderEdge_fills_on_second_call edge_ab sample_world); reflexivity.
Defined.

(** ** Pending renders *)

Lemma asyncRenderNode_run (w : World) (node : loc) (i : nat) (n : INode) :
  heap w !! node = Some n →
  asyncRenderNode node i w =
    (Ok tt,
     {| state := state w; heap := heap w; dom := dom w;
        nodeTimeouts := <["nodes-" ++ n_key n := nextTimer w]> (nodeTimeouts w);
        edgeTimeouts := edgeTimeouts w;
        timers := <[nextTimer w := RenderNodeTask node i]>
                    (match nodeTimeouts w !! ("nodes-" ++ n_key n) with
                     | Some h => delete h (timers w)
                     | None => timers w
                     end);
        nextTimer := S (nextTimer w); nextRef := nextRef w;
        notifications := notifications w |}).
Proof.
  intros Hn. unfold asyncRenderNode, bind at 1, load. rewrite Hn.
  unfold bind, get, clearTimeout, setTimeout, set_nodeTimeout.
  by destruct (nodeTimeouts w !! ("nodes-" ++ n_key n)).
Qed.

Lemma nodes_id_inj (k1 k2 : string) : "nodes-" ++ k1 = "nodes-" ++ k2 → k1 = k2.
Proof. apply (inj (String.append "nodes-")). Qed.

Lemma asyncRenderNode_pending (w : World) (node : loc) (i : nat) (n : INode) :
  timers_recorded w →
  heap w !! node = Some n →
  ∃ w', asyncRenderNode node i w = (Ok tt, w') ∧
        timers_recorded w' ∧ same_but_timers w w' ∧
        node_render_pending w' (n_key n) node i ∧
        ∀ key node' i', key ≠ n_key n →
          node_render_pending w key node' i' → node_render_pending w' key node' i'.
Proof.
  intros Hrec Hn.
  destruct (asyncRenderNode_recorded w node i n Hrec Hn) as (w' & Hrun & Hrec' & _).
  exists w'. split; [done|]. split; [done|].
  rewrite (asyncRenderNode_run w node i n Hn) in Hrun. injection Hrun as <-.
  destruct Hrec as (Hr & Hnt & Het & Hlt).
  split; [done|]. split.
  - exists (nextTimer w). cbn. rewrite !lookup_insert_eq. split_and!; try done.
    intros id. destruct (decide ("nodes-" ++ n_key n = id)) as [<-|Hne]; [done|].
    rewrite lookup_insert_ne by done. intros Hid%Hnt. lia.
  - intros key node' i' Hkey (h & Hid & Ht & Hsole). exists h. cbn.
    assert (Hids : "nodes-" ++ n_key n ≠ "nodes-" ++ key).
    { intros Heq%nodes_id_inj. by apply Hkey. }
    assert (Hh : nextTimer w ≠ h).
    { apply Hlt in Ht. lia. }
    rewrite lookup_insert_ne by done. rewrite lookup_insert_ne by done.
    split_and!; [done| |].
    + destruct (nodeTimeouts w !! ("nodes-" ++ n_key n)) as [h0|] eqn:E0; [|done].
      rewrite lookup_delete_ne; [done|]. intros ->. apply Hsole in E0. by apply Hids.
    + intros id. destruct (decide ("nodes-" ++ n_key n = id)) as [<-|Hne].
      * rewrite lookup_insert_eq. by intros [= ?].
      * rewrite lookup_insert_ne by done. apply Hsole.
Qed.

Lemma forEach_asyncRenderNode_pending (requests : list (loc * nat)) (w : World) :
  timers_recorded w →
  (∀ k r, requests !! k = Some r → is_Some (heap w !! r.1)) →
  ∃ w', forEach requests (λ r, asyncRenderNode r.1 r.2) w = (Ok tt, w') ∧
        timers_recorded w' ∧ same_but_timers w w' ∧
        ∀ (k : nat) node i n,
          requests !! k = Some (node, i) →
          heap w !! node = Some n →
          (∀ (k' : nat) r n', requests !! k' = Some r → heap w !! r.1 = Some n' →
                      n_key n' = n_key n → (k' ≤ k)%nat) →
          node_render_pending w' (n_key n) node i.
Proof.
  revert w. induction requests as [|[node i] requests IH] using rev_ind; intros w Hrec Hall.
  - exists w. by split_and!.
  - destruct (IH w Hrec) as (w1 & Hrun1 & Hrec1 & Hsame1 & Hpend1).
    { intros k r Hk. apply (Hall k). by apply lookup_app_l_Some. }
    destruct (Hall (length requests) (node, i)) as [n Hn].
    { by rewrite lookup_app_r, Nat.sub_diag. }
    cbn in Hn.
    assert (Hn1 : heap w1 !! node = Some n).
    { destruct Hsame1 as (_ & -> & _). done. }
    destruct (asyncRenderNode_pending w1 node i n Hrec1 Hn1)
      as (w2 & Hrun2 & Hrec2 & Hsame2 & Hnew & Hkeep).
    exists w2. rewrite forEach_snoc. unfold bind. rewrite Hrun1.
    split; [done|]. split; [done|]. split.
    { destruct Hsame1 as (?&?&?&?), Hsame2 as (?&?&?&?). split_and!; congruence. }
    intros k node' i' n' Hk Hn' Hlast.
    destruct (decide (k = length requests)) as [->|Hne].
    + rewrite lookup_app_r, Nat.sub_diag in Hk by done. injection Hk as <- <-.
      rewrite Hn in Hn'. by injection Hn' as <-.
    + assert (Hk' : requests !! k = Some (node', i')).
      { apply lookup_app_Some in Hk as [Hk|[Hge Hk]]; [done|].
        apply list_lookup_singleton_Some in Hk as [Hk _]. lia. }
      apply Hkeep.
      * intros Heq. specialize (Hlast (length requests) (node, i) n).
        rewrite lookup_app_r, Nat.sub_diag in Hlast by done.
        specialize (Hlast eq_refl Hn (eq_sym Heq)).
        apply lookup_lt_Some in Hk'. lia.
      * apply (Hpend1 k); [done|done|].
        intros k' r n'' Hk'' Hn'' Hkey. apply (Hlast k' r n''); [|done|done].
        by apply lookup_app_l_Some.
Qed.

Lemma asyncRenderEdge_run (w : World) (edge : IEdge) :
  complete edge = true →
  asyncRenderEdge edge w =
    (Ok tt,
     {| state := state w; heap := heap w; dom := dom w;
        nodeTimeouts := nodeTimeouts w;
        edgeTimeouts := <[edge_timeoutId edge := nextTimer w]> (edgeTimeouts w);
        timers := <[nextTimer w := RenderEdgeTask edge]>
                    (match edgeTimeouts w !! edge_timeoutId edge with
                     | Some h => delete h (timers w)
                     | None => timers w
                     end);
        nextTimer := S (nextTimer w); nextRef := nextRef w;
        notifications := notifications w |}).
Proof.
  intros [Hs Ht]%andb_true_iff. unfold asyncRenderEdge. rewrite Hs, Ht. cbn [negb orb].
  unfold bind, get, clearTimeout, setTimeout, set_edgeTimeout. fold (edge_timeoutId edge).
  by destruct (edgeTimeouts w !! edge_timeoutId edge).
Qed.

Lemma asyncRenderEdge_pending (w : World) (edge : IEdge) :
  timers_recorded w →
  complete edge = true →
  ∃ w', asyncRenderEdge edge w = (Ok tt, w') ∧
        timers_recorded w' ∧ same_but_timers w w' ∧
        edge_render_pending w' edge ∧
        (∀ edge', edge_timeoutId edge' ≠ edge_timeoutId edge →
           edge_render_pending w edge' → edge_render_pending w' edge') ∧
        (∀ h t, timers w' !! h = Some t → timers w !! h = Some t ∨ t = RenderEdgeTask edge).
Proof.
  intros Hrec Hc. pose proof Hc as [Hs Ht]%andb_true_iff.
  destruct (asyncRenderEdge_recorded w edge Hrec Hs Ht) as (w' & Hrun & Hrec' & _).
  exists w'. split; [done|]. split; [done|].
  rewrite (asyncRenderEdge_run w edge Hc) in Hrun. injection Hrun as <-.
  destruct Hrec as (Hr & Hnt & Het & Hlt).
  split; [done|]. split_and!.
  - exists (nextTimer w). cbn. rewrite !lookup_insert_eq. split_and!; try done.
    intros id. destruct (decide (edge_timeoutId edge = id)) as [<-|Hne]; [done|].
    rewrite lookup_insert_ne by done. intros Hid%Het. lia.
  - intros edge' Hids (h & Hid & Ht' & Hsole). exists h. cbn.
    assert (Hh : nextTimer w ≠ h).
    { apply Hlt in Ht'. lia. }
    rewrite lookup_insert_ne by done. rewrite lookup_insert_ne by done.
    split_and!; [done| |].
    + destruct (edgeTimeouts w !! edge_timeoutId edge) as [h0|] eqn:E0; [|done].
      rewrite lookup_delete_ne; [done|]. intros ->. apply Hsole in E0. by apply Hids.
    + intros id. destruct (decide (edge_timeoutId edge = id)) as [<-|Hne].
      * rewrite lookup_insert_eq. by intros [= ?].
      * rewrite lookup_insert_ne by done. apply Hsole.
  - intros h t. cbn. destruct (decide (nextTimer w = h)) as [<-|Hne].
    + rewrite lookup_insert_eq. intros [= <-]. by right.
    + rewrite lookup_insert_ne by done.
      destruct (edgeTimeouts w !! edge_timeoutId edge) as [h0|]; [|by left].
      intros [_ ?]%lookup_delete_Some. by left.
Qed.

Lemma forEach_unindexed_pending (oldEdgesMap : gmap string IEdgeMapEdge)
    (requests : list IEdge) (w : World) :
  timers_recorded w →
  ∃ w', forEach requests
          (λ edge, if unindexed oldEdgesMap edge then asyncRenderEdge edge else ret tt) w
        = (Ok tt, w') ∧
        timers_recorded w' ∧ same_but_timers w w' ∧
        (∀ (k : nat) edge,
           requests !! k = Some edge →
           unindexed oldEdgesMap edge = true →
           (∀ (k' : nat) edge', requests !! k' = Some edge' →
              unindexed oldEdgesMap edge' = true →
              edge_timeoutId edge' = edge_timeoutId edge → (k' ≤ k)%nat) →
           edge_render_pending w' edge) ∧
        (∀ h t, timers w' !! h = Some t →
           timers w !! h = Some t ∨
           ∃ edge, t = RenderEdgeTask edge ∧ edge ∈ requests ∧
                   unindexed oldEdgesMap edge = true) ∧
        ((∀ edge, edge ∈ requests → unindexed oldEdgesMap edge = false) → w' = w).
Proof.
  revert w. induction requests as [|edge requests IH] using rev_ind; intros w Hrec.
  - exists w. split_and!; try done. intros h t ?. by left.
  - destruct (IH w Hrec) as (w1 & Hrun1 & Hrec1 & Hsame1 & Hpend1 & Honly1 & Hnone1).
    rewrite forEach_snoc. unfold bind. rewrite Hrun1.
    destruct (unindexed oldEdgesMap edge) eqn:Hnew.
    + pose proof Hnew as [Hc _]%andb_true_iff.
      destruct (asyncRenderEdge_pending w1 edge Hrec1 Hc)
        as (w2 & Hrun2 & Hrec2 & Hsame2 & Hp2 & Hkeep & Honly2).
      exists w2. split; [done|]. split; [done|]. split.
      { destruct Hsame1 as (?&?&?&?), Hsame2 as (?&?&?&?). split_and!; congruence. }
      split_and!.
      * intros k edge' Hk Hnew' Hlast.
        destruct (decide (k = length requests)) as [->|Hne].
        -- rewrite lookup_app_r, Nat.sub_diag in Hk by done. by injection Hk as <-.
        -- assert (Hk' : requests !! k = Some edge').
           { apply lookup_app_Some in Hk as [Hk|[Hge Hk]]; [done|].
             apply list_lookup_singleton_Some in Hk as [Hk _]. lia. }
           apply Hkeep.
           ++ intros Heq. specialize (Hlast (length requests) edge).
              rewrite lookup_app_r, Nat.sub_diag in Hlast by done.
              specialize (Hlast eq_refl Hnew (eq_sym Heq)).
              apply lookup_lt_Some in Hk'. lia.
           ++ apply (Hpend1 k); [done|done|].
              intros k' e' Hk'' Hn'' Hid. apply (Hlast k' e'); [|done|done].
              by apply lookup_app_l_Some.
      * intros h t [Ht| ->]%Honly2.
        -- apply Honly1 in Ht as [Ht|(e & -> & He & Hn)]; [by left|].
           right. exists e. split_and!; [done| |done]. apply elem_of_app. by left.
        -- right. exists edge. split_and!; [done| |done]. apply elem_of_app. right.
           by apply list_elem_of_singleton.
      * intros Hall. rewrite Hall in Hnew; [done|]. apply elem_of_app. right.
        by apply list_elem_of_singleton.
    + exists w1. split; [done|]. split; [done|]. split; [done|]. split_and!.
      * intros k edge' Hk Hnew' Hlast.
        assert (Hk' : requests !! k = Some edge').
        { apply lookup_app_Some in Hk as [Hk|[Hge Hk]]; [done|].
          apply list_lookup_singleton_Some in Hk as [_ <-]. congruence. }
        apply (Hpend1 k); [done|done|].
        intros k' e' Hk'' Hn'' Hid. apply (Hlast k' e'); [|done|done].
        by apply lookup_app_l_Some.
      * intros h t [Ht|(e & -> & He & Hn)]%Honly1; [by left|].
        right. exists e. split_and!; [done| |done]. apply elem_of_app. by left.
      * intros Hall. apply Hnone1. intros e He. apply Hall, elem_of_app. by left.
Qed.

Lemma sample_timers_recorded : timers_recorded sample_world.
Proof. by split_and!. Qed.

(** X6.  What a pending render does when its timeout fires.  The render of
    a node draws the node into its container, selected if it is the node
    of the selection.  The render of an edge draws the edge if it has a
    container; if it has none, it creates an empty one, or nothing for the
    dragged edge.  Either way the timeout is no longer pending. *)
Theorem pending_render_fires (w : World) :
  (∀ key node i n sel,
     node_render_pending w key node i →
     heap w !! node = Some n →
     selectedNodeObj (state w) = Some sel →
     ∃ h w', nodeTimeouts w !! ("nodes-" ++ key) = Some h ∧
       fire h w = (Ok tt, w') ∧
       timers w' = delete h (timers w) ∧
       dom w' !! ("node-" ++ n_key n ++ "-container") =
         Some (Some (NodeElement ("node-" ++ n_key n) node (Z.of_nat i)
                       (bool_decide (sn_node sel = Some node))))) ∧
  (∀ edge,
     edge_render_pending w edge →
     complete edge = true →
     ∃ h w', edgeTimeouts w !! edge_timeoutId edge = Some h ∧
       fire h w = (Ok tt, w') ∧
       timers w' = delete h (timers w) ∧
       dom w' !! edge_container edge =
         match dom w !! edge_container edge with
         | Some _ => Some (Some (getEdgeComponent edge (state w)))
         | None => if edge_differs edge (draggedEdge (state w)) then Some None else None
         end).
Proof.
  split.
  - intros key node i n sel (h & Hid & Ht & _) Hn Hsel.
    exists h. unfold fire, bind at 1, get. rewrite Ht. unfold bind, clearTimeout.
    set (w1 := {| state := state w; heap := heap w; dom := dom w;
                  nodeTimeouts := nodeTimeouts w; edgeTimeouts := edgeTimeouts w;
                  timers := delete h (timers w); nextTimer := nextTimer w;
                  nextRef := nextRef w; notifications := notifications w |}).
    destruct (syncRenderNode_ok node (Z.of_nat i) n sel w1 Hn Hsel)
      as (w' & Hrun & Hf & Hd & _).
    exists w'. split; [done|]. split; [done|]. split; [|done]. by rewrite Hf.
  - intros edge (h & Hid & Ht & _) Hc. pose proof Hc as [Hs Htg]%andb_true_iff.
    exists h. unfold fire, bind at 1, get. rewrite Ht. unfold bind, clearTimeout.
    set (w1 := {| state := state w; heap := heap w; dom := dom w;
                  nodeTimeouts := nodeTimeouts w; edgeTimeouts := edgeTimeouts w;
                  timers := delete h (timers w); nextTimer := nextTimer w;
                  nextRef := nextRef w; notifications := notifications w |}).
    destruct (dom w !! edge_container edge) as [el|] eqn:Hdom.
    + destruct (syncRenderEdge_existing edge w1 Hs) as (w' & Hrun & Hf & Hd).
      { cbn. rewrite Hdom. by eexists. }
      exists w'. split; [done|]. split; [done|]. split; [by rewrite Hf|done].
    + rewrite (syncRenderEdge_absent edge w1 Hs Hdom). cbn [state w1].
      destruct (edge_differs edge (draggedEdge (state w))); eexists; split_and!; try done.
      cbn. apply lookup_insert_eq.
Qed.

(** The render of node b of the sample graph is requested, and its
    timeout fires. *)
Lemma pending_render_fires_witness :
  ∃ h w', fire h (asyncRenderNode 1 1 sample_world).2 = (Ok tt, w') ∧
          timers w' = ∅ ∧
          dom w' !! "node-b-container" = Some (Some (NodeElement "node-b" 1 1 false)).
Proof.
  destruct (asyncRenderNode_pending sample_world 1 1 node_b sample_timers_recorded eq_refl)
    as (w1 & Hrun & _ & (Hst & Hh & _) & Hpend & _).
  rewrite Hrun.
  destruct (proj1 (pending_render_fires w1) "b" 1 1 node_b
              {| sn_index := -1; sn_node := None |} Hpend)
    as (h & w' & Hid & Hfire & Ht & Hd).
  - by rewrite Hh.
  - by rewrite Hst.
  - exists h, w'. split; [exact Hfire|]. split; [|exact Hd].
    rewrite Ht. rewrite (asyncRenderNode_run sample_world 1 1 node_b eq_refl) in Hrun.
    injection Hrun as <-. cbn in Hid |- *. rewrite lookup_insert_eq in Hid.
    injection Hid as <-. by vm_compute.
Defined.

(** ** Coalescing, entity by entity *)

Lemma nodes_id_not_edges_id (s t : string) : "nodes-" ++ s ≠ "edges-" ++ t.
Proof. intros Heq. by vm_compute in Heq. Qed.

Lemma handles_apart_initial (h : gmap loc INode) : handles_apart (initial_world h).
Proof. split_and!; intros id id' k Hk; by cbn in Hk. Qed.

(** A request to draw a node cancels the pending render of its key, adds
    its own, and leaves every other pending render pending. *)
Lemma asyncRenderNode_coalesces (w : World) (node : loc) (i : nat) (n : INode) :
  timers_recorded w → handles_apart w →
  heap w !! node = Some n →
  ∃ w' h, asyncRenderNode node i w = (Ok tt, w') ∧
    timers_recorded w' ∧ handles_apart w' ∧ heap w' = heap w ∧
    ∀ h' t, timers w' !! h' = Some t ↔
      (h' = h ∧ t = RenderNodeTask node i) ∨
      (timers w !! h' = Some t ∧ timeoutId (heap w) t ≠ Some ("nodes-" ++ n_key n)).
Proof.
  intros Hrec (Hn1 & He1 & Hne1) Hn.
  destruct (asyncRenderNode_recorded w node i n Hrec Hn) as (w' & Hrun & Hrec' & Hh & _).
  exists w', (nextTimer w). split; [done|]. split; [done|].
  rewrite (asyncRenderNode_run w node i n Hn) in Hrun. injection Hrun as <-.
  destruct Hrec as (Hr & Hnt & Het & Hlt). set (id := "nodes-" ++ n_key n).
  split; [|split; [done|]].
  - split_and!; cbn.
    + intros id1 id2 h. fold id.
      destruct (decide (id = id1)) as [<-|H1], (decide (id = id2)) as [<-|H2];
        rewrite ?lookup_insert_eq, ?lookup_insert_ne by done; try done.
      * intros [= <-] H%Hnt. lia.
      * intros H%Hnt [= <-]. lia.
      * apply Hn1.
    + apply He1.
    + intros id1 id2 h. fold id. destruct (decide (id = id1)) as [<-|H1];
        rewrite ?lookup_insert_eq, ?lookup_insert_ne by done.
      * intros [= <-] H%Het. lia.
      * apply Hne1.
  - intros h' t. cbn. fold id. split.
    + destruct (decide (nextTimer w = h')) as [<-|Hne].
      { rewrite lookup_insert_eq. intros [= <-]. by left. }
      rewrite lookup_insert_ne by done. intros Ht. right.
      assert (Ht0 : timers w !! h' = Some t ∧
                    (∀ h0, nodeTimeouts w !! id = Some h0 → h' ≠ h0)).
      { destruct (nodeTimeouts w !! id) as [h0|].
        - apply lookup_delete_Some in Ht as [? ?]. split; [done|]. by intros ? [= <-].
        - done. }
      destruct Ht0 as [Ht0 Hh0]. split; [done|]. intros Hid.
      pose proof (Hr _ _ Ht0) as Hrc. unfold recorded in Hrc.
      destruct t as [node' i'|edge']; rewrite Hid in Hrc; cbn in Hrc.
      * by apply (Hh0 h').
      * cbn in Hid. injection Hid as Hid. discriminate Hid.
    + intros [[-> ->]|[Ht Hid]]; [apply lookup_insert_eq|].
      rewrite lookup_insert_ne by (apply Hlt in Ht; lia).
      destruct (nodeTimeouts w !! id) as [h0|] eqn:E0; [|done].
      rewrite lookup_delete_ne; [done|]. intros <-.
      pose proof (Hr _ _ Ht) as Hrc. unfold recorded in Hrc.
      destruct t as [node' i'|edge'];
        destruct (timeoutId (heap w) _) as [id'|] eqn:Eid; cbn in Hrc; try done.
      * apply Hid. by rewrite (Hn1 id id' h0 E0 Hrc).
      * by apply (Hne1 id id' h0 E0).
Qed.

(** The same for a request to draw an edge. *)
Lemma asyncRenderEdge_coalesces (w : World) (edge : IEdge) :
  timers_recorded w → handles_apart w →
  complete edge = true →
  ∃ w' h, asyncRenderEdge edge w = (Ok tt, w') ∧
    timers_recorded w' ∧ handles_apart w' ∧ heap w' = heap w ∧
    ∀ h' t, timers w' !! h' = Some t ↔
      (h' = h ∧ t = RenderEdgeTask edge) ∨
      (timers w !! h' = Some t ∧ timeoutId (heap w) t ≠ Some (edge_timeoutId edge)).
Proof.
  intros Hrec (Hn1 & He1 & Hne1) Hc. pose proof Hc as [Hs Htg]%andb_true_iff.
  destruct (asyncRenderEdge_recorded w edge Hrec Hs Htg) as (w' & Hrun & Hrec' & Hh & _).
  exists w', (nextTimer w). split; [done|]. split; [done|].
  rewrite (asyncRenderEdge_run w edge Hc) in Hrun. injection Hrun as <-.
  destruct Hrec as (Hr & Hnt & Het & Hlt). set (id := edge_timeoutId edge).
  split; [|split; [done|]].
  - split_and!; cbn.
    + apply Hn1.
    + intros id1 id2 h. fold id.
      destruct (decide (id = id1)) as [<-|H1], (decide (id = id2)) as [<-|H2];
        rewrite ?lookup_insert_eq, ?lookup_insert_ne by done; try done.
      * intros [= <-] H%Het. lia.
      * intros H%Het [= <-]. lia.
      * apply He1.
    + intros id1 id2 h Hid1. fold id. destruct (decide (id = id2)) as [<-|H2];
        rewrite ?lookup_insert_eq, ?lookup_insert_ne by done.
      * intros [= <-]. apply Hnt in Hid1. lia.
      * by apply (Hne1 id1).
  - intros h' t. cbn. fold id. split.
    + destruct (decide (nextTimer w = h')) as [<-|Hne].
      { rewrite lookup_insert_eq. intros [= <-]. by left. }
      rewrite lookup_insert_ne by done. intros Ht. right.
      assert (Ht0 : timers w !! h' = Some t ∧
                    (∀ h0, edgeTimeouts w !! id = Some h0 → h' ≠ h0)).
      { destruct (edgeTimeouts w !! id) as [h0|].
        - apply lookup_delete_Some in Ht as [? ?]. split; [done|]. by intros ? [= <-].
        - done. }
      destruct Ht0 as [Ht0 Hh0]. split; [done|]. intros Hid.
      pose proof (Hr _ _ Ht0) as Hrc. unfold recorded in Hrc.
      destruct t as [node' i'|edge']; rewrite Hid in Hrc; cbn in Hrc.
      * unfold id, edge_timeoutId in Hid. cbn in Hid.
        destruct (heap w !! node'); [|done]. cbn in Hid. injection Hid as Hid.
        discriminate Hid.
      * by apply (Hh0 h').
    + intros [[-> ->]|[Ht Hid]]; [apply lookup_insert_eq|].
      rewrite lookup_insert_ne by (apply Hlt in Ht; lia).
      destruct (edgeTimeouts w !! id) as [h0|] eqn:E0; [|done].
      rewrite lookup_delete_ne; [done|]. intros <-.
      pose proof (Hr _ _ Ht) as Hrc. unfold recorded in Hrc.
      destruct t as [node' i'|edge'];
        destruct (timeoutId (heap w) _) as [id'|] eqn:Eid; cbn in Hrc; try done.
      * by apply (Hne1 id' id h0 Hrc).
      * apply Hid. by rewrite (He1 id id' h0 E0 Hrc).
Qed.

(** C8.  Redraws are coalesced entity by entity.  A request to draw a
    node cancels the render that is pending for the key of the node, if
    there is one, and leaves every other pending render pending: the
    pending renders afterwards are the one of this request and those that
    were pending under another timeout id.  The same holds of a request
    to draw an edge and its pair of source and target.  So, whatever was
    requested before, after a request exactly one render is pending for
    the entity, that of the last request, and the renders of the other
    entities are as they were. *)
Theorem redraws_coalesced_per_key (w : World) :
  timers_recorded w →
  handles_apart w →
  (∀ node i n,
     heap w !! node = Some n →
     ∃ w' h, asyncRenderNode node i w = (Ok tt, w') ∧
       timers_recorded w' ∧ handles_apart w' ∧ heap w' = heap w ∧
       ∀ h' t, timers w' !! h' = Some t ↔
         (h' = h ∧ t = RenderNodeTask node i) ∨
         (timers w !! h' = Some t ∧
          timeoutId (heap w) t ≠ Some ("nodes-" ++ n_key n))) ∧
  (∀ edge,
     complete edge = true →
     ∃ w' h, asyncRenderEdge edge w = (Ok tt, w') ∧
       timers_recorded w' ∧ handles_apart w' ∧ heap w' = heap w ∧
       ∀ h' t, timers w' !! h' = Some t ↔
         (h' = h ∧ t = RenderEdgeTask edge) ∨
         (timers w !! h' = Some t ∧
          timeoutId (heap w) t ≠ Some (edge_timeoutId edge))) ∧
  (∀ (requests : list (loc * nat)) (node : loc) (i : nat) (n : INode),
     Forall (λ r, is_Some (heap w !! r.1)) requests →
     heap w !! node = Some n →
     ∃ w' h,
       forEach (requests ++ [(node, i)])%list (λ r, asyncRenderNode r.1 r.2) w
         = (Ok tt, w') ∧
       timers w' !! h = Some (RenderNodeTask node i) ∧
       ∀ h' node' i',
         timers w' !! h' = Some (RenderNodeTask node' i') →
         n_key <$> heap w' !! node' = Some (n_key n) →
         h' = h ∧ node' = node ∧ i' = i) ∧
  (∀ (requests : list IEdge) (edge : IEdge),
     truthy (e_source edge) = true →
     truthy (e_target edge) = true →
     ∃ w' h,
       forEach (requests ++ [edge])%list asyncRenderEdge w = (Ok tt, w') ∧
       timers w' !! h = Some (RenderEdgeTask edge) ∧
       ∀ h' edge',
         timers w' !! h' = Some (RenderEdgeTask edge') →
         e_source edge' = e_source edge →
         e_target edge' = e_target edge →
         h' = h ∧ edge' = edge).
Proof.
  intros Hrec Hapart. split_and!.
  - intros node i n. by apply asyncRenderNode_coalesces.
  - intros edge. by apply asyncRenderEdge_coalesces.
  - apply (proj1 (redraws_coalesced w Hrec)).
  - apply (proj2 (redraws_coalesced w Hrec)).
Qed.

(** After construction renders are requested for node a, for node b and
    for node a again: the render of b is still pending, the first render
    of a is not. *)
Lemma redraws_coalesced_per_key_witness :
  ∃ w',
    (asyncRenderNode 0 0 ;;; asyncRenderNode 1 1 ;;; asyncRenderNode 0 5)
      (initial_world sample_heap) = (Ok tt, w') ∧
    (∃ h, timers w' !! h = Some (RenderNodeTask 0 5)) ∧
    (∃ h, timers w' !! h = Some (RenderNodeTask 1 1)) ∧
    (∀ h t, timers w' !! h = Some t → t = RenderNodeTask 0 5 ∨ t = RenderNodeTask 1 1).
Proof.
  destruct (proj1 (redraws_coalesced_per_key (initial_world sample_heap)
                     (initial_timers_recorded sample_heap)
                     (handles_apart_initial sample_heap)) 0 0 node_a eq_refl)
    as (w1 & h1 & Hrun1 & Hrec1 & Hapart1 & Hh1 & Ht1).
  destruct (proj1 (redraws_coalesced_per_key w1 Hrec1 Hapart1) 1 1 node_b)
    as (w2 & h2 & Hrun2 & Hrec2 & Hapart2 & Hh2 & Ht2); [by rewrite Hh1|].
  destruct (proj1 (redraws_coalesced_per_key w2 Hrec2 Hapart2) 0 5 node_a)
    as (w3 & h3 & Hrun3 & _ & _ & _ & Ht3); [by rewrite Hh2, Hh1|].
  exists w3. unfold bind. rewrite Hrun1, Hrun2. split; [exact Hrun3|].
  rewrite Hh2, Hh1 in Ht3. rewrite Hh1 in Ht2.
  split_and!.
  - exists h3. apply Ht3. by left.
  - exists h2. apply Ht3. right. split; [apply Ht2; by left|by vm_compute].
  - intros h t [[_ ->]|[Ht Hid]]%Ht3; [by left|].
    apply Ht2 in Ht as [[_ ->]|[Ht Hid2]]; [by right|].
    apply Ht1 in Ht as [[_ ->]|[Ht _]]; [by vm_compute in Hid|].
    by vm_compute in Ht.
Defined.

End RenderFacts.

(** * Properties of the reconciliation after an update *)

Module ReconcileFacts.
Import GraphView GraphViewFacts RenderFacts.
Local Open Scope string_scope.

(** ** New nodes and edges *)

(** X1.  addNewNodes requests a render of every node of the collection it
    is given, whether the old index holds the node or not.  Afterwards the
    render pending under a node key is that of the last node with the
    key, with its index; the timers apart, the world is as before.
    While an edge is dragged addNewNodes does nothing.  renderNodes, for
    a view whose entities are mounted, requests the same renders. *)
Theorem addNewNodes_requests_every_node (w : World) (nodes0 : list loc)
    (oldNodesMap : gmap string INodeMapNode) :
  timers_recorded w →
  (∀ (i : nat) node, nodes0 !! i = Some node → is_Some (heap w !! node)) →
  (draggingEdge (state w) = true → addNewNodes nodes0 oldNodesMap w = (Ok tt, w)) ∧
  (draggingEdge (state w) = false →
   ∃ w', addNewNodes nodes0 oldNodesMap w = (Ok tt, w') ∧
     timers_recorded w' ∧ same_but_timers w w' ∧
     ∀ (i : nat) node n,
       nodes0 !! i = Some node →
       heap w !! node = Some n →
       (∀ (j : nat) node' n', nodes0 !! j = Some node' → heap w !! node' = Some n' →
                              n_key n' = n_key n → (j ≤ i)%nat) →
       node_render_pending w' (n_key n) node i) ∧
  (draggingEdge (state w) = false →
   addNewNodes (nodes (state w)) oldNodesMap w = renderNodes true w).
Proof.
  intros Hrec Hall.
  assert (Hbody : ∀ l, forEach (imap (λ i node, (node, i)) l) (λ '(node, i),
      let* n := load node in
      let prevNode := oldNodesMap !! ("key-" ++ n_key n) in
      if match prevNode with
         | Some prev => negb (bool_decide (node = nm_node prev))
         | None => false
         end
      then asyncRenderNode node i
      else asyncRenderNode node i) w =
    forEach (imap (λ i node, (node, i)) l) (λ r, asyncRenderNode r.1 r.2) w).
  { intros l. apply forEach_ext. intros [node i] w0. cbn.
    destruct (heap w0 !! node) as [n|] eqn:Hn.
    - unfold bind at 1, load. rewrite Hn.
      by destruct (match oldNodesMap !! _ with Some _ => _ | None => _ end).
    - unfold bind at 1, load. rewrite Hn.
      unfold asyncRenderNode, bind, load. by rewrite Hn. }
  split_and!.
  - intros Hd. unfold addNewNodes, bind, get. by rewrite Hd.
  - intros Hd. unfold addNewNodes, bind at 1, get. rewrite Hd, Hbody.
    destruct (forEach_asyncRenderNode_pending (imap (λ i node, (node, i)) nodes0) w Hrec)
      as (w' & Hrun & Hrec' & Hsame & Hpend).
    { intros k r. rewrite list_lookup_imap.
      destruct (nodes0 !! k) as [node|] eqn:Hk; [|done]. intros [= <-]. by eapply Hall. }
    exists w'. split_and!; try done.
    intros i node n Hi Hn Hlast. apply (Hpend i); [|done|].
    + by rewrite list_lookup_imap, Hi.
    + intros k' r n'. rewrite list_lookup_imap.
      destruct (nodes0 !! k') as [node'|] eqn:Hk'; [|done]. intros [= <-]. cbn.
      by apply Hlast.
  - intros Hd. unfold addNewNodes, renderNodes, bind at 1, get. rewrite Hd. cbn [negb].
    rewrite Hbody. unfold bind, get. apply forEach_ext. by intros [node i].
Qed.

(** The three nodes of the sample graph: the render of node b is pending
    at index 1. *)
Lemma addNewNodes_requests_every_node_witness :
  ∃ w', addNewNodes [0; 1; 2] ∅ sample_world = (Ok tt, w') ∧
        node_render_pending w' "b" 1 1.
Proof.
  destruct (addNewNodes_requests_every_node sample_world [0; 1; 2] ∅
              sample_timers_recorded) as (_ & Hrun & _).
  - intros [|[|[|i]]] node; intros [= <-]; by eexists.
  - destruct (Hrun eq_refl) as (w' & Hw' & _ & _ & Hpend).
    exists w'. split; [exact Hw'|].
    apply (Hpend 1 1 node_b eq_refl eq_refl).
    intros j node' n' Hj Hn' Hkey.
    destruct j as [|[|[|j]]]; [lia|lia| |done].
    injection Hj as <-. vm_compute in Hn'. injection Hn' as <-. discriminate Hkey.
Defined.

(** X2.  addNewEdges requests a render of the complete edges that the old
    index does not hold, and of no other edge: the render pending under
    the timeout id of such an edge is that of the last one with the id,
    every render that was not pending before is the render of such an
    edge, and nothing changes if there is none.  While an edge is dragged
    addNewEdges does nothing.  renderEdges requests the renders that
    addNewEdges requests when the old index is empty. *)
Theorem addNewEdges_requests_new_edges (w : World) (edges0 : list IEdge)
    (oldEdgesMap : gmap string IEdgeMapEdge) :
  timers_recorded w →
  (draggingEdge (state w) = true → addNewEdges edges0 oldEdgesMap w = (Ok tt, w)) ∧
  (draggingEdge (state w) = false →
   ∃ w', addNewEdges edges0 oldEdgesMap w = (Ok tt, w') ∧
     timers_recorded w' ∧ same_but_timers w w' ∧
     (∀ (k : nat) edge,
        edges0 !! k = Some edge →
        unindexed oldEdgesMap edge = true →
        (∀ (k' : nat) edge', edges0 !! k' = Some edge' →
           unindexed oldEdgesMap edge' = true →
           edge_timeoutId edge' = edge_timeoutId edge → (k' ≤ k)%nat) →
        edge_render_pending w' edge) ∧
     (∀ h t, timers w' !! h = Some t →
        timers w !! h = Some t ∨
        ∃ edge, t = RenderEdgeTask edge ∧ edge ∈ edges0 ∧
                unindexed oldEdgesMap edge = true) ∧
     ((∀ edge, edge ∈ edges0 → unindexed oldEdgesMap edge = false) → w' = w)) ∧
  (draggingEdge (state w) = false →
   renderEdges true w = addNewEdges (edges (state w)) ∅ w).
Proof.
  intros Hrec.
  assert (Hbody : ∀ old l w0, forEach l (λ edge,
      if negb (truthy (e_source edge)) || negb (truthy (e_target edge)) then ret tt
      else
        let prevEdge :=
          old !! (template (e_source edge) ++ "_" ++ template (e_target edge)) in
        if negb (bool_decide (is_Some prevEdge)) then asyncRenderEdge edge
        else ret tt) w0 =
    forEach l (λ edge, if unindexed old edge then asyncRenderEdge edge else ret tt) w0).
  { intros old l w0. apply forEach_ext. intros edge w1. unfold unindexed, complete, edge_key.
    by destruct (truthy (e_source edge)), (truthy (e_target edge)). }
  split_and!.
  - intros Hd. unfold addNewEdges, bind, get. by rewrite Hd.
  - intros Hd. unfold addNewEdges, bind at 1, get. rewrite Hd. cbn [negb]. rewrite Hbody.
    apply forEach_unindexed_pending, Hrec.
  - intros Hd. unfold renderEdges, addNewEdges, bind at 1, get, bind at 1, get.
    rewrite Hd. cbn [negb orb]. rewrite Hbody. apply forEach_ext. intros edge w1.
    unfold unindexed, complete. rewrite lookup_empty.
    rewrite (bool_decide_eq_false_2 (is_Some None)) by (by intros [? ?]).
    cbn [negb]. rewrite andb_true_r. unfold asyncRenderEdge.
    by destruct (truthy (e_source edge)), (truthy (e_target edge)).
Qed.

(** The sample graph with a third edge, from b to c, that the index does
    not hold yet: its render is the only one requested. *)
Lemma addNewEdges_requests_new_edges_witness :
  let edge_bc := {| e_ref := Supplied 2; e_source := Some "b"; e_target := Some "c";
                    e_targetPosition := None |} in
  ∃ w', addNewEdges [edge_ab; edge_ac; edge_bc] (edgesMap (state sample_world))
          sample_world = (Ok tt, w') ∧
        edge_render_pending w' edge_bc ∧
        ∀ h t, timers w' !! h = Some t → t = RenderEdgeTask edge_bc.
Proof.
  intros edge_bc.
  destruct (addNewEdges_requests_new_edges sample_world [edge_ab; edge_ac; edge_bc]
              (edgesMap (state sample_world)) sample_timers_recorded)
    as (_ & Hrun & _).
  destruct (Hrun eq_refl) as (w' & Hw' & _ & _ & Hpend & Honly & _).
  exists w'. split; [exact Hw'|]. split.
  - apply (Hpend 2 edge_bc eq_refl); [by vm_compute|].
    intros k' edge' Hk' _ _. apply lookup_lt_Some in Hk'. cbn in Hk'. lia.
  - intros h t [Ht|(edge & -> & Hin & Hnew)]%Honly.
    + vm_compute in Ht. discriminate.
    + apply elem_of_cons in Hin as [->|Hin]; [by vm_compute in Hnew|].
      apply elem_of_cons in Hin as [->|Hin]; [by vm_compute in Hnew|].
      apply list_elem_of_singleton in Hin as ->. done.
Defined.

(** ** Entities that are gone *)

Lemma forEach_remove {A} (l : list A) (p : A → bool) (ident : A → string) (w : World) :
  ∃ w', forEach l (λ a, if p a then removeElementFromDom (ident a) else ret tt) w
        = (Ok tt, w') ∧
        dom_frame w w' ∧
        (∀ a, a ∈ l → p a = true → dom w' !! ident a = None) ∧
        (∀ k, (∀ a, a ∈ l → p a = true → k ≠ ident a) → dom w' !! k = dom w !! k) ∧
        (∀ k, dom w' !! k = None ∨ dom w' !! k = dom w !! k).
Proof.
  revert w. induction l as [|a l IH]; intros w.
  - exists w. split_and!; try done.
    + apply dom_frame_refl.
    + intros a Ha. by apply elem_of_nil in Ha.
    + by right.
  - cbn. unfold bind.
    assert (∃ w1, (if p a then removeElementFromDom (ident a) else ret tt) w = (Ok tt, w1) ∧
                  dom_frame w w1 ∧
                  dom w1 = if p a then delete (ident a) (dom w) else dom w)
      as (w1 & -> & Hf1 & Hd1).
    { destruct (p a).
      - exists (with_dom (delete (ident a)) w).
        split_and!; [done|apply dom_frame_with_dom|done].
      - exists w. split_and!; [done|apply dom_frame_refl|done]. }
    destruct (IH w1) as (w2 & -> & Hf2 & Ha2 & Hb2 & Hc2).
    exists w2. split; [done|]. split; [by eapply dom_frame_trans|].
    assert (Hmono : ∀ k, dom w2 !! k = None ∨ dom w2 !! k = dom w !! k).
    { intros k. destruct (Hc2 k) as [?|Hk]; [by left|]. rewrite Hk, Hd1.
      destruct (p a); [|by right].
      destruct (decide (ident a = k)) as [->|?].
      - left. apply lookup_delete_eq.
      - right. by rewrite lookup_delete_ne. }
    split_and!; [| |done].
    + intros a' [->|Ha']%elem_of_cons Hp.
      * destruct (Hc2 (ident a)) as [?|Hk]; [done|]. rewrite Hk, Hd1, Hp.
        apply lookup_delete_eq.
      * by apply Ha2.
    + intros k Hk. rewrite Hb2.
      * rewrite Hd1. destruct (p a) eqn:Hp; [|done].
        rewrite lookup_delete_ne; [done|]. intros Heq. eapply Hk; [|done|done]. by left.
      * intros a' Ha'. apply Hk. by right.
Qed.

(** X3.  removeOldEdges removes the elements of the previous edges that
    are complete and that the new index does not hold, and no other
    element.  The element of an edge that the new index holds stays,
    provided no source key of the edges involved contains a hyphen (the
    element id joins the keys with hyphens and the index key does not). *)
Theorem removeOldEdges_removes_unindexed (w : World) (prevEdges : list IEdge)
    (edgesMap0 : gmap string IEdgeMapEdge) :
  ∃ w', removeOldEdges prevEdges edgesMap0 w = (Ok tt, w') ∧
    dom_frame w w' ∧
    (∀ edge, edge ∈ prevEdges → unindexed edgesMap0 edge = true →
       dom w' !! edge_element_id edge = None) ∧
    (∀ k, (∀ edge, edge ∈ prevEdges → unindexed edgesMap0 edge = true →
             k ≠ edge_element_id edge) →
          dom w' !! k = dom w !! k) ∧
    (∀ edge,
       is_Some (edgesMap0 !! edge_key edge) →
       hyphen_free (template (e_source edge)) = true →
       (∀ edge', edge' ∈ prevEdges → hyphen_free (template (e_source edge')) = true) →
       dom w' !! edge_element_id edge = dom w !! edge_element_id edge).
Proof.
  destruct (forEach_remove prevEdges (unindexed edgesMap0) edge_element_id w)
    as (w' & Hrun & Hf & Ha & Hb & _).
  exists w'. split.
  - rewrite <- Hrun. unfold removeOldEdges. apply forEach_ext. intros edge w0.
    unfold unindexed, complete, edge_key, removeEdgeElement, edge_element_id.
    by destruct (truthy (e_source edge)), (truthy (e_target edge)).
  - split_and!; try done.
    intros edge Hin Hfree Hall. apply Hb. intros edge' Hin' Hun Heq.
    apply edge_element_id_inj in Heq; [|done|by apply Hall].
    unfold unindexed in Hun. apply andb_true_iff in Hun as [_ Hun].
    apply negb_true_iff, bool_decide_eq_false in Hun. apply Hun. by rewrite <- Heq.
Qed.

(** The rendered sample graph after edge a-b left the graph: its element
    is removed, that of edge a-c stays. *)
Lemma removeOldEdges_removes_unindexed_witness :
  let index : gmap string IEdgeMapEdge :=
    {[ "a_c" := {| em_edge := edge_ac; em_originalArrIndex := 0 |} ]} in
  ∃ w', removeOldEdges [edge_ab; edge_ac] index rendered_world = (Ok tt, w') ∧
        dom w' !! "edge-a-b-container" = None ∧
        dom w' !! "edge-a-c-container" = dom rendered_world !! "edge-a-c-container".
Proof.
  intros index.
  destruct (removeOldEdges_removes_unindexed rendered_world [edge_ab; edge_ac] index)
    as (w' & Hrun & _ & Hgone & _ & Hstays).
  exists w'. split; [exact Hrun|]. split.
  - apply (Hgone edge_ab); [apply list_elem_of_here|by vm_compute].
  - apply (Hstays edge_ac); [by eexists|by vm_compute|].
    intros edge' Hin. apply elem_of_cons in Hin as [->|Hin]; [by vm_compute|].
    apply list_elem_of_singleton in Hin as ->. by vm_compute.
Defined.

Lemma forEach_removeEdgeElement (l : list IEdge) (w : World) :
  ∃ w', forEach l (λ edge, removeEdgeElement (e_source edge) (e_target edge)) w
        = (Ok tt, w') ∧
        dom_frame w w' ∧
        (∀ k, k ∈ edge_element_id <$> l → dom w' !! k = None) ∧
        (∀ k, k ∉ edge_element_id <$> l → dom w' !! k = dom w !! k) ∧
        (∀ k, dom w' !! k = None ∨ dom w' !! k = dom w !! k).
Proof.
  destruct (forEach_remove l (λ _, true) edge_element_id w) as (w' & Hrun & Hf & Ha & Hb & Hc).
  exists w'. split_and!; try done.
  - intros k (edge & -> & Hin)%list_elem_of_fmap. by apply Ha.
  - intros k Hk. apply Hb. intros edge Hin _ ->. apply Hk, list_elem_of_fmap. by exists edge.
Qed.

Lemma removeOldNodes_list (l : list (string * INodeMapNode))
    (nodesMap0 : gmap string INodeMapNode) (w : World) :
  (∀ nodeId entry, (nodeId, entry) ∈ l → nodesMap0 !! nodeId = None →
     is_Some (heap w !! nm_node entry)) →
  ∃ w', forEach l (λ '(nodeId, prevNode),
          if bool_decide (is_Some (nodesMap0 !! nodeId)) then ret tt
          else
            forEach (nm_outgoingEdges prevNode)
              (λ edge, removeEdgeElement (e_source edge) (e_target edge)) ;;;
            forEach (nm_incomingEdges prevNode)
              (λ edge, removeEdgeElement (e_source edge) (e_target edge)) ;;;
            let* n := load (nm_node prevNode) in
            removeElementFromDom ("node-" ++ n_key n ++ "-container")) w = (Ok tt, w') ∧
    dom_frame w w' ∧
    (∀ nodeId entry n k, (nodeId, entry) ∈ l → nodesMap0 !! nodeId = None →
       heap w !! nm_node entry = Some n → k ∈ departed_ids n entry →
       dom w' !! k = None) ∧
    (∀ k, (∀ nodeId entry n, (nodeId, entry) ∈ l → nodesMap0 !! nodeId = None →
             heap w !! nm_node entry = Some n → k ∉ departed_ids n entry) →
          dom w' !! k = dom w !! k) ∧
    (∀ k, dom w' !! k = None ∨ dom w' !! k = dom w !! k).
Proof.
  revert w. induction l as [|[nodeId entry] l IH]; intros w Hload.
  - exists w. split_and!; try done.
    + apply dom_frame_refl.
    + intros ???? Hin. by apply elem_of_nil in Hin.
    + by right.
  - cbn [forEach]. unfold bind at 1.
    assert (∃ w1,
      (if bool_decide (is_Some (nodesMap0 !! nodeId)) then ret tt
       else
         forEach (nm_outgoingEdges entry)
           (λ edge, removeEdgeElement (e_source edge) (e_target edge)) ;;;
         forEach (nm_incomingEdges entry)
           (λ edge, removeEdgeElement (e_source edge) (e_target edge)) ;;;
         let* n := load (nm_node entry) in
         removeElementFromDom ("node-" ++ n_key n ++ "-container")) w = (Ok tt, w1) ∧
      dom_frame w w1 ∧
      (∀ n k, nodesMap0 !! nodeId = None → heap w !! nm_node entry = Some n →
         k ∈ departed_ids n entry → dom w1 !! k = None) ∧
      (∀ k, (∀ n, nodesMap0 !! nodeId = None → heap w !! nm_node entry = Some n →
               k ∉ departed_ids n entry) → dom w1 !! k = dom w !! k) ∧
      (∀ k, dom w1 !! k = None ∨ dom w1 !! k = dom w !! k))
      as (w1 & -> & Hf1 & Ha1 & Hb1 & Hc1).
    { destruct (nodesMap0 !! nodeId) as [m|] eqn:Hcur.
      - rewrite bool_decide_eq_true_2 by (by eexists). exists w.
        split_and!; try done; [apply dom_frame_refl|by right].
      - rewrite bool_decide_eq_false_2 by (by intros [? ?]).
        destruct (Hload nodeId entry) as [n Hn]; [by left|done|].
        unfold bind at 1.
        destruct (forEach_removeEdgeElement (nm_outgoingEdges entry) w)
          as (wa & -> & Hfa & Haa & Hba & Hca).
        unfold bind at 1.
        destruct (forEach_removeEdgeElement (nm_incomingEdges entry) wa)
          as (wb & -> & Hfb & Hab & Hbb & Hcb).
        assert (Hnb : heap wb !! nm_node entry = Some n).
        { rewrite Hfb. cbn. rewrite Hfa. done. }
        unfold bind, load. rewrite Hnb. unfold removeElementFromDom, modify.
        eexists. split; [done|].
        split; [eapply dom_frame_trans; [eapply dom_frame_trans; [exact Hfa|exact Hfb]|];
                apply dom_frame_with_dom|].
        assert (Hmono : ∀ k, dom wb !! k = None ∨ dom wb !! k = dom w !! k).
        { intros k. destruct (Hcb k) as [?|Hk]; [by left|]. rewrite Hk. apply Hca. }
        split_and!.
        + intros n' k _ Hn' Hk. rewrite Hn in Hn'. injection Hn' as <-. cbn.
          destruct (decide ("node-" ++ n_key n ++ "-container" = k)) as [->|Hne].
          { apply lookup_delete_eq. }
          rewrite lookup_delete_ne by done.
          unfold departed_ids in Hk. rewrite !elem_of_app in Hk.
          destruct Hk as [Hk|[Hk|Hk]].
          * destruct (Hcb k) as [?|Hk']; [done|]. rewrite Hk'. by apply Haa.
          * by apply Hab.
          * apply list_elem_of_singleton in Hk. by subst.
        + intros k Hk. specialize (Hk n eq_refl Hn). unfold departed_ids in Hk.
          rewrite !not_elem_of_app in Hk. destruct Hk as (Hk1 & Hk2 & Hk3).
          cbn. rewrite lookup_delete_ne.
          * rewrite Hbb, Hba; done.
          * intros <-. apply Hk3. by apply list_elem_of_singleton.
        + intros k. cbn. destruct (decide ("node-" ++ n_key n ++ "-container" = k)) as [->|Hne].
          * left. apply lookup_delete_eq.
          * rewrite lookup_delete_ne by done. apply Hmono. }
    destruct (IH w1) as (w2 & -> & Hf2 & Ha2 & Hb2 & Hc2).
    { intros nodeId' entry' Hin Hcur. rewrite Hf1. cbn.
      apply (Hload nodeId'); [by right|done]. }
    assert (Hheap : heap w1 = heap w) by (by rewrite Hf1).
    exists w2. split; [done|]. split; [by eapply dom_frame_trans|].
    split_and!.
    + intros nodeId' entry' n k [[= -> ->]|Hin]%elem_of_cons Hcur Hn Hk.
      * destruct (Hc2 k) as [?|Hk']; [done|]. rewrite Hk'. by eapply Ha1.
      * eapply Ha2; try done. by rewrite Hheap.
    + intros k Hk. rewrite Hb2.
      * apply Hb1. intros n Hcur Hn. eapply Hk; [by left|done|done].
      * intros nodeId' entry' n Hin Hcur Hn. rewrite Hheap in Hn.
        eapply Hk; [by right|done|done].
    + intros k. destruct (Hc2 k) as [?|Hk]; [by left|]. rewrite Hk. apply Hc1.
Qed.

(** X4.  removeOldNodes removes, for every node of the previous index
    whose key the new index does not hold, the container of the node and
    the containers of the edges its previous index entry lists; it adds no
    element.  The container of a node whose key the new index holds
    stays, where the previous index files every node under its key. *)
Theorem removeOldNodes_removes_departed (w : World)
    (prevNodeMap nodesMap0 : gmap string INodeMapNode) :
  (∀ nodeId entry, prevNodeMap !! nodeId = Some entry → nodesMap0 !! nodeId = None →
     is_Some (heap w !! nm_node entry)) →
  ∃ w', removeOldNodes prevNodeMap nodesMap0 w = (Ok tt, w') ∧
    dom_frame w w' ∧
    (∀ nodeId entry n k,
       prevNodeMap !! nodeId = Some entry → nodesMap0 !! nodeId = None →
       heap w !! nm_node entry = Some n → k ∈ departed_ids n entry →
       dom w' !! k = None) ∧
    (∀ k, dom w' !! k = None ∨ dom w' !! k = dom w !! k) ∧
    (∀ key,
       (∀ nodeId entry n, prevNodeMap !! nodeId = Some entry →
          heap w !! nm_node entry = Some n → nodeId = "key-" ++ n_key n) →
       is_Some (nodesMap0 !! ("key-" ++ key)) →
       dom w' !! ("node-" ++ key ++ "-container") =
         dom w !! ("node-" ++ key ++ "-container")).
Proof.
  intros Hload.
  destruct (removeOldNodes_list (map_to_list prevNodeMap) nodesMap0 w)
    as (w' & Hrun & Hf & Ha & Hb & Hc).
  { intros nodeId entry Hin%elem_of_map_to_list. by apply Hload. }
  exists w'. split; [exact Hrun|]. split; [done|]. split_and!; [|done|].
  - intros nodeId entry n k Hin. apply Ha. by apply elem_of_map_to_list.
  - intros key Hfiled Hcur. apply Hb.
    intros nodeId entry n Hin%elem_of_map_to_list Hgone Hn Hk.
    unfold departed_ids in Hk. rewrite !elem_of_app in Hk.
    destruct Hk as [Hk|[Hk|Hk]].
    + apply list_elem_of_fmap in Hk as (edge & Heq & _).
      apply (node_id_not_edge_id (key ++ "-container")). eexists. exact Heq.
    + apply list_elem_of_fmap in Hk as (edge & Heq & _).
      apply (node_id_not_edge_id (key ++ "-container")). eexists. exact Heq.
    + apply list_elem_of_singleton, node_container_inj in Hk as ->.
      rewrite (Hfiled nodeId entry n Hin Hn) in Hgone. rewrite Hgone in Hcur.
      by destruct Hcur.
Qed.

(** Node a of the rendered sample graph left the graph with its two
    edges. *)
Lemma removeOldNodes_removes_departed_witness :
  let entry_a := {| nm_node := 0; nm_originalArrIndex := 0; nm_incomingEdges := [];
                    nm_outgoingEdges := [edge_ab; edge_ac] |} in
  ∃ w', removeOldNodes {[ "key-a" := entry_a ]} ∅ rendered_world = (Ok tt, w') ∧
        dom w' !! "node-a-container" = None ∧
        dom w' !! "edge-a-b-container" = None ∧
        dom w' !! "edge-a-c-container" = None.
Proof.
  intros entry_a.
  destruct (removeOldNodes_removes_departed rendered_world {[ "key-a" := entry_a ]} ∅)
    as (w' & Hrun & _ & Hgone & _).
  - intros nodeId entry [_ <-]%lookup_singleton_Some _. by eexists.
  - exists w'. split; [exact Hrun|].
    assert (Hids : ∀ k, k ∈ departed_ids node_a entry_a → dom w' !! k = None).
    { intros k. by apply (Hgone "key-a" entry_a node_a k). }
    split_and!; apply Hids; vm_compute;
      repeat first [apply list_elem_of_here|apply list_elem_of_further].
Defined.

End ReconcileFacts.

(** * Properties of the edit handlers and of the gestures *)

Module EditFacts.
Import GraphView GraphViewFacts RenderFacts.
Local Open Scope string_scope.

(** ** What the delete functions do to an entity the index holds *)

Lemma deleteEdge_run (w : World) (edge : IEdge) (entry : IEdgeMapEdge) :
  complete edge = true →
  edgesMap (state w) !! edge_key edge = Some entry →
  ∃ w', deleteEdge edge w = (Ok tt, w') ∧
    edges (state w') = delete (em_originalArrIndex entry) (edges (state w)) ∧
    edgesMap (state w') = delete (edge_key edge) (edgesMap (state w)) ∧
    nodes (state w') = nodes (state w) ∧
    nodesMap (state w') = nodesMap (state w) ∧
    selectedEdgeObj (state w') = selectedEdgeObj (state w) ∧
    selectedNodeObj (state w') = selectedNodeObj (state w) ∧
    componentUpToDate (state w') = false ∧
    heap w' = heap w ∧
    dom w' = delete (edge_container edge) (dom w) ∧
    notifications w' =
      (notifications w ++
       [onDeleteEdge edge (em_originalArrIndex entry) (edges (state w'))])%list.
Proof.
  intros [Hs Ht]%andb_true_iff Hentry. eexists. split.
  - unfold deleteEdge. rewrite Hs, Ht. cbn [negb orb andb].
    unfold bind at 1, get, bind at 1, deref, getEdgeBySourceTarget.
    fold (edge_key edge). rewrite Hentry. reflexivity.
  - cbn. split_and!; try done.
    unfold edge_container. rewrite Ht. do 2 f_equal.
    by rewrite !string_app_assoc.
Qed.

Lemma deleteNode_run (w : World) (node : loc) (n : INode) (entry : INodeMapNode) :
  heap w !! node = Some n →
  getNodeById (Some (n_key n)) (state w) = Some entry →
  ∃ w', deleteNode (ENode node) w = (Ok tt, w') ∧
    nodes (state w') = delete (nm_originalArrIndex entry) (nodes (state w)) ∧
    nodesMap (state w') = delete ("key-" ++ n_key n) (nodesMap (state w)) ∧
    edges (state w') = edges (state w) ∧
    edgesMap (state w') = edgesMap (state w) ∧
    selectedNodeObj (state w') = selectedNodeObj (state w) ∧
    selectedEdgeObj (state w') = selectedEdgeObj (state w) ∧
    heap w' = heap w ∧
    dom w' = delete ("node-" ++ n_key n ++ "-container") (dom w) ∧
    notifications w' =
      (notifications w ++
       [onDeleteNode (ENode node) (nm_originalArrIndex entry) (nodes (state w'));
        onSelectNode None])%list.
Proof.
  intros Hn Hentry. eexists. split.
  - unfold deleteNode, bind at 1, bind at 1, load. rewrite Hn.
    unfold ret, bind at 1, get, bind at 1, deref. rewrite Hentry.
    reflexivity.
  - cbn. split_and!; try done. by rewrite <- (assoc_L (++)%list).
Qed.

(** ** Moving a node *)

Lemma handleNodeMove_moves (props : Props) (w : World) (position : IPoint) (index : nat)
    (node : loc) (n : INode) :
  nodes (state w) !! index = Some node →
  heap w !! node = Some n →
  ∃ w', handleNodeMove props position index false w = (Ok tt, w') ∧
    dom_frame (if readOnly props then w
               else with_heap (<[node := assign_position position n]>) w) w' ∧
    ∀ k, ¬ edge_id k → dom w' !! k = dom w !! k.
Proof.
  intros Hnode Hn.
  unfold handleNodeMove, bind at 1, get.
  destruct (readOnly props).
  { exists w. split; [done|]. split; [apply dom_frame_refl|done]. }
  cbn [negb].
  rewrite Hnode. unfold bind at 1, deref, ret, bind at 1, load. rewrite Hn.
  unfold bind at 1, modify, bind at 1, get.
  set (w1 := with_heap _ w).
  destruct (getNodeById (Some (n_key n)) (state w1)) as [m|].
  + unfold bind.
    destruct (forEach_syncRenderEdge_ok (nm_incomingEdges m) w1) as (w2 & -> & Hf2 & Hk2).
    destruct (forEach_syncRenderEdge_ok (nm_outgoingEdges m) w2) as (w3 & -> & Hf3 & Hk3).
    exists w3. split; [done|]. split; [by eapply dom_frame_trans|].
    intros k Hk. by rewrite Hk3, Hk2.
  + exists w1. split; [done|]. split; [apply dom_frame_refl|done].
Qed.

(** X7.  While a node is moved (handleNodeMove without the modifier key,
    in a graph that is not read-only), the position is written into the
    node object and nothing else changes but rendered elements, of which
    only edge elements change: the state of the component and the
    notifications are as before, so the caller is told of no move.  With
    an index outside the node collection the handler throws a TypeError
    and changes nothing. *)
Theorem handleNodeMove_moves_silently (props : Props) (w : World) (position : IPoint)
    (index : nat) :
  readOnly props = false →
  (∀ node n,
     nodes (state w) !! index = Some node →
     heap w !! node = Some n →
     ∃ w', handleNodeMove props position index false w = (Ok tt, w') ∧
       dom_frame (with_heap (<[node := assign_position position n]>) w) w' ∧
       ∀ k, ¬ edge_id k → dom w' !! k = dom w !! k) ∧
  (nodes (state w) !! index = None →
   handleNodeMove props position index false w = (Throw TypeError, w)).
Proof.
  intros Hro. split.
  - intros node n Hnode Hn.
    destruct (handleNodeMove_moves props w position index node n Hnode Hn)
      as (w' & Hrun & Hf & Hk).
    rewrite Hro in Hf. by exists w'.
  - intros Hnode. unfold handleNodeMove, bind at 1, get. rewrite Hro. cbn [negb].
    by rewrite Hnode.
Qed.

(** Node b of the sample graph is moved. *)
Lemma handleNodeMove_moves_silently_witness :
  ∃ w', handleNodeMove default_props {| p_x := 30; p_y := 40 |} 1 false sample_world
        = (Ok tt, w') ∧
        heap w' !! 1 = Some (assign_position {| p_x := 30; p_y := 40 |} node_b) ∧
        state w' = state sample_world ∧
        notifications w' = [].
Proof.
  destruct (proj1 (handleNodeMove_moves_silently default_props sample_world
                     {| p_x := 30; p_y := 40 |} 1 eq_refl) 1 node_b eq_refl eq_refl)
    as (w' & Hrun & Hf & _).
  exists w'. split; [exact Hrun|]. split_and!.
  - rewrite (dom_frame_heap _ _ Hf). reflexivity.
  - rewrite (dom_frame_state _ _ Hf). reflexivity.
  - rewrite (dom_frame_notifications _ _ Hf). reflexivity.
Defined.

(** ** Drawing an edge *)

(** createNewEdge leaves the dragging flag alone unless it calls onCreateEdge *)
Lemma createNewEdge_keeps_dragging (props : Props) (w : World) (r : Result unit)
    (w' : World) :
  createNewEdge props w = (r, w') →
  notifications w' = notifications w →
  dom_frame w w'.
Proof.
  unfold createNewEdge, bind at 1, get, bind at 1, removeElementFromDom, modify.
  unfold ret, throw, deref. set (w1 := with_dom _ w).
  assert (Hf1 : dom_frame w w1) by apply dom_frame_with_dom.
  destruct (edgeEndNode (state w)) as [target|]; [|by intros [= <- <-]].
  unfold bind at 1.
  destruct (hoveredNodeData (state w)) as [source|]; unfold ret, throw;
    [|by intros [= <- <-]].
  unfold bind at 1, load. change (heap w1) with (heap w).
  destruct (heap w !! source) as [hovered|]; [|by intros [= <- <-]].
  unfold bind at 1. change (heap w1) with (heap w).
  destruct (heap w !! target) as [ending|]; [|by intros [= <- <-]].
  match goal with |- context [if ?c then _ else _] => destruct c end;
    [|by intros [= <- <-]].
  unfold bind at 1, newEdge, bind at 1, setState, modify, bind at 1.
  match goal with |- context [syncRenderEdge ?e ?w0] =>
    destruct (syncRenderEdge_ok e w0) as (w2 & -> & Hf & _) end.
  unfold notify, modify. intros [= <- <-]. cbn.
  rewrite (dom_frame_notifications _ _ Hf). cbn. intros Heq.
  apply (f_equal length) in Heq. rewrite length_app in Heq. cbn in Heq. lia.
Qed.

(** X8.  When the gesture that draws an edge ends and no edge is created
    (handleNodeUpdate with the modifier key sends no notification), the
    component still counts as dragging an edge.  In that state addNewNodes,
    addNewEdges, renderEdges and syncRenderConnectedEdgesFromNode do
    nothing, whatever they are given. *)
Theorem draw_without_edge_keeps_dragging (props : Props) (w : World) (position : IPoint)
    (index : nat) (r : Result unit) (w' : World) :
  draggingEdge (state w) = true →
  handleNodeUpdate props position index true w = (r, w') →
  notifications w' = notifications w →
  draggingEdge (state w') = true ∧
  (∀ nodes0 oldNodesMap, addNewNodes nodes0 oldNodesMap w' = (Ok tt, w')) ∧
  (∀ edges0 oldEdgesMap, addNewEdges edges0 oldEdgesMap w' = (Ok tt, w')) ∧
  (∀ entities, renderEdges entities w' = (Ok tt, w')) ∧
  (∀ node, syncRenderConnectedEdgesFromNode node w' = (Ok tt, w')).
Proof.
  intros Hd Hrun Hn.
  assert (Hd' : draggingEdge (state w') = true).
  { unfold handleNodeUpdate, bind in Hrun.
    destruct (createNewEdge props w) as [r1 w1] eqn:Hcreate.
    destruct r1 as [[]|e].
    - unfold setState, modify in Hrun. injection Hrun as <- <-. cbn in Hn |- *.
      apply (createNewEdge_keeps_dragging _ _ _ _ Hcreate) in Hn.
      by rewrite (dom_frame_state _ _ Hn).
    - injection Hrun as <- <-.
      apply (createNewEdge_keeps_dragging _ _ _ _ Hcreate) in Hn.
      by rewrite (dom_frame_state _ _ Hn). }
  split; [done|]. split_and!.
  - intros. unfold addNewNodes, bind, get. by rewrite Hd'.
  - intros. unfold addNewEdges, bind, get. by rewrite Hd'.
  - intros. unfold renderEdges, bind, get. by rewrite Hd', orb_true_r.
  - intros. unfold syncRenderConnectedEdgesFromNode, bind, get. by rewrite Hd'.
Qed.

(** An edge is drawn out of node b of the sample graph and dropped on no
    node. *)
Lemma draw_without_edge_keeps_dragging_witness :
  let r := handleNodeUpdate default_props {| p_x := 10; p_y := 90 |} 1 true drawing_from_b in
  draggingEdge (state r.2) = true ∧
  addNewNodes [0; 1; 2] ∅ r.2 = (Ok tt, r.2).
Proof.
  intros r.
  destruct (draw_without_edge_keeps_dragging default_props drawing_from_b
              {| p_x := 10; p_y := 90 |} 1 r.1 r.2) as (Hd & Hnodes & _).
  - by vm_compute.
  - apply surjective_pairing.
  - by vm_compute.
  - split; [exact Hd|apply Hnodes].
Defined.

Lemma handleNodeMove_draws (props : Props) (w : World) (position : IPoint) (index : nat)
    (node : loc) (n : INode) :
  readOnly props = false →
  permitted (canCreateEdge props) tt = true →
  nodes (state w) !! index = Some node →
  heap w !! node = Some n →
  ∃ w', handleNodeMove props position index true w = (Ok tt, w') ∧
        state w' = set_draggingEdge true (state w) ∧
        heap w' = heap w ∧ notifications w' = notifications w.
Proof.
  intros Hro Hcan Hnode Hn.
  unfold handleNodeMove, bind at 1, get. rewrite Hro, Hcan. cbn [negb].
  rewrite Hnode. unfold bind at 1, deref, ret, bind at 1, load. rewrite Hn.
  unfold bind at 1, newEdge, bind at 1.
  match goal with |- context [syncRenderEdge ?e ?w0] =>
    destruct (syncRenderEdge_ok e w0) as (w2 & -> & Hf & _) end.
  unfold setState, modify. eexists. split; [done|]. cbn.
  rewrite (dom_frame_state _ _ Hf), (dom_frame_heap _ _ Hf),
    (dom_frame_notifications _ _ Hf). done.
Qed.

Lemma createNewEdge_accepts (props : Props) (w : World) (source target : loc)
    (hovered ending : INode) :
  hoveredNodeData (state w) = Some source →
  edgeEndNode (state w) = Some target →
  source ≠ target →
  permitted (canCreateEdge props) tt = true →
  heap w !! source = Some hovered →
  heap w !! target = Some ending →
  edgesMap (state w) !! (n_key hovered ++ "_" ++ n_key ending) = None →
  edgesMap (state w) !! (n_key ending ++ "_" ++ n_key hovered) = None →
  ∃ w', createNewEdge props w = (Ok tt, w') ∧
        state w' = set_componentUpToDate false
                     (set_draggedEdge None (set_draggingEdge false (state w))) ∧
        heap w' = heap w ∧
        notifications w' = (notifications w ++ [onCreateEdge source target])%list.
Proof.
  intros Hh He Hne Hcan Hs Ht H1 H2.
  unfold createNewEdge, bind at 1, get, bind at 1, removeElementFromDom, modify.
  rewrite He, Hh. unfold deref, ret, bind at 1, bind at 1, load.
  set (w1 := with_dom _ w). change (heap w1) with (heap w). rewrite Hs.
  unfold bind at 1. change (heap w1) with (heap w). rewrite Ht.
  rewrite Hcan, H1, H2.
  rewrite (proj2 (Nat.eqb_neq source target) Hne).
  rewrite !(bool_decide_eq_false_2 (is_Some None)) by (by intros [? ?]).
  cbn [negb andb].
  unfold bind at 1, newEdge, bind at 1, setState, modify, bind at 1.
  match goal with |- context [syncRenderEdge ?e ?w0] =>
    destruct (syncRenderEdge_ok e w0) as (w2 & -> & Hf & _) end.
  unfold notify, modify. eexists. split; [done|]. cbn.
  rewrite (dom_frame_state _ _ Hf), (dom_frame_heap _ _ Hf),
    (dom_frame_notifications _ _ Hf). done.
Qed.

(** ** The keyboard *)

Section Keys.

Variable props : Props.
Variable shortcuts : ShortcutProps.
Variables nodeSize edgeArrowSize : option float.
Variable getDistance : IPoint → option IPoint → Result float.
Variable calculateOffset : option float → INode → IPoint → Result (float * float).

(** X9.  In a read-only graph no key changes anything, and no press on an
    edge starts a drag of its arrow.  The shortcuts are not blocked: the
    undo key still calls onUndo, and the paste key onPasteSelected when a
    node is selected. *)
Theorem readOnly_keyboard_and_arrow_drag (w : World) :
  readOnly props = true →
  (∀ d r w', handleWrapperKeydown props shortcuts d w = (r, w') → w' = w) ∧
  (∀ sourceEvent mouse,
     handleZoomStart props nodeSize edgeArrowSize getDistance calculateOffset
       sourceEvent mouse w = (Ok tt, w)) ∧
  (∀ d, ke_key d = "z" → ke_metaKey d || ke_ctrlKey d = true →
     sp_onUndo shortcuts = true →
     handleWrapperKeydown props shortcuts d w = (Ok (Some onUndo), w)) ∧
  (∀ d sel node, ke_key d = "v" → ke_metaKey d || ke_ctrlKey d = true →
     selectedNodeObj (state w) = Some sel → sn_node sel = Some node →
     sp_onPasteSelected shortcuts = true →
     handleWrapperKeydown props shortcuts d w = (Ok (Some onPasteSelected), w)).
Proof.
  intros Hro. split_and!.
  - intros d r w'. unfold handleWrapperKeydown, bind at 1, get.
    destruct (bool_decide (ke_key d = "Delete") || bool_decide (ke_key d = "Backspace")).
    { destruct (selectedNodeObj (state w)) as [sel|]; [|by intros [= <- <-]].
      unfold bind. rewrite (handleDelete_readOnly props Hro). by intros [= <- <-]. }
    destruct (bool_decide (ke_key d = "z")).
    { destruct ((ke_metaKey d || ke_ctrlKey d) && sp_onUndo shortcuts);
        by intros [= <- <-]. }
    destruct (bool_decide (ke_key d = "c")).
    { destruct (ke_metaKey d || ke_ctrlKey d); [|by intros [= <- <-]].
      unfold bind, deref. destruct (selectedNodeObj (state w)) as [sel|];
        [|by intros [= <- <-]].
      unfold ret. destruct (_ && _); by intros [= <- <-]. }
    destruct (bool_decide (ke_key d = "v")); [|by intros [= <- <-]].
    destruct (ke_metaKey d || ke_ctrlKey d); [|by intros [= <- <-]].
    unfold bind, deref. destruct (selectedNodeObj (state w)) as [sel|];
      [|by intros [= <- <-]].
    unfold ret. destruct (_ && _); by intros [= <- <-].
  - intros [ev|] mouse; [|done]. unfold handleZoomStart. by rewrite Hro.
  - intros d Hkey Hmod Hundo. unfold handleWrapperKeydown, bind at 1, get.
    by rewrite Hkey, Hmod, Hundo.
  - intros d sel node Hkey Hmod Hsel Hnode Hpaste.
    unfold handleWrapperKeydown, bind at 1, get. rewrite Hkey, Hmod.
    change (bool_decide ("v" = "Delete")) with false.
    change (bool_decide ("v" = "Backspace")) with false.
    change (bool_decide ("v" = "z")) with false.
    change (bool_decide ("v" = "c")) with false.
    change (bool_decide ("v" = "v")) with true. cbn [orb].
    unfold bind, deref. rewrite Hsel. unfold ret. rewrite Hnode, Hpaste.
    by rewrite bool_decide_eq_true_2 by (by eexists).
Qed.

(** X10.  The Delete and Backspace keys, in a graph that is not read-only
    and whose component has a node selection record.  If the record holds
    a node, deleteNode is run for it: the entry at the position the index
    records for the node is removed from the node collection, and the
    index entry of the node is removed.  The entry removed is the node
    itself where the node stands at the recorded position; the node is
    then in the collection no more, if it occurred there once.  If the
    record holds no node, the entity deleted is the one the caller passes
    as selected: for an edge the index holds, the entry at its recorded
    position is removed from the edge collection, with the same proviso,
    and with no such entity nothing happens.  No shortcut callback is
    called. *)
Theorem delete_key_deletes_selection (w : World) (d : KeyboardEvent)
    (sel : SelectedNodeObj) :
  ke_key d = "Delete" ∨ ke_key d = "Backspace" →
  readOnly props = false →
  selectedNodeObj (state w) = Some sel →
  (∀ node n entry,
     sn_node sel = Some node →
     permitted (canDeleteNode props) (ENode node) = true →
     heap w !! node = Some n →
     getNodeById (Some (n_key n)) (state w) = Some entry →
     ∃ w', handleWrapperKeydown props shortcuts d w = (Ok None, w') ∧
       nodes (state w') = delete (nm_originalArrIndex entry) (nodes (state w)) ∧
       nodesMap (state w') = delete ("key-" ++ n_key n) (nodesMap (state w)) ∧
       edges (state w') = edges (state w) ∧
       (nodes (state w) !! nm_originalArrIndex entry = Some node →
        NoDup (nodes (state w)) → node ∉ nodes (state w')) ∧
       notifications w' =
         (notifications w ++
          [onDeleteNode (ENode node) (nm_originalArrIndex entry) (nodes (state w'));
           onSelectNode None])%list) ∧
  (∀ edge entry,
     sn_node sel = None →
     sp_selected shortcuts = Some (EEdge edge) →
     complete edge = true →
     permitted (canDeleteEdge props) (EEdge edge) = true →
     edgesMap (state w) !! edge_key edge = Some entry →
     ∃ w', handleWrapperKeydown props shortcuts d w = (Ok None, w') ∧
       edges (state w') = delete (em_originalArrIndex entry) (edges (state w)) ∧
       edgesMap (state w') = delete (edge_key edge) (edgesMap (state w)) ∧
       nodes (state w') = nodes (state w) ∧
       (edges (state w) !! em_originalArrIndex entry = Some edge →
        NoDup (edges (state w)) → edge ∉ edges (state w')) ∧
       notifications w' =
         (notifications w ++
          [onDeleteEdge edge (em_originalArrIndex entry) (edges (state w'))])%list) ∧
  (sn_node sel = None → sp_selected shortcuts = None →
   handleWrapperKeydown props shortcuts d w = (Ok None, w)).
Proof.
  intros Hkey Hro Hsel.
  assert (Hk : bool_decide (ke_key d = "Delete") || bool_decide (ke_key d = "Backspace")
               = true).
  { destruct Hkey as [->| ->]; by vm_compute. }
  split_and!.
  - intros node n entry Hnode Hcan Hn Hentry.
    destruct (deleteNode_run w node n entry Hn Hentry)
      as (w' & Hrun & Hnodes & Hmap & Hedges & _ & Hsn & _ & _ & _ & Hnote).
    exists w'. split; [|split_and!; try done].
    2: { intros Hidx Hnd. rewrite Hnodes. by apply delete_NoDup_not_elem. }
    unfold handleWrapperKeydown, bind at 1, get. rewrite Hk, Hsel, Hnode.
    unfold bind, handleDelete. rewrite Hro. cbn [entity_source truthy negb andb].
    by rewrite Hcan, Hrun.
  - intros edge entry Hnode Hprop Hc Hcan Hentry.
    destruct (deleteEdge_run w edge entry Hc Hentry)
      as (w' & Hrun & Hedges & Hmap & Hnodes & _ & _ & _ & _ & _ & _ & Hnote).
    exists w'. split; [|split_and!; try done].
    2: { intros Hidx Hnd. rewrite Hedges. by apply delete_NoDup_not_elem. }
    unfold handleWrapperKeydown, bind at 1, get. rewrite Hk, Hsel, Hnode, Hprop.
    unfold bind, handleDelete. rewrite Hro. cbn [entity_source].
    apply andb_true_iff in Hc as [Hs _]. rewrite Hs. cbn [negb andb].
    by rewrite Hcan, Hrun.
  - intros Hnode Hprop.
    unfold handleWrapperKeydown, bind at 1, get. rewrite Hk, Hsel, Hnode, Hprop. done.
Qed.

End Keys.

(** The paste key in the read-only sample graph, node a selected. *)
Lemma readOnly_keyboard_and_arrow_drag_witness :
  let all := {| sp_selected := None; sp_onUndo := true; sp_onCopySelected := true;
                sp_onPasteSelected := true |} in
  handleWrapperKeydown readOnly_props all
    {| ke_key := "v"; ke_metaKey := false; ke_ctrlKey := true |} selected_world
  = (Ok (Some onPasteSelected), selected_world).
Proof.
  intros all.
  destruct (readOnly_keyboard_and_arrow_drag readOnly_props all None None
              (λ _ _, Ok 0%float) (λ _ _ _, Ok (0, 0)%float) selected_world eq_refl)
    as (_ & _ & _ & Hpaste).
  by apply (Hpaste _ {| sn_index := 0; sn_node := Some 0 |} 0).
Defined.

(** The Backspace key in the sample graph, node a selected. *)
Lemma delete_key_deletes_selection_witness :
  let none := {| sp_selected := None; sp_onUndo := true; sp_onCopySelected := true;
                 sp_onPasteSelected := true |} in
  ∃ w', handleWrapperKeydown default_props none
          {| ke_key := "Backspace"; ke_metaKey := false; ke_ctrlKey := false |}
          selected_world = (Ok None, w') ∧
        nodes (state w') = [1; 2].
Proof.
  intros none.
  destruct (proj1 (delete_key_deletes_selection default_props none selected_world
                     {| ke_key := "Backspace"; ke_metaKey := false; ke_ctrlKey := false |}
                     {| sn_index := 0; sn_node := Some 0 |}
                     (or_intror eq_refl) eq_refl eq_refl)
              0 node_a
              {| nm_node := 0; nm_originalArrIndex := 0; nm_incomingEdges := [];
                 nm_outgoingEdges := [edge_ab; edge_ac] |}
              eq_refl eq_refl eq_refl eq_refl) as (w' & Hrun & Hnodes & _).
  exists w'. split; [exact Hrun|]. rewrite Hnodes. by vm_compute.
Defined.

(** The recorded position after an earlier deletion.  Once node a of the
    sample graph is deleted, the index still records position 1 for node
    b, where node c now stands: the Delete key with node b selected takes
    node c out of the collection and leaves node b in it. *)
Lemma delete_key_after_deletion :
  let none := {| sp_selected := None; sp_onUndo := true; sp_onCopySelected := true;
                 sp_onPasteSelected := true |} in
  let r := (deleteNode (ENode 0) ;;; handleNodeSelected 1 0 false ;;;
            handleWrapperKeydown default_props none
              {| ke_key := "Delete"; ke_metaKey := false; ke_ctrlKey := false |})
             sample_world in
  r.1 = Ok None ∧
  nodes (state r.2) = [1] ∧
  notifications r.2 =
    [onDeleteNode (ENode 0) 0 [1; 2]; onSelectNode None; onSelectNode (Some 1);
     onDeleteNode (ENode 1) 1 [1]; onSelectNode None].
Proof. by vm_compute. Qed.

(** ** Dragging the arrow of an edge *)

Section Arrow.

Variable props : Props.
Variables nodeSize edgeArrowSize : option float.
Variable getDistance : IPoint → option IPoint → Result float.
Variable calculateOffset : option float → INode → IPoint → Result (float * float).

Lemma arrowClicked_reads (edge : option IEdge) (sourceEvent : SourceEvent) (w : World) :
  (arrowClicked nodeSize edgeArrowSize getDistance edge sourceEvent w).2 = w.
Proof.
  unfold arrowClicked. destruct edge as [edge|]; [|done].
  destruct (negb (bool_decide (src_tagName sourceEvent = "path"))); [done|].
  destruct (negb (truthy (e_target edge))); [done|].
  unfold bind at 1, get, bind at 1.
  destruct (getNodeById (e_target edge) (state w)) as [m|].
  - destruct (nodes (state w) !! nm_originalArrIndex m) as [node|].
    + unfold bind at 1, load. destruct (heap w !! node) as [n|]; [|done].
      unfold ret, bind, call. by destruct (getDistance _ _).
    + unfold ret, bind, call. by destruct (getDistance _ _).
  - unfold ret, bind, call. by destruct (getDistance _ _).
Qed.

Lemma dragEdge_dragged (w w1 : World) (edge : IEdge) (dragged : option IEdge)
    (mouse : float * float) (sourceEntry : INodeMapNode) (source : INode)
    (off : float * float) :
  dragged = Some edge ∨ dragged = None →
  truthy (e_target edge) = true →
  arrow_dragged w edge w1 →
  getNodeById (e_source edge) (state w) = Some sourceEntry →
  heap w !! nm_node sourceEntry = Some source →
  calculateOffset nodeSize source {| p_x := fst mouse; p_y := snd mouse |} = Ok off →
  ∃ w2, dragEdge nodeSize calculateOffset dragged mouse w1 = (Ok tt, w2) ∧
        arrow_dragged w edge w2.
Proof.
  intros Hdragged Hct (Hst & Hh & Hn & Hd) Hs Hsn Hoff.
  assert (Hcustom : edge_container edge ≠ "edge-custom-container")
    by (by apply edge_container_not_custom).
  unfold dragEdge, bind at 1, get.
  assert (Hsome : match dragged with
                  | Some e => Some e
                  | None => draggedEdge (state w1)
                  end = Some edge).
  { destruct Hdragged as [->| ->]; [done|]. by rewrite Hst. }
  rewrite Hsome. unfold bind at 1, deref.
  assert (Hget : getNodeById (e_source edge) (state w1) = Some sourceEntry)
    by (by rewrite Hst).
  rewrite Hget. unfold ret at 1, bind at 1, load. rewrite Hh, Hsn.
  unfold bind at 1, call. rewrite Hoff.
  unfold bind at 1, newEdge, bind at 1.
  match goal with |- context [syncRenderEdge ?e ?w0] =>
    destruct (syncRenderEdge_other e w0) as (w2 & -> & Hf2 & Hk2) end.
  unfold setState, modify. eexists. split; [done|].
  unfold arrow_dragged. cbn.
  rewrite (dom_frame_state _ _ Hf2), (dom_frame_heap _ _ Hf2),
    (dom_frame_notifications _ _ Hf2). cbn. rewrite Hst, Hh, Hn.
  split_and!; try done. rewrite Hk2 by done. done.
Qed.

(** X11.  A drag of the arrow of an indexed edge that ends over no node:
    the press on the arrow (handleZoomStart), any number of moves
    (handleZoom) and the release (handleZoomEnd).  The caller is sent one
    onSwapEdge, with the nodes the edge had and the edge; the graph is as
    before and nothing is dragged any more.  The element of the edge was
    removed at the press, and the release leaves an empty container in its
    place: the edge is not drawn again by the gesture. *)
Theorem arrow_drag_leaves_edge_undrawn (w : World) (sourceEvent : SourceEvent)
    (mouse : float * float) (moves : list (float * float)) (entry : IEdgeMapEdge)
    (sourceEntry targetEntry : INodeMapNode) (source : INode) :
  let edge := em_edge entry in
  readOnly props = false →
  src_overlay sourceEvent = true →
  edgesMap (state w) !! src_id sourceEvent = Some entry →
  complete edge = true →
  (arrowClicked nodeSize edgeArrowSize getDistance (Some edge) sourceEvent w).1 = Ok true →
  getNodeById (e_source edge) (state w) = Some sourceEntry →
  getNodeById (e_target edge) (state w) = Some targetEntry →
  heap w !! nm_node sourceEntry = Some source →
  (∀ m, m ∈ mouse :: moves →
     ∃ off, calculateOffset nodeSize source {| p_x := fst m; p_y := snd m |} = Ok off) →
  edgeEndNode (state w) = None →
  ∃ w',
    (handleZoomStart props nodeSize edgeArrowSize getDistance calculateOffset
       (Some sourceEvent) mouse ;;;
     forEach moves (λ m, let* _ := handleZoom nodeSize calculateOffset m in ret tt) ;;;
     handleZoomEnd) w = (Ok tt, w') ∧
    notifications w' =
      (notifications w ++
       [onSwapEdge (nm_node sourceEntry) (nm_node targetEntry) edge])%list ∧
    dom w' !! edge_container edge = Some None ∧
    dom w' !! "edge-custom-container" = None ∧
    draggingEdge (state w') = false ∧
    draggedEdge (state w') = None ∧
    graph_unchanged w w'.
Proof.
  intros edge Hro Hov Hentry Hc Hclick Hs Ht Hsn Hoffs Hend.
  pose proof Hc as [Hcs Hct]%andb_true_iff.
  assert (Hcustom : edge_container edge ≠ "edge-custom-container")
    by (by apply edge_container_not_custom).
  (* the drag starts *)
  assert (∃ w1, handleZoomStart props nodeSize edgeArrowSize getDistance calculateOffset
                  (Some sourceEvent) mouse w = (Ok tt, w1) ∧ arrow_dragged w edge w1)
    as (w1 & Hrun1 & Hinv1).
  { unfold handleZoomStart. rewrite Hro, Hov. cbn [negb orb].
    unfold bind at 1, get. rewrite Hentry. cbn [fmap option_fmap option_map].
    fold edge. unfold bind at 1.
    pose proof (arrowClicked_reads (Some edge) sourceEvent w) as Hpure.
    destruct (arrowClicked nodeSize edgeArrowSize getDistance (Some edge) sourceEvent w)
      as [r w0]. cbn in Hclick, Hpure. subst r w0. cbn [negb].
    unfold bind at 1, removeEdgeElement, removeElementFromDom, modify.
    unfold bind at 1, setState, modify.
    set (w0 := with_state _ _).
    destruct (Hoffs mouse) as [off Hoff]; [by left|].
    apply (dragEdge_dragged w w0 edge (Some edge) mouse sourceEntry source off);
      try done; [by left|].
    subst w0. unfold arrow_dragged. cbn. split_and!; try done.
    unfold edge_container. rewrite Hct. apply lookup_delete_eq. }
  unfold bind at 1. rewrite Hrun1.
  (* the pointer moves *)
  assert (∃ w2, forEach moves
                  (λ m, let* _ := handleZoom nodeSize calculateOffset m in ret tt) w1
                = (Ok tt, w2) ∧ arrow_dragged w edge w2) as (w2 & Hrun2 & Hinv2).
  { assert (Hall : ∀ m, m ∈ moves →
              ∃ off, calculateOffset nodeSize source {| p_x := fst m; p_y := snd m |}
                     = Ok off).
    { intros m Hm. apply Hoffs. by right. }
    clear Hrun1 Hoffs. revert w1 Hinv1.
    induction moves as [|m moves IH]; intros w1 Hinv1.
    - by exists w1.
    - destruct (Hall m) as [off Hoff]; [by left|].
      destruct (dragEdge_dragged w w1 edge None m sourceEntry source off)
        as (w1' & Hrun & Hinv); try done; [by right|].
      destruct (IH (λ m' Hm', Hall m' (list_elem_of_further _ _ _ Hm')) w1' Hinv)
        as (w2 & Hrun2 & Hinv2).
      exists w2. split; [|done]. cbn [forEach]. unfold bind at 1, bind at 1, handleZoom.
      unfold bind at 1, get. destruct Hinv1 as (Hst1 & _). rewrite Hst1.
      cbn [draggingEdge set_draggingEdge negb andb]. rewrite andb_false_r.
      unfold bind at 1. rewrite Hrun. unfold ret at 1. exact Hrun2. }
  unfold bind at 1. rewrite Hrun2.
  (* the drag ends *)
  destruct Hinv2 as (Hst2 & Hh2 & Hn2 & Hd2).
  unfold handleZoomEnd, bind at 1, get.
  rewrite Hst2. cbn [draggingEdge draggedEdge edgeEndNode set_draggedEdge set_draggingEdge].
  rewrite Hend.
  unfold bind at 1, newEdge, bind at 1, removeElementFromDom, modify.
  unfold bind at 1, setState, modify, bind at 1, get, bind at 1, deref.
  set (w4 := with_state _ _).
  assert (Hst4 : state w4 = set_draggedEdge None (set_draggingEdge false (state w2))) by done.
  assert (Hget : ∀ id, getNodeById id (state w4) = getNodeById id (state w)).
  { intros id. rewrite Hst4, Hst2. done. }
  rewrite Hget, Hs. unfold ret at 1, bind at 1, canSwap, ret at 1, bind at 1, ret at 1.
  unfold bind at 1.
  set (copy := {| e_ref := _; e_source := e_source edge; e_target := e_target edge;
                  e_targetPosition := e_targetPosition edge |}).
  assert (Hcont : edge_container copy = edge_container edge) by done.
  assert (Hd4 : dom w4 !! edge_container copy = None).
  { rewrite Hcont. subst w4. cbn. by rewrite lookup_delete_ne. }
  rewrite (syncRenderEdge_absent copy w4 Hcs Hd4).
  rewrite Hst4. cbn [draggedEdge set_draggedEdge edge_differs].
  unfold bind at 1, get, bind at 1.
  change (e_source copy) with (e_source edge). change (e_target copy) with (e_target edge).
  change (state (with_dom _ w4)) with (state w4).
  rewrite !Hget, Hs, Ht. unfold ret, bind, notify, modify.
  eexists. split; [reflexivity|]. unfold graph_unchanged. cbn.
  rewrite Hcont, lookup_insert_eq, lookup_insert_ne by done.
  rewrite lookup_delete_eq, Hst2, Hh2, Hn2. cbn. by split_and!.
Qed.

End Arrow.

(** The arrow of edge a-b of the sample graph is pressed, moved twice and
    released. *)
Lemma arrow_drag_leaves_edge_undrawn_witness :
  let click := {| src_overlay := true; src_id := "a_b"; src_tagName := "path";
                  src_mouse := (100, 0)%float |} in
  ∃ w',
    (handleZoomStart default_props (Some 154%float) (Some 8%float) (λ _ _, Ok 0%float)
       (λ _ _ _, Ok (0, 0)%float) (Some click) (90, 0)%float ;;;
     forEach [(80, 10)%float; (90, 0)%float]
       (λ m, let* _ := handleZoom (Some 154%float) (λ _ _ _, Ok (0, 0)%float) m in ret tt) ;;;
     handleZoomEnd)
      sample_world = (Ok tt, w') ∧
    notifications w' = [onSwapEdge 0 1 edge_ab] ∧
    dom w' !! "edge-a-b-container" = Some None.
Proof.
  intros click.
  destruct (arrow_drag_leaves_edge_undrawn default_props (Some 154%float) (Some 8%float)
              (λ _ _, Ok 0%float) (λ _ _ _, Ok (0, 0)%float) sample_world click
              (90, 0)%float [(80, 10)%float; (90, 0)%float]
              {| em_edge := edge_ab; em_originalArrIndex := 0 |}
              {| nm_node := 0; nm_originalArrIndex := 0; nm_incomingEdges := [];
                 nm_outgoingEdges := [edge_ab; edge_ac] |}
              {| nm_node := 1; nm_originalArrIndex := 1; nm_incomingEdges := [edge_ab];
                 nm_outgoingEdges := [] |}
              node_a)
    as (w' & Hrun & Hn & Hd & _);
    [vm_compute; reflexivity ..|intros m _; by eexists|vm_compute; reflexivity|].
  exists w'. split; [exact Hrun|]. split; [by rewrite Hn|exact Hd].
Defined.

End EditFacts.

(** * Properties of the extent guard of modifyZoom *)

Module ZoomGuardFacts.
Import Viewport ViewportFacts.

(** No comparison with NaN holds. *)
Lemma nan_compares_false (x y : float) :
  is_nan x = true → ltb x y = false ∧ ltb y x = false.
Proof.
  unfold is_nan. rewrite FloatAxioms.eqb_spec, !FloatAxioms.ltb_spec.
  unfold SpecFloat.SFeqb, SpecFloat.SFltb.
  destruct (FloatOps.Prim2SF x) as [s|s| |s m e]; cbn.
  - done.
  - by destruct s.
  - intros _. split; [done|]. by destruct (FloatOps.Prim2SF y).
  - rewrite Z.compare_refl, Pos.compare_cont_refl. by destruct s.
Qed.

(** X12.  A scale that is not a number passes the extent guard of
    modifyZoom: when [k * (1 + modK)] is NaN, whatever the extent, the call
    returns true and the view is given a transform whose scale is NaN. *)
Theorem modifyZoom_accepts_nan (cw ch : float) (extent : float * float)
    (t : IViewTransform float) (modK modX modY d : float) :
  is_nan (k t * (1 + modK))%float = true →
  ∃ z, modifyZoom cw ch extent (Some t) modK modX modY d = Ok (true, Some z) ∧
       is_nan (k (to z)) = true.
Proof.
  intros Hnan. unfold modifyZoom.
  cbn [num_lt num_0 num_1 num_2 float_JsNumber num_add num_div num_sub num_mul].
  destruct (nan_compares_false _ (fst extent) Hnan) as [-> _].
  destruct (nan_compares_false _ (snd extent) Hnan) as [_ ->].
  cbn [orb]. eexists. split; [reflexivity|]. exact Hnan.
Qed.

(** X13.  The extent is read from the props as [minZoom || 0] and
    [maxZoom || 0].  With a maxZoom that is null, zero or NaN
    the upper bound is zero, and modifyZoom rejects every change that
    gives a positive scale. *)
Theorem modifyZoom_rejects_without_maxZoom {N} `{JsNumber N} (cw ch : N)
    (mn mx : option N) (t : IViewTransform N) (modK modX modY d : N) :
  or_default mx num_0 = num_0 →
  num_lt num_0 (num_mul (k t) (num_add num_1 modK)) = true →
  modifyZoom cw ch (scaleExtent mn mx) (Some t) modK modX modY d = Ok (false, None).
Proof.
  intros Hmx Hpos. apply modifyZoom_rejects. cbn [scaleExtent snd fst].
  rewrite Hmx, Hpos. apply orb_true_r.
Qed.

Section Samples.
Local Open Scope float_scope.

(** A relative change that is not a number, in a viewport of 800 by 600
    with the extent from 0.15 to 1.5. *)
Lemma modifyZoom_accepts_nan_witness :
  ∃ z, modifyZoom (N := float) 800 600 (0.15, 1.5)
         (Some {| k := 1; x := 100; y := 50 |}) nan 0 0 0 = Ok (true, Some z) ∧
       is_nan (k (to z)) = true.
Proof.
  apply (modifyZoom_accepts_nan 800 600 (0.15, 1.5)
           {| k := 1; x := 100; y := 50 |} nan 0 0 0). by vm_compute.
Defined.

(** Zooming in by a quarter with no maxZoom. *)
Lemma modifyZoom_rejects_without_maxZoom_witness :
  modifyZoom (N := float) 800 600 (scaleExtent (Some 0.15) None)
    (Some {| k := 1; x := 100; y := 50 |}) 0.25 0 0 0 = Ok (false, None).
Proof.
  apply (modifyZoom_rejects_without_maxZoom (N := float)); by vm_compute.
Defined.

End Samples.

(** ** handleZoomToFit on doubles *)

Lemma ltb_irrefl (x : float) : ltb x x = false.
Proof.
  rewrite FloatAxioms.ltb_spec. unfold SpecFloat.SFltb.
  destruct (FloatOps.Prim2SF x) as [s|s| |s m e]; cbn.
  - done.
  - by destruct s.
  - done.
  - rewrite Z.compare_refl, Pos.compare_cont_refl. by destruct s.
Qed.

(** The two comparisons of handleZoomToFit never let a scale below the
    lower or above the upper bound through. *)
Lemma clamp_code_doubles (lo hi v : float) :
  ltb hi lo = false →
  let r := if ltb v lo then lo else if ltb hi v then hi else v in
  ltb r lo = false ∧ ltb hi r = false.
Proof.
  intros Hle r. subst r. destruct (ltb v lo) eqn:E1.
  - split; [apply ltb_irrefl|done].
  - destruct (ltb hi v) eqn:E2.
    + split; [done|apply ltb_irrefl].
    + done.
Qed.

(** C7, amended.  handleZoomToFit asks for the transform the
    specification gives, computed on doubles.  For an empty bounding box
    (a width or a height that is not above zero) it is the midpoint of the
    zoom range with no translation.  Otherwise the scale is
    0.9 / max(bboxWidth/viewportWidth, bboxHeight/viewportHeight), replaced
    by minZoom when it is below minZoom and else by maxZoom when it is
    above maxZoom, so that it is neither below minZoom nor above maxZoom
    where maxZoom is not below minZoom; and the translation is the centre
    of the viewport less the scale times the centre of the box.  (minZoom
    and maxZoom are the props, or 0 and 2 where a prop is missing or
    zero.)  In exact arithmetic, for a viewport of positive width and
    height, that translation draws the centre of the box at the centre of
    the viewport.  On doubles, a viewport of 800 by 600, the zoom range
    [0.15, 1.5] and a box of 100 by 100 centred at the origin give the
    scale 1.5 and the translation (400, 300). *)
Theorem handleZoomToFit_on_doubles (b : BBox float) (vw vh zoomDur : float)
    (mn mx : option float) :
  let minZoom := or_default mn 0%float in
  let maxZoom := or_default mx 2%float in
  let fit := handleZoomToFit b vw vh mn mx zoomDur in
  dur fit = zoomDur ∧
  ((ltb 0 (bb_width b) && ltb 0 (bb_height b))%bool = false →
   to fit = {| k := ((minZoom + maxZoom) / 2)%float; x := 0%float; y := 0%float |}) ∧
  ((ltb 0 (bb_width b) && ltb 0 (bb_height b))%bool = true →
   let scale := (0.9 / float_max (bb_width b / vw) (bb_height b / vh))%float in
   k (to fit) =
     (if ltb scale minZoom then minZoom else if ltb maxZoom scale then maxZoom else scale) ∧
   x (to fit) = (vw / 2 - k (to fit) * (bb_x b + bb_width b / 2))%float ∧
   y (to fit) = (vh / 2 - k (to fit) * (bb_y b + bb_height b / 2))%float ∧
   (ltb maxZoom minZoom = false →
    ltb (k (to fit)) minZoom = false ∧ ltb maxZoom (k (to fit)) = false)) ∧
  (∀ (b : BBox R) (vw vh zoomDur : R) (mn mx : option R),
     (0 < vw)%R → (0 < vh)%R → (0 < bb_width b)%R → (0 < bb_height b)%R →
     (or_default mn 0 <= or_default mx 2)%R →
     let fit := to (handleZoomToFit b vw vh mn mx zoomDur) in
     k fit = clamp (or_default mn 0%R) (or_default mx 2%R)
               (9 / 10 / Rmax (bb_width b / vw) (bb_height b / vh)) ∧
     (or_default mn 0 <= k fit <= or_default mx 2)%R ∧
     screen_point fit (bb_x b + bb_width b / 2, bb_y b + bb_height b / 2)%R
       = (vw / 2, vh / 2)%R) ∧
  handleZoomToFit (N := float)
    {| bb_x := (-50)%float; bb_y := (-50)%float;
       bb_width := 100%float; bb_height := 100%float |}
    800%float 600%float (Some 0.15%float) (Some 1.5%float) 750%float =
    {| to := {| k := 1.5%float; x := 400%float; y := 300%float |}; dur := 750%float |}.
Proof.
  intros minZoom maxZoom fit. split; [done|]. split_and!.
  - intros Hempty. subst fit. unfold handleZoomToFit.
    cbn [num_lt num_0 float_JsNumber]. by rewrite Hempty.
  - intros Hfull scale. subst fit. unfold handleZoomToFit.
    cbn [num_lt num_0 float_JsNumber]. rewrite Hfull. cbn [to k x y].
    split_and!; try done.
    intros Hle. apply (clamp_code_doubles minZoom maxZoom scale Hle).
  - clear. intros b vw vh zoomDur mn mx Hvw Hvh Hw Hh Hle fit.
    destruct (handleZoomToFit_fits_content b vw vh zoomDur mn mx Hle) as (Heq & Hin & _).
    destruct (Hin Hw Hh) as [Hk Hcentre]. subst fit.
    split; [|split; [exact Hk|exact Hcentre]].
    rewrite Heq. cbn [to]. unfold fitToContent.
    destruct (Rlt_dec 0 (bb_width b)); [|lra].
    destruct (Rlt_dec 0 (bb_height b)); [|lra]. done.
  - by vm_compute.
Qed.

(** With a viewport of no width the scale is minZoom. *)
Lemma handleZoomToFit_on_doubles_witness :
  k (to (handleZoomToFit (N := float)
           {| bb_x := 10%float; bb_y := 20%float;
              bb_width := 1000%float; bb_height := 300%float |}
           0%float 600%float (Some 0.15%float) (Some 1.5%float) 750%float)) = 0.15%float.
Proof.
  destruct (handleZoomToFit_on_doubles
              {| bb_x := 10%float; bb_y := 20%float;
                 bb_width := 1000%float; bb_height := 300%float |}
              0%float 600%float 750%float (Some 0.15%float) (Some 1.5%float))
    as (_ & _ & Hfull & _).
  destruct (Hfull eq_refl) as (-> & _). by vm_compute.
Defined.

(** C7, as stated, fails on doubles.  For a viewport of 800 by 600 and the
    box of 333 by 777 at (-700.3, -900.7) the centre of the box is drawn
    beside the centre of the viewport, (400, 300), by the rounding of the
    translation. *)
Lemma handleZoomToFit_centre_rounded :
  let b := {| bb_x := (-700.3)%float; bb_y := (-900.7)%float;
              bb_width := 333%float; bb_height := 777%float |} in
  let fit := to (handleZoomToFit (N := float) b 800%float 600%float
                   (Some 0.15%float) (Some 1.5%float) 750%float) in
  screen_point fit (bb_x b + bb_width b / 2, bb_y b + bb_height b / 2)%float
    = (400.00000000000006, 299.99999999999994)%float ∧
  PrimFloat.eqb 400.00000000000006 (800 / 2) = false ∧
  PrimFloat.eqb 299.99999999999994 (600 / 2) = false.
Proof. by vm_compute. Qed.

End ZoomGuardFacts.

(** * Properties of the Node component *)

Module NodeFacts.
Import GraphView GraphViewFacts RenderFacts EditFacts Node.
Local Open Scope string_scope.

(** ** The handlers of the GraphView that a node calls *)

Lemma handleNodeSelected_ok (w : World) (node : loc) (index : nat) (creatingEdge : bool)
    (n : INode) :
  heap w !! node = Some n →
  (∀ sel p, selectedNodeObj (state w) = Some sel → sn_node sel = Some p →
            is_Some (heap w !! p)) →
  ∃ w', handleNodeSelected node index creatingEdge w = (Ok tt, w') ∧
    state w' = set_componentUpToDate false
                 (set_selectedNodeObj
                    (Some {| sn_index := Z.of_nat index; sn_node := Some node |})
                    (state w)) ∧
    heap w' = heap w ∧
    notifications w' =
      (notifications w ++ if creatingEdge then [] else [onSelectNode (Some node)])%list.
Proof.
  intros Hn Hprev.
  unfold handleNodeSelected, bind at 1, get, bind at 1, GraphView.setState, modify.
  set (w1 := with_state _ w).
  set (new := {| sn_index := Z.of_nat index; sn_node := Some node |}).
  assert (Hsel1 : selectedNodeObj (state w1) = Some new) by done.
  unfold bind at 1.
  destruct (syncRenderNode_ok node (Z.of_nat index) n new w1 Hn Hsel1)
    as (w2 & -> & Hf2 & _).
  unfold bind at 1.
  assert (∃ w3, match match selectedNodeObj (state w) with
                      | Some sel => sn_node sel
                      | None => None
                      end with
                | Some previous =>
                  syncRenderNode previous
                    match selectedNodeObj (state w) with
                    | Some sel =>
                      match match selectedNodeObj (state w) with
                            | Some sel0 => sn_node sel0
                            | None => None
                            end with
                      | Some _ => sn_index sel
                      | None => (-1)%Z
                      end
                    | None => (-1)%Z
                    end
                | None => ret tt
                end w2 = (Ok tt, w3) ∧ dom_frame w2 w3) as (w3 & Hrun3 & Hf3).
  { destruct (selectedNodeObj (state w)) as [sel|] eqn:Hsel;
      [|exists w2; split; [done|apply dom_frame_refl]].
    destruct (sn_node sel) as [p|] eqn:Hp;
      [|exists w2; split; [done|apply dom_frame_refl]].
    destruct (Hprev sel p eq_refl Hp) as [pn Hpn].
    assert (Hp2 : heap w2 !! p = Some pn) by (by rewrite (dom_frame_heap _ _ Hf2)).
    assert (Hsel2 : selectedNodeObj (state w2) = Some new)
      by (by rewrite (dom_frame_state _ _ Hf2)).
    destruct (syncRenderNode_ok p (sn_index sel) pn new w2 Hp2 Hsel2)
      as (w3 & Hrun3 & Hf3 & _).
    by exists w3. }
  rewrite Hrun3.
  pose proof (dom_frame_trans _ _ _ Hf2 Hf3) as Hf.
  destruct creatingEdge; cbn [negb when]; unfold ret, notify, modify;
    eexists; (split; [done|]); cbn;
    rewrite ?(dom_frame_state _ _ Hf), ?(dom_frame_heap _ _ Hf),
      ?(dom_frame_notifications _ _ Hf); split_and!; try done.
  by rewrite app_nil_r.
Qed.

Lemma handleNodeUpdate_run (props : Props) (w : World) (position : IPoint) (index : nat)
    (node : loc) (n : INode) :
  nodes (state w) !! index = Some node →
  heap w !! node = Some n →
  handleNodeUpdate props position index false w =
    (Ok tt,
     with_state (λ s, set_componentUpToDate false (set_hoveredNode false s))
       (with_notifications (λ l, (l ++ [onUpdateNode node])%list)
          (with_heap (<[node := assign_position position n]>) w))).
Proof.
  intros Hnode Hn. unfold handleNodeUpdate, bind at 1, bind at 1, get.
  rewrite Hnode. unfold bind at 1, load. by rewrite Hn.
Qed.

Lemma or_zero_number (f : float) :
  is_nan (or_zero (Some f)) = false ∧
  (is_nan f = false → is_zero f = false → or_zero (Some f) = f).
Proof.
  unfold or_zero, Viewport.or_default. cbn [Viewport.num_truthy Viewport.float_JsNumber].
  destruct (is_zero f), (is_nan f) eqn:Hnan; cbn; split; try done.
Qed.

(** ** Dragging a node *)

Section Drag.

Variable props : Props.
Variable nodeSize : option float.
Variable layoutEngine : option (IPoint → IPoint).
Variable calculateOffset : option float → INode → IPoint → Result (float * float).
Variable derives : bool.

Lemma mounted_moves (evs : list DragEvent) (c : Component) (w : World) (n : INode) :
  nodes (state w) !! c_index c = Some (c_data c) →
  heap w !! c_data c = Some n →
  Forall (λ ev, de_buttons ev = 1%Z ∧ de_shiftKey ev = false) evs →
  ∃ c1 w1,
    handleMouseMoves (processed derives) nodeSize layoutEngine (offset_of calculateOffset)
      (handleNodeMove props) evs c w = (Ok tt, (c1, w1)) ∧
    state w1 = state w ∧ notifications w1 = notifications w ∧
    c_data c1 = c_data c ∧ c_index c1 = c_index c ∧ c_current c1 = c_current c ∧
    c_isSelected c1 = c_isSelected c ∧
    heap w1 =
      (if readOnly props then heap w
       else match last evs with
            | Some ev => <[c_data c := assign_position (place layoutEngine ev) n]> (heap w)
            | None => heap w
            end) ∧
    (derives = false →
     {| p_x := ns_x (c_state c1); p_y := ns_y (c_state c1) |} =
       match last evs with
       | Some ev => place layoutEngine ev
       | None => {| p_x := ns_x (c_state c); p_y := ns_y (c_state c) |}
       end).
Proof.
  revert c w n. induction evs as [|ev evs IH]; intros c w n Hnode Hn Hall.
  - exists c, w. split_and!; try done. by destruct (readOnly props).
  - apply Forall_cons in Hall as [[Hb Hs] Hall].
    cbn [handleMouseMoves]. unfold handleMouseMove. rewrite Hb, Hs. cbn [Z.eqb Pos.eqb negb].
    change (match layoutEngine with
            | Some getPositionForNode =>
              getPositionForNode {| p_x := de_x ev; p_y := de_y ev |}
            | None => {| p_x := de_x ev; p_y := de_y ev |}
            end) with (place layoutEngine ev).
    set (c' := setState (processed derives) (merge_position (place layoutEngine ev)) c w).
    change (c_index c') with (c_index c).
    destruct (handleNodeMove_moves props w (place layoutEngine ev) (c_index c) (c_data c) n
                Hnode Hn) as (w' & -> & Hf & _).
    assert (Hst : state w' = state w).
    { rewrite (dom_frame_state _ _ Hf). by destruct (readOnly props). }
    assert (Hno : notifications w' = notifications w).
    { rewrite (dom_frame_notifications _ _ Hf). by destruct (readOnly props). }
    assert (Hheap : heap w' = if readOnly props then heap w
                    else <[c_data c := assign_position (place layoutEngine ev) n]> (heap w)).
    { rewrite (dom_frame_heap _ _ Hf). by destruct (readOnly props). }
    assert (∃ n', heap w' !! c_data c = Some n' ∧
                  ∀ p, assign_position p n' = assign_position p n) as (n' & Hn' & Hsame).
    { rewrite Hheap. destruct (readOnly props).
      - by exists n.
      - eexists. by rewrite lookup_insert_eq. }
    destruct (IH c' w' n') as (c1 & w1 & Hrun & Hst1 & Hno1 & Hd & Hi & Hcur & Hsel & Hh1 & Hpos).
    { by rewrite Hst. }
    { done. }
    { done. }
    exists c1, w1. rewrite Hrun. split_and!; try done; try congruence.
    + rewrite Hh1, Hheap. change (c_data c') with (c_data c).
      destruct (readOnly props); [done|].
      destruct evs as [|ev' evs']; [done|].
      change (last (ev :: ev' :: evs')) with (last (ev' :: evs')).
      destruct (last (ev' :: evs')) eqn:E; [|by apply last_None in E].
      by rewrite Hsame, insert_insert_eq.
    + intros Hder. rewrite (Hpos Hder). destruct evs as [|ev' evs'].
      2:{ change (last (ev :: ev' :: evs')) with (last (ev' :: evs')).
          destruct (last (ev' :: evs')) eqn:E; [done|]. by apply last_None in E. }
      subst c'. unfold setState, processed. rewrite Hder. cbn.
      by destruct (place layoutEngine ev).
Qed.

(** The end of a drag without the modifier key: the position the
    component then holds is written into the node object, and the caller
    is told of the update and of the selection. *)
Lemma mounted_drag_run (evs : list DragEvent) (ev_end : DragEvent)
    (c : Component) (w : World) (n : INode) :
  c_current c = true →
  nodes (state w) !! c_index c = Some (c_data c) →
  heap w !! c_data c = Some n →
  Forall (λ ev, de_buttons ev = 1%Z ∧ de_shiftKey ev = false) evs →
  de_shiftKey ev_end = false →
  (∀ sel p, selectedNodeObj (state w) = Some sel → sn_node sel = Some p →
            is_Some (heap w !! p)) →
  let moved :=
    if readOnly props then n
    else match last evs with
         | Some ev => assign_position (place layoutEngine ev) n
         | None => n
         end in
  let drop :=
    if derives then derived_position moved
    else match last evs with
         | Some ev => place layoutEngine ev
         | None => {| p_x := ns_x (c_state c); p_y := ns_y (c_state c) |}
         end in
  ∃ c' w',
    mounted_drag props nodeSize layoutEngine calculateOffset derives evs ev_end c w
      = (Ok tt, (c', w')) ∧
    heap w' = <[c_data c := assign_position drop n]> (heap w) ∧
    notifications w' =
      (notifications w ++ [onUpdateNode (c_data c); onSelectNode (Some (c_data c))])%list ∧
    selectedNodeObj (state w') =
      Some {| sn_index := Z.of_nat (c_index c); sn_node := Some (c_data c) |} ∧
    nodes (state w') = nodes (state w) ∧
    edges (state w') = edges (state w).
Proof.
  intros Hcur Hnode Hn Hall Hend Hprev moved drop.
  destruct (mounted_moves evs c w n Hnode Hn Hall)
    as (c1 & w1 & Hrun & Hst1 & Hno1 & Hd & Hi & Hcur1 & Hsel1 & Hh1 & Hpos).
  unfold mounted_drag. rewrite Hrun.
  unfold mounted_handleDragEnd, handleDragEnd. rewrite Hcur1, Hcur. cbn [negb].
  assert (Hent : match c_oldSibling c1 with
                 | Some oldSibling =>
                   if bool_decide (oldSibling ∈ @nil string)
                   then w1 else w1
                 | None => w1
                 end = w1).
  { destruct (c_oldSibling c1); [|done]. by destruct (bool_decide _). }
  rewrite Hent. rewrite Hend.
  set (c2 := setState (processed derives) (merge_mouseDown false) c1 w1).
  change (c_index c2) with (c_index c1). change (c_data c2) with (c_data c1).
  rewrite Hi, Hd.
  assert (Hmoved : heap w1 !! c_data c = Some moved ∧
                   ∀ p, <[c_data c := assign_position p moved]> (heap w1) =
                        <[c_data c := assign_position p n]> (heap w)).
  { rewrite Hh1. subst moved. destruct (readOnly props); [done|].
    destruct (last evs); [|done]. split; [apply lookup_insert_eq|].
    intros p. by rewrite insert_insert_eq. }
  destruct Hmoved as [Hmoved Hwrite].
  assert (Hdrop : {| p_x := ns_x (c_state c2); p_y := ns_y (c_state c2) |} = drop).
  { subst c2 drop. unfold setState, processed. destruct derives.
    - rewrite Hd, Hmoved. reflexivity.
    - cbn. by apply Hpos. }
  rewrite Hdrop.
  rewrite (handleNodeUpdate_run props w1 drop (c_index c) (c_data c) moved)
    by (by rewrite ?Hst1).
  set (w2 := with_state _ _).
  assert (Hheap2 : heap w2 = <[c_data c := assign_position drop n]> (heap w)).
  { subst w2. cbn. apply Hwrite. }
  destruct (handleNodeSelected_ok w2 (c_data c) (c_index c) false (assign_position drop n))
    as (w3 & -> & Hst3 & Hh3 & Hno3).
  { by rewrite Hheap2, lookup_insert_eq. }
  { intros sel p Hsel Hp. rewrite Hheap2.
    destruct (decide (c_data c = p)) as [<-|Hne].
    - rewrite lookup_insert_eq. by eexists.
    - rewrite lookup_insert_ne by done. apply (Hprev sel p); [|done].
      subst w2. cbn in Hsel. by rewrite Hst1 in Hsel. }
  eexists _, w3. split; [done|].
  rewrite Hh3, Hst3, Hno3, Hheap2. subst w2. cbn. rewrite Hst1, Hno1.
  split_and!; try done. by rewrite <- (assoc_L (++)%list).
Qed.

(** X14.  A drag of a node without the modifier key: drag events with the
    button pressed, the last of them [ev], then the end of the drag.  The
    node object is given the position the component holds at the end.
    Where React keeps the state as the handlers set it, that is the place
    of the last drag event, in a read-only graph too.  Where React
    re-derives the state from the props at every update, it is the
    position of the node object coerced by [|| 0]: the node object is at
    the place of the last event unless the graph is read-only.  In every
    case the caller is sent onUpdateNode and then onSelectNode for the
    node; the collections stay. *)
Theorem drag_updates_then_selects (evs : list DragEvent) (ev ev_end : DragEvent)
    (c : Component) (w : World) (n : INode) :
  c_current c = true →
  nodes (state w) !! c_index c = Some (c_data c) →
  heap w !! c_data c = Some n →
  Forall (λ ev, de_buttons ev = 1%Z ∧ de_shiftKey ev = false) evs →
  last evs = Some ev →
  de_shiftKey ev_end = false →
  (∀ sel p, selectedNodeObj (state w) = Some sel → sn_node sel = Some p →
            is_Some (heap w !! p)) →
  ∃ c' w' drop,
    mounted_drag props nodeSize layoutEngine calculateOffset derives evs ev_end c w
      = (Ok tt, (c', w')) ∧
    heap w' = <[c_data c := assign_position drop n]> (heap w) ∧
    (derives = false → drop = place layoutEngine ev) ∧
    (derives = true → readOnly props = false →
     drop = derived_position (assign_position (place layoutEngine ev) n)) ∧
    (derives = true → readOnly props = true → drop = derived_position n) ∧
    notifications w' =
      (notifications w ++ [onUpdateNode (c_data c); onSelectNode (Some (c_data c))])%list ∧
    nodes (state w') = nodes (state w) ∧
    edges (state w') = edges (state w).
Proof.
  intros Hcur Hnode Hn Hall Hlast Hend Hprev.
  destruct (mounted_drag_run evs ev_end c w n Hcur Hnode Hn Hall Hend Hprev)
    as (c' & w' & Hrun & Hheap & Hrest).
  rewrite Hlast in Hheap. eexists c', w', _. split; [exact Hrun|].
  split; [exact Hheap|]. split_and!; try apply Hrest.
  - by intros ->.
  - by intros -> ->.
  - by intros -> ->.
Qed.

(** X15.  A click on a node (a drag that ends without a drag event), the
    component holding the state derived from the node object.  The node
    object is given its own position coerced by [|| 0]: a coordinate that
    was NaN becomes zero, a coordinate that is a number other than zero is
    kept.  The caller is sent onUpdateNode and then onSelectNode, though
    nothing was moved. *)
Theorem click_writes_derived_position (ev_end : DragEvent) (c : Component) (w : World)
    (n : INode) (isSelected : bool) (prevState : INodeState) :
  c_current c = true →
  nodes (state w) !! c_index c = Some (c_data c) →
  heap w !! c_data c = Some n →
  c_state c = getDerivedStateFromProps isSelected n prevState →
  de_shiftKey ev_end = false →
  (∀ sel p, selectedNodeObj (state w) = Some sel → sn_node sel = Some p →
            is_Some (heap w !! p)) →
  ∃ c' w',
    mounted_drag props nodeSize layoutEngine calculateOffset derives [] ev_end c w
      = (Ok tt, (c', w')) ∧
    heap w' = <[c_data c := assign_position (derived_position n) n]> (heap w) ∧
    is_nan (p_x (derived_position n)) = false ∧
    is_nan (p_y (derived_position n)) = false ∧
    (is_nan (n_x n) = false → is_zero (n_x n) = false → p_x (derived_position n) = n_x n) ∧
    (is_nan (n_y n) = false → is_zero (n_y n) = false → p_y (derived_position n) = n_y n) ∧
    notifications w' =
      (notifications w ++ [onUpdateNode (c_data c); onSelectNode (Some (c_data c))])%list.
Proof.
  intros Hcur Hnode Hn Hstate Hend Hprev.
  destruct (mounted_drag_run [] ev_end c w n Hcur Hnode Hn (Forall_nil_2 _) Hend Hprev)
    as (c' & w' & Hrun & Hheap & Hnote & _).
  exists c', w'. split; [exact Hrun|]. split.
  { rewrite Hheap. cbn [last]. f_equal. f_equal.
    destruct derives; [by destruct (readOnly props)|].
    rewrite Hstate. reflexivity. }
  destruct (or_zero_number (n_x n)) as [Hx1 Hx2].
  destruct (or_zero_number (n_y n)) as [Hy1 Hy2].
  by split_and!.
Qed.

End Drag.

(** Node b of the sample graph is dragged to (30, 40), under a React that
    re-derives the state. *)
Lemma drag_updates_then_selects_witness :
  let c := {| c_data := 1; c_index := 1; c_id := "node-b"; c_isSelected := false;
              c_current := true; c_oldSibling := None; c_state := initial_state node_b |} in
  let moves := [ {| de_buttons := 1; de_shiftKey := false; de_x := 10; de_y := 20 |};
                 {| de_buttons := 1; de_shiftKey := false; de_x := 30; de_y := 40 |} ] in
  let ev_end := {| de_buttons := 0; de_shiftKey := false; de_x := 30; de_y := 40 |} in
  ∃ c' w',
    mounted_drag default_props None None (λ _ _ _, Ok (0, 0)%float) true moves ev_end c
      sample_world = (Ok tt, (c', w')) ∧
    heap w' !! 1 = Some (assign_position {| p_x := 30; p_y := 40 |} node_b) ∧
    notifications w' = [onUpdateNode 1; onSelectNode (Some 1)].
Proof.
  intros c moves ev_end.
  destruct (drag_updates_then_selects default_props None None (λ _ _ _, Ok (0, 0)%float)
              true moves {| de_buttons := 1; de_shiftKey := false; de_x := 30; de_y := 40 |}
              ev_end c sample_world node_b)
    as (c' & w' & drop & Hrun & Hheap & _ & Hdrop & _ & Hno & _);
    try reflexivity.
  - repeat constructor.
  - intros sel p Hsel. vm_compute in Hsel. injection Hsel as <-. discriminate.
  - exists c', w'. split; [exact Hrun|]. split.
    + rewrite Hheap, (Hdrop eq_refl eq_refl). rewrite lookup_insert_eq. by vm_compute.
    + rewrite Hno. by vm_compute.
Defined.

(** A click on a node whose x is NaN. *)
Lemma click_writes_derived_position_witness :
  let lost := {| n_key := "b"; n_title := "B"; n_type := "empty"; n_x := nan; n_y := 7 |} in
  let w := with_heap (<[1 := lost]>) sample_world in
  let c := {| c_data := 1; c_index := 1; c_id := "node-b"; c_isSelected := false;
              c_current := true; c_oldSibling := None; c_state := initial_state lost |} in
  let click := {| de_buttons := 0; de_shiftKey := false; de_x := 0; de_y := 0 |} in
  ∃ c' w',
    mounted_drag default_props None None (λ _ _ _, Ok (0, 0)%float) false [] click c w
      = (Ok tt, (c', w')) ∧
    heap w' !! 1 = Some (assign_position {| p_x := 0; p_y := 7 |} lost) ∧
    notifications w' = [onUpdateNode 1; onSelectNode (Some 1)].
Proof.
  intros lost w c click.
  destruct (click_writes_derived_position default_props None None
              (λ _ _ _, Ok (0, 0)%float) false click c w lost false (initial_state lost))
    as (c' & w' & Hrun & Hheap & _ & _ & _ & _ & Hno); try reflexivity.
  - intros sel p Hsel. vm_compute in Hsel. injection Hsel as <-. discriminate.
  - exists c', w'. split; [exact Hrun|]. split.
    + rewrite Hheap. rewrite lookup_insert_eq. by vm_compute.
    + rewrite Hno. by vm_compute.
Defined.

(** ** The place of a dragged node among the entities *)

Lemma filter_ne_notin (x : string) (l : list string) :
  x ∉ l → filter (λ c, c ≠ x) l = l.
Proof.
  induction l as [|a l IH]; [done|]. intros [Hne Hl]%not_elem_of_cons.
  rewrite filter_cons_True by done. by rewrite IH.
Qed.

Lemma appendChild_middle (x : string) (l1 l2 : list string) :
  x ∉ l1 → x ∉ l2 → appendChild x (l1 ++ x :: l2) = (l1 ++ l2 ++ [x])%list.
Proof.
  intros H1 H2. unfold appendChild.
  rewrite filter_app, filter_cons_False by (by intros ?).
  rewrite !filter_ne_notin by done. by rewrite <- (assoc_L (++)%list).
Qed.

Lemma nextSibling_middle (x : string) (l1 l2 : list string) :
  x ∉ l1 → nextSibling x (l1 ++ x :: l2) = head l2.
Proof.
  induction l1 as [|a l1 IH]; intros H1; cbn.
  - by rewrite decide_True.
  - apply not_elem_of_cons in H1 as [Hne H1]. rewrite decide_False by done. by apply IH.
Qed.

Lemma insert_before_at (x s : string) (l1 l2 : list string) :
  s ∉ l1 → insert_before x s (l1 ++ s :: l2) = (l1 ++ x :: s :: l2)%list.
Proof.
  induction l1 as [|a l1 IH]; intros H1; cbn.
  - by rewrite decide_True.
  - apply not_elem_of_cons in H1 as [Hne H1]. rewrite decide_False by done.
    by rewrite IH.
Qed.

Lemma drag_order (x : string) (l : list string) :
  NoDup l → x ∈ l →
  last (appendChild x l) = Some x ∧
  match nextSibling x l with
  | Some s => s ∈ appendChild x l ∧ insertBefore x s (appendChild x l) = l
  | None => appendChild x l = l
  end.
Proof.
  intros Hnd Hx. split; [apply last_snoc|].
  apply list_elem_of_split in Hx as (l1 & l2 & ->).
  apply NoDup_app in Hnd as (Hnd1 & Hx1 & Hnd2).
  apply NoDup_cons in Hnd2 as [Hx2 Hnd2].
  assert (H1 : x ∉ l1).
  { intros Hin. apply (Hx1 x Hin). by left. }
  rewrite nextSibling_middle, appendChild_middle by done.
  destruct l2 as [|s l2]; cbn [head].
  - done.
  - assert (Hsx : x ≠ s).
    { intros ->. apply Hx2. by left. }
    assert (Hs1 : s ∉ l1).
    { intros Hin. apply (Hx1 s Hin). right. by left. }
    split.
    + apply elem_of_app. right. by left.
    + unfold insertBefore. rewrite decide_False by done.
      rewrite filter_app, filter_ne_notin by done.
      change ((s :: l2) ++ [x])%list with (s :: (l2 ++ [x]))%list.
      rewrite filter_cons_True by done.
      rewrite filter_app, filter_ne_notin.
      2:{ intros Hin. apply Hx2. by right. }
      rewrite filter_cons_False by (by intros ?). rewrite filter_nil, app_nil_r.
      by rewrite insert_before_at.
Qed.

Section Order.

Context {E : Type}.
Variable entities : E → list string.
Variable set_entities : list string → E → E.
Variable rederive : Component → E → INodeState → INodeState.
Variables onNodeUpdate : IPoint → nat → bool → E → Result unit * E.
Variable onNodeSelected : loc → nat → bool → E → Result unit * E.

(** X16.  A drag moves the container of the node to the end of the
    entities, above the other entities, and the end of the drag puts it
    back: where the containers are distinct and the callbacks leave them
    in place, the entities are in the order they had before the drag.
    [oldSibling] is set at the first drag and never cleared; after the
    drag it is the next sibling of the container again, so the same holds
    of the next drag. *)
Theorem drag_restores_order (c : Component) (e : E) (ev : DragEvent) :
  (∀ l e, entities (set_entities l e) = l) →
  (∀ p i b e, entities (onNodeUpdate p i b e).2 = entities e) →
  (∀ d i b e, entities (onNodeSelected d i b e).2 = entities e) →
  c_current c = true →
  NoDup (entities e) →
  container c ∈ entities e →
  c_oldSibling c = None ∨ c_oldSibling c = nextSibling (container c) (entities e) →
  let started := handleDragStart entities set_entities c e in
  let ended :=
    handleDragEnd entities set_entities rederive onNodeUpdate onNodeSelected ev
      started.1 started.2 in
  last (entities started.2) = Some (container c) ∧
  entities ended.2.2 = entities e ∧
  (c_oldSibling ended.2.1 = None ∨
   c_oldSibling ended.2.1 = nextSibling (container c) (entities ended.2.2)).
Proof.
  intros Hlens Hupd Hsel Hcur Hnd Hin Hold started ended.
  destruct (drag_order (container c) (entities e) Hnd Hin) as [Hlast Hback].
  assert (Hs1 : c_oldSibling started.1 = nextSibling (container c) (entities e) ∧
                c_current started.1 = true ∧ container started.1 = container c ∧
                c_data started.1 = c_data c ∧ c_index started.1 = c_index c).
  { subst started. unfold handleDragStart. rewrite Hcur. cbn [negb fst].
    destruct Hold as [Hold|Hold]; rewrite Hold.
    - done.
    - by destruct (nextSibling (container c) (entities e)). }
  assert (Hs2 : entities started.2 = appendChild (container c) (entities e)).
  { subst started. unfold handleDragStart. rewrite Hcur. cbn [negb snd].
    rewrite Hlens. by destruct (c_oldSibling c). }
  destruct Hs1 as (Hold1 & Hcur1 & Hcont1 & _).
  split; [by rewrite Hs2|].
  assert (Hent : entities ended.2.2 = entities e ∧
                 c_oldSibling ended.2.1 = c_oldSibling started.1).
  { subst ended. unfold handleDragEnd. rewrite Hcur1. cbn [negb].
    rewrite Hold1, Hcont1, Hs2.
    set (e1 := match nextSibling (container c) (entities e) with
               | Some oldSibling =>
                 if bool_decide (oldSibling ∈ appendChild (container c) (entities e))
                 then set_entities
                        (insertBefore (container c) oldSibling
                           (appendChild (container c) (entities e))) started.2
                 else started.2
               | None => started.2
               end).
    assert (He1 : entities e1 = entities e).
    { subst e1. destruct (nextSibling (container c) (entities e)) as [s|].
      - destruct Hback as [Hs Hb]. rewrite (bool_decide_eq_true_2 _ Hs), Hlens. done.
      - by rewrite Hs2. }
    match goal with |- context [onNodeUpdate ?p ?i ?b e1] =>
      pose proof (Hupd p i b e1) as Hu; destruct (onNodeUpdate p i b e1) as [[[]|ex] e2]
    end; cbn [snd] in Hu.
    - match goal with |- context [onNodeSelected ?d ?i ?b e2] =>
        pose proof (Hsel d i b e2) as Hse; destruct (onNodeSelected d i b e2) as [r e3]
      end; cbn [snd] in Hse. cbn. split; [congruence|by rewrite Hold1].
    - cbn. split; [congruence|by rewrite Hold1]. }
  destruct Hent as [-> ->]. split; [done|]. by right.
Qed.

End Order.

(** Node b is drawn between node a and an edge. *)
Lemma drag_restores_order_witness :
  let c := {| c_data := 1; c_index := 1; c_id := "node-b"; c_isSelected := false;
              c_current := true; c_oldSibling := None; c_state := initial_state node_b |} in
  let page := ["node-a-container"; "node-b-container"; "edge-a-b-container"] in
  let ev := {| de_buttons := 0; de_shiftKey := false; de_x := 0; de_y := 0 |} in
  let started := handleDragStart (λ e, e) (λ l _, l) c page in
  started.2 = ["node-a-container"; "edge-a-b-container"; "node-b-container"] ∧
  (handleDragEnd (λ e, e) (λ l _, l) (λ _ _ s, s) (λ _ _ _ e, (Ok tt, e))
     (λ _ _ _ e, (Ok tt, e)) ev started.1 started.2).2.2 = page.
Proof.
  intros c page ev started. split; [by vm_compute|].
  apply (drag_restores_order (λ e, e) (λ l _, l) (λ _ _ s, s) (λ _ _ _ e, (Ok tt, e))
           (λ _ _ _ e, (Ok tt, e)) c page ev); try done.
  - apply (bool_decide_unpack (NoDup page)). by vm_compute.
  - vm_compute. repeat first [apply list_elem_of_here|apply list_elem_of_further].
  - by left.
Defined.

(** ** Drawing an edge from a node to another *)

Section DrawEdge.

Variable props : Props.
Variable nodeSize : option float.
Variable layoutEngine : option (IPoint → IPoint).
Variable calculateOffset : option float → INode → IPoint → Result (float * float).
Variable derives : bool.

(** X17.  An edge is drawn from a node to another with the modifier key:
    the pointer comes over the source node with the button released, is
    dragged from it, comes over the target node with the button pressed,
    leaves it with the button still pressed, and the drag ends.  Where
    the graph may get the edge, the caller is sent onCreateEdge for the
    two nodes and nothing else: the target stays the end of the edge
    though the pointer left it, and no onSelectNode is sent.  No node
    object and neither collection changes, and no edge is dragged any
    more. *)
Theorem drawn_edge_is_created (w : World) (source target : Component) (s t : INode)
    (over over_target out_target : MouseEvent) (move ev_end : DragEvent)
    (off : float * float) :
  readOnly props = false →
  permitted (canCreateEdge props) tt = true →
  c_current source = true →
  nodes (state w) !! c_index source = Some (c_data source) →
  heap w !! c_data source = Some s →
  heap w !! c_data target = Some t →
  c_data source ≠ c_data target →
  edgesMap (state w) !! (n_key s ++ "_" ++ n_key t) = None →
  edgesMap (state w) !! (n_key t ++ "_" ++ n_key s) = None →
  me_buttons over ≠ 1%Z →
  de_buttons move = 1%Z →
  de_shiftKey move = true →
  calculateOffset nodeSize s {| p_x := de_x move; p_y := de_y move |} = Ok off →
  me_buttons over_target = 1%Z →
  me_buttons out_target = 1%Z →
  de_shiftKey ev_end = true →
  (∀ sel p, selectedNodeObj (state w) = Some sel → sn_node sel = Some p →
            is_Some (heap w !! p)) →
  ∃ source' target' w',
    mounted_draw_edge props nodeSize layoutEngine calculateOffset derives
      (Some over) move (Some over_target) (Some out_target) ev_end source target w
    = (Ok tt, (source', target', w')) ∧
    notifications w' =
      (notifications w ++ [onCreateEdge (c_data source) (c_data target)])%list ∧
    draggingEdge (state w') = false ∧
    heap w' = heap w ∧
    nodes (state w') = nodes (state w) ∧
    edges (state w') = edges (state w).
Proof.
  intros Hro Hcan Hcur Hnode Hs Ht Hne H1 H2 Hover Hmb Hms Hoff Hot Hout Hend Hprev.
  unfold mounted_draw_edge.
  (* the pointer comes over the source node *)
  set (source1 := setState (processed derives) (merge_hovered true) source w).
  assert (Hstep1 : mounted_handleMouseOver derives None (Some over) source w =
            (Ok tt, (source1,
                     with_state (λ s0, set_hoveredNode true
                                         (set_hoveredNodeData (Some (c_data source)) s0)) w))).
  { unfold mounted_handleMouseOver, handleMouseOver.
    rewrite (proj2 (Z.eqb_neq _ _) Hover). cbn [negb orb]. fold source1.
    change (c_data source1) with (c_data source).
    unfold handleNodeMouseEnter, bind, get, GraphView.setState, modify.
    by destruct (hoveredNode (state w)). }
  rewrite Hstep1. set (w1 := with_state _ w).
  (* the drag, with the modifier key *)
  destruct (handleNodeMove_draws props w1
              {| p_x := (de_x move + fst off)%float; p_y := (de_y move + snd off)%float |}
              (c_index source) (c_data source) s Hro Hcan Hnode Hs)
    as (w2 & Hrun2 & Hst2 & Hh2 & Hn2).
  assert (Hstep2 : mounted_handleMouseMove props nodeSize layoutEngine calculateOffset
                     derives move source1 w1 = (Ok tt, (source1, w2))).
  { unfold mounted_handleMouseMove, handleMouseMove. rewrite Hmb, Hms. cbn [Z.eqb Pos.eqb negb].
    unfold offset_of.
    change (heap w1 !! c_data source1) with (heap w !! c_data source). rewrite Hs, Hoff.
    cbn [p_x p_y]. change (c_index source1) with (c_index source). by rewrite Hrun2. }
  rewrite Hstep2.
  (* the pointer comes over the target node, and leaves it *)
  assert (Hstep3 : mounted_handleMouseOver derives None (Some over_target) target w2 =
            (Ok tt, (target, with_state (set_edgeEndNode (Some (c_data target))) w2))).
  { unfold mounted_handleMouseOver, handleMouseOver. rewrite Hot. cbn [Z.eqb Pos.eqb negb orb].
    unfold handleNodeMouseEnter, bind, get, GraphView.setState, modify. by rewrite Hst2. }
  rewrite Hstep3. set (w3 := with_state _ w2).
  set (target1 := setState (processed derives) (merge_hovered false) target w3).
  assert (Hstep4 : mounted_handleMouseOut derives None (Some out_target) target w3 =
            (Ok tt, (target1, w3))).
  { unfold mounted_handleMouseOut, handleMouseOut, handleNodeMouseLeave.
    rewrite Hout. cbn [Z.eqb Pos.eqb]. by rewrite !orb_true_r. }
  rewrite Hstep4.
  (* the drag ends *)
  unfold mounted_handleDragEnd, handleDragEnd.
  change (c_current source1) with (c_current source). rewrite Hcur. cbn [negb].
  assert (Hent : match c_oldSibling source1 with
                 | Some oldSibling =>
                   if bool_decide (oldSibling ∈ @nil string) then w3 else w3
                 | None => w3
                 end = w3).
  { destruct (c_oldSibling source1); [|done]. by destruct (bool_decide _). }
  rewrite Hent, Hend.
  set (source2 := setState (processed derives) (merge_mouseDown false) source1 w3).
  change (c_data source2) with (c_data source).
  change (c_index source2) with (c_index source).
  unfold handleNodeUpdate, bind at 1.
  destruct (createNewEdge_accepts props w3 (c_data source) (c_data target) s t)
    as (w4 & Hrun4 & Hst4 & Hh4 & Hn4); try done.
  { subst w3. cbn. by rewrite Hst2. }
  { subst w3. cbn. by rewrite Hh2. }
  { subst w3. cbn. by rewrite Hh2. }
  { subst w3. cbn. by rewrite Hst2. }
  { subst w3. cbn. by rewrite Hst2. }
  rewrite Hrun4. unfold GraphView.setState, modify.
  set (w5 := with_state _ w4).
  assert (Hh5 : heap w5 = heap w).
  { subst w5 w3. cbn. rewrite Hh4. cbn. by rewrite Hh2. }
  assert (Hsel5 : selectedNodeObj (state w5) = selectedNodeObj (state w)).
  { subst w5 w3. cbn. rewrite Hst4. cbn. by rewrite Hst2. }
  destruct (handleNodeSelected_ok w5 (c_data source) (c_index source) true s)
    as (w6 & -> & Hst6 & Hh6 & Hn6).
  { by rewrite Hh5. }
  { intros sel p Hsel Hp. rewrite Hh5. apply (Hprev sel p); [|done]. by rewrite <- Hsel5. }
  eexists _, _, w6. split; [done|].
  rewrite Hst6, Hh6, Hn6, Hh5, app_nil_r. subst w5 w3. cbn.
  rewrite Hst4, Hn4. cbn. rewrite Hst2, Hn2. cbn. by split_and!.
Qed.

End DrawEdge.

(** An edge is drawn from node b of the sample graph to node c. *)
Lemma drawn_edge_is_created_witness :
  let b := {| c_data := 1; c_index := 1; c_id := "node-b"; c_isSelected := false;
              c_current := true; c_oldSibling := None; c_state := initial_state node_b |} in
  let c := {| c_data := 2; c_index := 2; c_id := "node-c"; c_isSelected := false;
              c_current := true; c_oldSibling := None; c_state := initial_state node_c |} in
  let released := {| me_related := None; me_buttons := 0 |} in
  let pressed := {| me_related := None; me_buttons := 1 |} in
  let move := {| de_buttons := 1; de_shiftKey := true; de_x := 10; de_y := 90 |} in
  let ev_end := {| de_buttons := 0; de_shiftKey := true; de_x := 10; de_y := 90 |} in
  ∃ b' c' w',
    mounted_draw_edge default_props None None (λ _ _ _, Ok (0, 0)%float) true
      (Some released) move (Some pressed) (Some pressed) ev_end b c sample_world
    = (Ok tt, (b', c', w')) ∧
    notifications w' = [onCreateEdge 1 2].
Proof.
  intros b c released pressed move ev_end.
  destruct (drawn_edge_is_created default_props None None (λ _ _ _, Ok (0, 0)%float) true
              sample_world b c node_b node_c released pressed pressed move ev_end
              (0, 0)%float)
    as (b' & c' & w' & Hrun & Hn & _); try reflexivity; try discriminate.
  - intros sel p Hsel. vm_compute in Hsel. injection Hsel as <-. discriminate.
  - exists b', c', w'. split; [exact Hrun|]. by rewrite Hn.
Defined.

End NodeFacts.

(** * Properties of the selection *)

Module SelectionFacts.
Import GraphView GraphViewFacts RenderFacts.
Local Open Scope string_scope.

(** ** Nodes *)

(** Selecting a node keeps the drawn nodes in step with the selection
    record. *)
Lemma handleNodeSelected_keeps (w : World) (node : loc) (index : nat)
    (creatingEdge : bool) (n : INode) :
  selected_node_drawn w →
  heap w !! node = Some n →
  ∃ w', handleNodeSelected node index creatingEdge w = (Ok tt, w') ∧
    heap w' = heap w ∧
    selected_node_drawn w' ∧
    selectedNodeObj (state w') =
      Some {| sn_index := Z.of_nat index; sn_node := Some node |} ∧
    (keys_distinct (heap w) →
     ∃ i, dom w' !! ("node-" ++ n_key n ++ "-container") =
            Some (Some (NodeElement ("node-" ++ n_key n) node i true))).
Proof.
  intros [Hheap Hdrawn] Hn.
  unfold handleNodeSelected, bind at 1, get, bind at 1, setState, modify.
  set (new := {| sn_index := Z.of_nat index; sn_node := Some node |}).
  set (w1 := with_state _ w).
  assert (Hsel1 : selectedNodeObj (state w1) = Some new) by done.
  unfold bind at 1.
  destruct (syncRenderNode_ok node (Z.of_nat index) n new w1 Hn Hsel1)
    as (w2 & -> & Hf2 & Hd2 & Hk2).
  rewrite (bool_decide_eq_true_2 (sn_node new = Some node)) in Hd2 by done.
  unfold bind at 1.
  set (previous := match selectedNodeObj (state w) with
                   | Some sel => sn_node sel
                   | None => None
                   end).
  assert (∃ w3,
    match previous with
    | Some p =>
      syncRenderNode p
        match selectedNodeObj (state w) with
        | Some sel => match previous with Some _ => sn_index sel | None => (-1)%Z end
        | None => (-1)%Z
        end
    | None => ret tt
    end w2 = (Ok tt, w3) ∧ dom_frame w2 w3 ∧
    (∀ key id nd i,
       dom w3 !! ("node-" ++ key ++ "-container") = Some (Some (NodeElement id nd i true)) →
       nd = node ∧ n_key n = key) ∧
    (keys_distinct (heap w) →
     ∃ i, dom w3 !! ("node-" ++ n_key n ++ "-container") =
            Some (Some (NodeElement ("node-" ++ n_key n) node i true))))
    as (w3 & Hrun3 & Hf3 & Hinv3 & Hnew3).
  { assert (Hold : ∀ key id nd i,
              dom w2 !! ("node-" ++ key ++ "-container")
                = Some (Some (NodeElement id nd i true)) →
              (nd = node ∧ n_key n = key) ∨
              (∃ pn, previous = Some nd ∧ heap w !! nd = Some pn ∧ n_key pn = key)).
    { intros key id nd i Hel.
      destruct (decide (key = n_key n)) as [->|Hne].
      - rewrite Hd2 in Hel. injection Hel as _ <- _. by left.
      - rewrite Hk2 in Hel.
        + destruct (Hdrawn key id nd i Hel) as (sel & pn & Hsel & Hnd & Hpn & Hkey).
          right. exists pn. subst previous. by rewrite Hsel.
        + apply node_id_not_edge_id.
        + intros Heq%node_container_inj. done. }
    destruct previous as [p|] eqn:Hprev.
    - assert (∃ sel, selectedNodeObj (state w) = Some sel ∧ sn_node sel = Some p)
        as (sel & Hsel & Hp).
      { subst previous. destruct (selectedNodeObj (state w)) as [sel|]; [|done].
        by exists sel. }
      destruct (Hheap sel p Hsel Hp) as [pn Hpn]. rewrite Hsel.
      assert (Hp2 : heap w2 !! p = Some pn) by (by rewrite (dom_frame_heap _ _ Hf2)).
      assert (Hsel2 : selectedNodeObj (state w2) = Some new)
        by (by rewrite (dom_frame_state _ _ Hf2)).
      destruct (syncRenderNode_ok p (sn_index sel) pn new w2 Hp2 Hsel2)
        as (w3 & Hrun3 & Hf3 & Hd3 & Hk3).
      exists w3. split; [done|]. split; [done|]. split.
      + intros key id nd i Hel.
        destruct (decide (key = n_key pn)) as [->|Hne].
        * rewrite Hd3 in Hel. injection Hel as _ <- _ Hflag.
          apply bool_decide_eq_true in Hflag. cbn in Hflag. injection Hflag as ->.
          rewrite Hn in Hpn. by injection Hpn as ->.
        * rewrite Hk3 in Hel.
          -- destruct (Hold key id nd i Hel) as [?|(pn' & [= <-] & Hpn' & Hkey)]; [done|].
             rewrite Hpn in Hpn'. injection Hpn' as <-. done.
          -- apply node_id_not_edge_id.
          -- intros Heq%node_container_inj. done.
      + intros Hkeys. destruct (decide (n_key n = n_key pn)) as [Heq|Hne].
        * assert (node = p) as <- by (by apply (Hkeys node p n pn)).
          rewrite Heq, Hd3. rewrite Hn in Hpn. injection Hpn as <-.
          rewrite (bool_decide_eq_true_2 (sn_node new = Some node)) by done.
          by eexists.
        * rewrite Hk3; [by eexists|apply node_id_not_edge_id|].
          intros Heq%node_container_inj. done.
    - exists w2. split; [done|]. split; [apply dom_frame_refl|]. split; [|by eexists].
      intros key id nd i Hel. destruct (Hold key id nd i Hel) as [?|(pn & ? & _)]; done. }
  rewrite Hrun3. pose proof (dom_frame_trans _ _ _ Hf2 Hf3) as Hf.
  assert (∃ w4, when (negb creatingEdge) (notify (onSelectNode (Some node))) w3 = (Ok tt, w4)
                ∧ state w4 = state w3 ∧ heap w4 = heap w3 ∧ dom w4 = dom w3)
    as (w4 & -> & Hs4 & Hh4 & Hd4).
  { destruct creatingEdge; eexists; by split_and!. }
  exists w4. split; [done|].
  rewrite Hh4, (dom_frame_heap _ _ Hf). split; [done|].
  assert (Hrecord : selectedNodeObj (state w4) = Some new).
  { by rewrite Hs4, (dom_frame_state _ _ Hf). }
  split; [|split; [done|by rewrite Hd4]]. split.
  - intros sel p. rewrite Hrecord. intros [= <-] [= <-].
    rewrite Hh4, (dom_frame_heap _ _ Hf). by eexists.
  - intros key id nd i. rewrite Hd4. intros Hel.
    destruct (Hinv3 key id nd i Hel) as [-> <-].
    exists new, n. split_and!; try done.
    by rewrite Hh4, (dom_frame_heap _ _ Hf).
Qed.


Lemma node_selections_keep (selections : list (loc * nat)) (w : World) :
  selected_node_drawn w →
  (∀ s, s ∈ selections → is_Some (heap w !! s.1)) →
  ∃ w', forEach selections (λ s, handleNodeSelected s.1 s.2 false) w = (Ok tt, w') ∧
    heap w' = heap w ∧
    selected_node_drawn w' ∧
    ∀ node index n,
      last selections = Some (node, index) →
      heap w !! node = Some n →
      selectedNodeObj (state w') =
        Some {| sn_index := Z.of_nat index; sn_node := Some node |} ∧
      (keys_distinct (heap w) →
       ∃ i, dom w' !! ("node-" ++ n_key n ++ "-container") =
              Some (Some (NodeElement ("node-" ++ n_key n) node i true))).
Proof.
  revert w. induction selections as [|[node index] selections IH] using rev_ind;
    intros w Hinv Hall.
  - exists w. by split_and!.
  - destruct (IH w Hinv) as (w1 & Hrun1 & Hh1 & Hinv1 & _).
    { intros s Hs. apply Hall, elem_of_app. by left. }
    destruct (Hall (node, index)) as [n Hn].
    { apply elem_of_app. right. by apply list_elem_of_singleton. }
    cbn in Hn.
    destruct (handleNodeSelected_keeps w1 node index false n Hinv1)
      as (w2 & Hrun2 & Hh2 & Hinv2 & Hrec2 & Hnew2); [by rewrite Hh1|].
    exists w2. rewrite forEach_snoc. unfold bind. rewrite Hrun1.
    split; [exact Hrun2|]. split; [by rewrite Hh2|]. split; [done|].
    intros node' index' n' Hlast Hn'. rewrite last_snoc in Hlast.
    injection Hlast as <- <-. rewrite Hn in Hn'. injection Hn' as <-.
    split; [done|]. intros Hkeys. apply Hnew2. by rewrite Hh1.
Qed.

(** ** Edges *)







(** ** A selection of one kind and the entities of the other *)






(** ** Any sequence of selections *)




End SelectionFacts.
